(** * jtoa: JPEG to ASCII converter -- a shallow embedding of [jtoa.c]

    The C program decodes a JPEG file row by row, accumulates the rows
    into a grid of [float] cells, normalises the grid and prints one
    character per cell.  This development embeds the program's integer and
    single-precision arithmetic, its global option state, the resampling
    loop with its function-local [static] cursor, and the driver loop of
    [main], and proves properties of them.

    Conventions.
    - C [int] values are modelled as [Z]; an operation whose C behaviour
      is undefined (a float-to-int conversion out of range, an array
      access out of bounds, a signed increment or product that leaves the
      range of [int]) yields the result [UB].
    - C [float] values are modelled by [F32.t], IEEE 754 binary32 with the
      default rounding mode (to nearest, ties to even); every float
      operation of the source is evaluated in single precision
      ([FLT_EVAL_METHOD] 0).
    - the decoding library is outside the program: a decoded file is
      given as its header fields and its list of sample rows.
    - [UB] also stands where the model does not follow the program any
      further: for a palette index that reads the terminator of the
      palette string or the bytes behind it (see [print_image]).  No
      property below concludes that a run is undefined from such an
      index. *)

From Stdlib Require Import ZArith Lia Bool List Ascii String Floats.SpecFloat.
From stdpp Require Import base option list strings pretty.

Local Open Scope string_scope.

Local Open Scope Z_scope.

(** ** Single-precision floating point *)

Module F32.

(** A finite binary32 number is an integer multiple of [2^-149], the
    smallest positive subnormal.  [Fin neg u] stands for
    [(-1)^neg * u * 2^-149]; [Fin _ 0] are the two signed zeros. *)
Inductive t : Set :=
| NaN
| Inf (neg : bool)
| Fin (neg : bool) (u : Z).

(** [1.0] counted in units of [2^-149]. *)
Definition one_u : Z := 2 ^ 149.
(** [2^128] in units: the rounded magnitude from which a result
    overflows to infinity. *)
Definition top_u : Z := 2 ^ 277.

(** Nearest integer to [n/d], ties to even ([0 <= n], [0 < d]). *)
Definition rne (n d : Z) : Z :=
  let q := n / d in
  match 2 * (n mod d) ?= d with
  | Lt => q
  | Eq => if Z.even q then q else q + 1
  | Gt => q + 1
  end.

(** Number of low bits a magnitude with integer part [fl] cannot keep:
    24 significant bits, and nothing finer than one unit. *)
Definition shift (fl : Z) : Z := Z.max 0 (Z.log2 fl - 23).

(** Rounding of the exact magnitude [n/d] (in units) to the binary32
    grid, exponent unbounded above. *)
Definition round_mag (n d : Z) : Z :=
  let s := shift (n / d) in
  rne n (d * 2 ^ s) * 2 ^ s.

Definition round (neg : bool) (n d : Z) : t :=
  let u := round_mag n d in
  if top_u <=? u then Inf neg else Fin neg u.

Definition signed (neg : bool) (u : Z) : Z := if neg then - u else u.

Definition add (x y : t) : t :=
  match x, y with
  | NaN, _ | _, NaN => NaN
  | Inf a, Inf b => if eqb a b then x else NaN
  | Inf _, _ => x
  | _, Inf _ => y
  | Fin a u, Fin b v =>
      let z := signed a u + signed b v in
      if z =? 0 then Fin (a && b) 0
      else round (z <? 0) (Z.abs z) 1
  end.

Definition mul (x y : t) : t :=
  match x, y with
  | NaN, _ | _, NaN => NaN
  | Inf a, Inf b => Inf (xorb a b)
  | Inf a, Fin b v => if v =? 0 then NaN else Inf (xorb a b)
  | Fin a u, Inf b => if u =? 0 then NaN else Inf (xorb a b)
  | Fin a u, Fin b v => round (xorb a b) (u * v) one_u
  end.

Definition div (x y : t) : t :=
  match x, y with
  | NaN, _ | _, NaN => NaN
  | Inf _, Inf _ => NaN
  | Inf a, Fin b _ => Inf (xorb a b)
  | Fin a _, Inf b => Fin (xorb a b) 0
  | Fin a u, Fin b v =>
      if v =? 0 then (if u =? 0 then NaN else Inf (xorb a b))
      else round (xorb a b) (u * one_u) v
  end.

(** Conversion of an integer to [float]. *)
Definition of_Z (n : Z) : t := round (n <? 0) (Z.abs n * one_u) 1.

Definition INT_MAX : Z := 2147483647.
Definition INT_MIN : Z := -2147483648.

(** Conversion of a [float] to [int]: the fraction is discarded; the
    conversion is undefined ([None]) when the truncated value is not an
    [int], in particular for NaN and the infinities. *)
Definition to_int (x : t) : option Z :=
  match x with
  | Fin neg u =>
      let z := signed neg (u / one_u) in
      if (INT_MIN <=? z) && (z <=? INT_MAX) then Some z else None
  | _ => None
  end.

Definition is_zero (x : t) : bool :=
  match x with Fin _ u => u =? 0 | _ => false end.

(** The literals of the source. *)
Definition half : t := Fin false (2 ^ 148).
Definition two : t := Fin false (2 ^ 150).
Definition c255 : t := Fin false (255 * one_u).
Definition zero : t := Fin false 0.

(** The same number in the sign/mantissa/exponent form of the Standard
    Library's executable IEEE 754 specification. *)
Definition to_spec (x : t) : spec_float :=
  match x with
  | NaN => S754_nan
  | Inf s => S754_infinity s
  | Fin s u =>
      match u / 2 ^ shift u with
      | Zpos m => S754_finite s m (shift u - 149)
      | _ => S754_zero s
      end
  end.

(** The magnitudes that binary32 holds exactly. *)
Definition representable (u : Z) : Prop :=
  0 <= u /\ u mod 2 ^ shift u = 0.

(** The values of the model that are binary32 numbers. *)
Definition valid (x : F32.t) : Prop :=
  match x with
  | Fin _ u => representable u /\ u < top_u
  | _ => True
  end.

End F32.

(** Notions for comparing the model with the Standard Library's
    executable IEEE 754 specification. *)
Module F32Spec.
Import F32.

(** Position of [n/d] within its unit interval. *)
Definition loc_of (n d : Z) : location :=
  if n mod d =? 0 then loc_Exact else loc_Inexact (2 * (n mod d) ?= d).

(** The record [mrs] holds the integer part of [n/d], whether the
    fraction reaches one half, and whether anything lies beyond. *)
Definition holds (mrs : shr_record) (n d : Z) : Prop :=
  shr_m mrs = n / d /\
  shr_r mrs = (d <=? 2 * (n mod d)) /\
  shr_s mrs = negb ((2 * (n mod d)) mod d =? 0).

(** The two float expressions behind the counterexamples further down,
    written with the operations of the Standard Library's
    specification. *)
Definition sf_of_Z (n : Z) : spec_float := binary_normalize 24 128 n 0 false.

Definition sf_height (w sw sh : Z) : spec_float :=
  SFdiv 24 128
    (SFmul 24 128 (SFmul 24 128 (to_spec half) (sf_of_Z w)) (sf_of_Z sh))
    (sf_of_Z sw).

Definition sf_column (sw w x : Z) : spec_float :=
  SFmul 24 128 (sf_of_Z x) (SFdiv 24 128 (sf_of_Z sw) (sf_of_Z w)).

End F32Spec.


(** ** Outcomes of a run *)

(** A function of the program returns normally ([Ok]), runs into
    behaviour the C standard leaves undefined ([UB]), ends the process
    through [exit] ([Exit]), or -- for the one unbounded recursion of the
    source -- has not returned within the given budget ([Timeout]). *)
Inductive result (A : Type) : Type :=
| Ok (a : A)
| UB
| Exit (code : Z)
| Timeout.
Arguments Ok {A} a.
Arguments UB {A}.
Arguments Exit {A} code.
Arguments Timeout {A}.

Global Instance result_ret : MRet result := @Ok.
Global Instance result_bind : MBind result := fun A B f m =>
  match m with
  | Ok a => f a
  | UB => UB
  | Exit c => Exit c
  | Timeout => Timeout
  end.

Definition of_option {A} (o : option A) : result A :=
  match o with Some a => Ok a | None => UB end.

(** Array read and write with a C index; out of bounds is undefined. *)
Definition get {A} (l : list A) (i : Z) : result A :=
  if i <? 0 then UB else of_option (l !! Z.to_nat i).

Definition set {A} (l : list A) (i : Z) (v : A) : result (list A) :=
  if (0 <=? i) && (i <? Z.of_nat (length l)) then Ok (<[Z.to_nat i := v]> l)
  else UB.

(** [for (x = x0; ...; ++x) body], run for [n] iterations. *)
Fixpoint for_loop {St} (n : nat) (x : Z) (body : Z -> St -> result St)
    (s : St) : result St :=
  match n with
  | O => Ok s
  | S n' => s' ← body x s; for_loop n' (x + 1) body s'
  end.

(** [while (cond) body] with a budget of iterations. *)
Fixpoint while_loop {St} (fuel : nat) (cond : St -> bool)
    (body : St -> result St) (s : St) : result St :=
  match fuel with
  | O => Timeout
  | S fuel' =>
      if cond s then s' ← body s; while_loop fuel' cond body s' else Ok s
  end.

(** Signed increment; overflow is undefined. *)
Definition incr (n : Z) : result Z :=
  if n <? F32.INT_MAX then Ok (n + 1) else UB.

(** Signed product; overflow is undefined. *)
Definition int_mul (a b : Z) : result Z :=
  let p := a * b in
  if (F32.INT_MIN <=? p) && (p <=? F32.INT_MAX) then Ok p else UB.

(** [#define ROUND(x) (int) ( 0.5f + x )] *)
Definition ROUND (x : F32.t) : result Z :=
  of_option (F32.to_int (F32.add F32.half x)).

(** ** Global option state *)

Record options : Type := {
  verbose : Z;
  auto_height : Z;
  auto_width : Z;
  width : Z;
  height : Z;
  invert : Z;
  flipx : Z;
  flipy : Z;
  ascii_palette : string
}.

Definition ASCII_PALETTE_SIZE : Z := 256.
Definition default_palette : string := "   ...',;:clodxkO0KXNWM".

(** The initial values of the globals ("options with defaults"); the
    palette buffer starts empty and [main] copies the default palette
    into it before anything else. *)
Definition defaults : options :=
  {| verbose := 0; auto_height := 1; auto_width := 0; width := 78;
     height := 0; invert := 0; flipx := 0; flipy := 0;
     ascii_palette := EmptyString |}.

Definition set_verbose (o : options) (v : Z) : options :=
  {| verbose := v; auto_height := auto_height o; auto_width := auto_width o;
     width := width o; height := height o; invert := invert o;
     flipx := flipx o; flipy := flipy o; ascii_palette := ascii_palette o |}.
Definition set_auto_height (o : options) (v : Z) : options :=
  {| verbose := verbose o; auto_height := v; auto_width := auto_width o;
     width := width o; height := height o; invert := invert o;
     flipx := flipx o; flipy := flipy o; ascii_palette := ascii_palette o |}.
Definition set_auto_width (o : options) (v : Z) : options :=
  {| verbose := verbose o; auto_height := auto_height o; auto_width := v;
     width := width o; height := height o; invert := invert o;
     flipx := flipx o; flipy := flipy o; ascii_palette := ascii_palette o |}.
Definition set_width (o : options) (v : Z) : options :=
  {| verbose := verbose o; auto_height := auto_height o;
     auto_width := auto_width o; width := v; height := height o;
     invert := invert o; flipx := flipx o; flipy := flipy o;
     ascii_palette := ascii_palette o |}.
Definition set_height (o : options) (v : Z) : options :=
  {| verbose := verbose o; auto_height := auto_height o;
     auto_width := auto_width o; width := width o; height := v;
     invert := invert o; flipx := flipx o; flipy := flipy o;
     ascii_palette := ascii_palette o |}.
Definition set_invert (o : options) (v : Z) : options :=
  {| verbose := verbose o; auto_height := auto_height o;
     auto_width := auto_width o; width := width o; height := height o;
     invert := v; flipx := flipx o; flipy := flipy o;
     ascii_palette := ascii_palette o |}.
Definition set_flipx (o : options) (v : Z) : options :=
  {| verbose := verbose o; auto_height := auto_height o;
     auto_width := auto_width o; width := width o; height := height o;
     invert := invert o; flipx := v; flipy := flipy o;
     ascii_palette := ascii_palette o |}.
Definition set_flipy (o : options) (v : Z) : options :=
  {| verbose := verbose o; auto_height := auto_height o;
     auto_width := auto_width o; width := width o; height := height o;
     invert := invert o; flipx := flipx o; flipy := v;
     ascii_palette := ascii_palette o |}.
Definition set_ascii_palette (o : options) (v : string) : options :=
  {| verbose := verbose o; auto_height := auto_height o;
     auto_width := auto_width o; width := width o; height := height o;
     invert := invert o; flipx := flipx o; flipy := flipy o;
     ascii_palette := v |}.

(** ** AspectCalculator: [calc_aspect_ratio] *)

(** The function calls itself from inside its two [while] loops; [fuel]
    bounds the depth of the recursion and the iterations of each loop. *)
Fixpoint calc_aspect_ratio (fuel : nat) (jpeg_width jpeg_height : Z)
    (o : options) : result options :=
  match fuel with
  | O => Timeout
  | S fuel' =>
      o ← (if negb (auto_width o =? 0) && (auto_height o =? 0) then
             w ← ROUND (F32.div
                          (F32.mul (F32.mul F32.two (F32.of_Z (height o)))
                                   (F32.of_Z jpeg_width))
                          (F32.of_Z jpeg_height));
             while_loop fuel' (fun o => width o =? 0)
               (fun o => h ← incr (height o);
                         calc_aspect_ratio fuel' jpeg_width jpeg_height
                           (set_height o h))
               (set_width o w)
           else Ok o);
      if (auto_width o =? 0) && negb (auto_height o =? 0) then
        h ← ROUND (F32.div
                     (F32.mul (F32.mul F32.half (F32.of_Z (width o)))
                              (F32.of_Z jpeg_height))
                     (F32.of_Z jpeg_width));
        while_loop fuel' (fun o => height o =? 0)
          (fun o => w ← incr (width o);
                    calc_aspect_ratio fuel' jpeg_width jpeg_height
                      (set_width o w))
          (set_height o h)
      else Ok o
  end.

(** ** The decoding collaborator *)

(** What the decoding library hands to the program: the header fields of
    [struct jpeg_decompress_struct] the program reads, and the decoded
    rows, top to bottom, each of [output_width * output_components]
    8-bit samples.  [output_scanline] is not stored: it is the number of
    rows read so far. *)
Record jpeg : Type := {
  output_width : Z;
  output_height : Z;
  out_color_components : Z;
  output_components : Z;
  rows : list (list Z)
}.

(** Unsigned 32-bit subtraction of one ([JDIMENSION] is [unsigned int]). *)
Definition udec (n : Z) : Z := (n - 1) mod 2 ^ 32.

(** ** GridBuffer: [struct Image_] *)

Module Image.
Record t : Type := mk {
  width : Z;
  height : Z;
  pixel : list F32.t;
  yadds : list Z;
  resize_y : F32.t;
  resize_x : F32.t;
  lookup_resx : list Z
}.

Definition set_pixel (i : t) (p : list F32.t) : t :=
  mk (width i) (height i) p (yadds i) (resize_y i) (resize_x i) (lookup_resx i).
Definition set_yadds (i : t) (a : list Z) : t :=
  mk (width i) (height i) (pixel i) a (resize_y i) (resize_x i) (lookup_resx i).
Definition set_resize (i : t) (ry rx : F32.t) : t :=
  mk (width i) (height i) (pixel i) (yadds i) ry rx (lookup_resx i).
Definition set_lookup_resx (i : t) (l : list Z) : t :=
  mk (width i) (height i) (pixel i) (yadds i) (resize_y i) (resize_x i) l.
End Image.

(** [malloc_image]: the three arrays are allocated for the global
    [width] and [height]; their contents are indeterminate until [clear]
    and [init_image] fill them ([junk] and [0] stand for those contents,
    which the program never reads).  The number of cells,
    [width * height], is a product of two [int]s and undefined when it
    overflows; only then is it converted to [size_t] and scaled by the
    cell size, which does not wrap where [size_t] has 64 bits.  A
    negative size, converted to [size_t], cannot be allocated and ends
    the process; the model assumes that every other request is
    granted. *)
Definition junk : F32.t := F32.NaN.

Definition malloc_image (o : options) : result Image.t :=
  cells ← int_mul (width o) (height o);
  if cells <? 0 then Exit 1
  else if height o <? 0 then Exit 1
  else if width o <? 0 then Exit 1
  else Ok (Image.mk (width o) (height o)
             (replicate (Z.to_nat cells) junk)
             (replicate (Z.to_nat (height o)) 0)
             F32.zero F32.zero
             (replicate (Z.to_nat (width o)) 0)).

(** [clear]: both [memset]s write zero bytes over the whole array; the
    product [width * height] is the one [malloc_image] has computed for
    the same grid. *)
Definition clear (i : Image.t) : Image.t :=
  Image.set_yadds
    (Image.set_pixel i (replicate (length (Image.pixel i)) F32.zero))
    (replicate (length (Image.yadds i)) 0).

(** [init_image]: the column of the source is computed in [float],
    truncated to [int] and scaled by the component count, an [int]
    product. *)
Definition init_image (i : Image.t) (jpg : jpeg) : result Image.t :=
  let ry := F32.div (F32.of_Z (Image.height i - 1))
                    (F32.of_Z (udec (output_height jpg))) in
  let rx := F32.div (F32.of_Z (output_width jpg)) (F32.of_Z (Image.width i)) in
  l ← for_loop (Z.to_nat (Image.width i)) 0
        (fun dst_x l =>
           v ← of_option (F32.to_int (F32.mul (F32.of_Z dst_x) rx));
           p ← int_mul v (out_color_components jpg);
           set l dst_x p)
        (Image.lookup_resx i);
  Ok (Image.set_lookup_resx (Image.set_resize i ry rx) l).

(** ** IntensityMapper *)

(** One sample of the current row, converted to [float]. *)
Definition sample (source : list Z) (i : Z) : result F32.t :=
  s ← get source i; Ok (F32.of_Z s).

(** [intensity(&scanline[off], components)] *)
Definition intensity (scanline : list Z) (off components : Z) : result F32.t :=
  v0 ← sample scanline off;
  v ← for_loop (Z.to_nat (components - 1)) 1
        (fun c v => s ← sample scanline (off + c); Ok (F32.add v s)) v0;
  Ok (F32.div v (F32.mul F32.c255 (F32.of_Z components))).

(** [normalize] *)
Definition normalize (i : Image.t) : result Image.t :=
  let w := Image.width i in
  let h := Image.height i in
  p ← for_loop (Z.to_nat h) 0
        (fun y p =>
           for_loop (Z.to_nat w) 0
             (fun x p =>
                n ← get (Image.yadds i) y;
                if negb (n =? 0) then
                  v ← get p (y * w + x);
                  set p (y * w + x) (F32.div v (F32.of_Z n))
                else Ok p)
             p)
        (Image.pixel i);
  Ok (Image.set_pixel i p).

(** ** Resampler: [process_scanline] *)

(** [output_scanline] is the number of rows read so far, the current row
    included; [lasty] is the function's [static] cursor, passed in and
    handed back. *)
Definition process_scanline (output_scanline : Z) (jpg : jpeg)
    (scanline : list Z) (i : Image.t) (lasty : Z) : result (Image.t * Z) :=
  y ← ROUND (F32.mul (Image.resize_y i) (F32.of_Z (udec output_scanline)));
  i' ← for_loop (Z.to_nat (y - lasty + 1)) lasty
         (fun lasty i =>
            yoff ← int_mul lasty (Image.width i);
            p ← for_loop (Z.to_nat (Image.width i)) 0
                  (fun x p =>
                     off ← get (Image.lookup_resx i) x;
                     v ← intensity scanline off (out_color_components jpg);
                     old ← get p (yoff + x);
                     set p (yoff + x) (F32.add old v))
                  (Image.pixel i);
            n ← get (Image.yadds i) lasty;
            n' ← incr n;
            a ← set (Image.yadds i) lasty n';
            Ok (Image.set_yadds (Image.set_pixel i p) a))
         i;
  Ok (i', y).

(** ** Renderer: [print_image] *)

Definition palette_char (palette : string) (idx : Z) : result ascii :=
  get (list_ascii_of_string palette) idx.

(** The function fills the line buffer cell by cell and prints it; the
    result is the list of printed lines.  [palette_char] answers for the
    indices that select a character of the palette string.  The buffer
    behind the string has 257 bytes: an index from [strlen] to 256 reads
    the terminator or what lies behind it, which ends the printed line
    early and is no character of the palette; such an index is classed
    with the errors here, so a result [Ok lines] always stands for
    complete lines.  [decompress] calls with [chars = strlen - 1] on
    intensities between 0 and 1, where every index selects a
    character. *)
Definition print_image (o : options) (i : Image.t) (chars : Z)
    : result (list string) :=
  let w := Image.width i in
  let h := Image.height i in
  for_loop (Z.to_nat h) 0
    (fun y out =>
       line ← for_loop (Z.to_nat w) 0
                (fun x line =>
                   v ← get (Image.pixel i)
                         ((if flipy o =? 0 then y else h - y - 1) * w + x);
                   pos ← ROUND (F32.mul (F32.of_Z chars) v);
                   c ← palette_char (ascii_palette o)
                         (if invert o =? 0 then chars - pos else pos);
                   set line (if flipx o =? 0 then x else w - x - 1) c)
                (replicate (Z.to_nat w) "000"%char);
       Ok (app out [string_of_list_ascii line]))
    (@nil string).

(** ** The pipeline for one image: [decompress] *)

(** An opened stream either decodes to an image or makes the decoding
    library give up, which ends the process. *)
Inductive file : Type :=
| Decodable (jpg : jpeg)
| Corrupt.

(** The state that outlives a call: the globals, the [static] cursor of
    [process_scanline], whether standard input has been consumed, and what
    has been written to the two output streams. *)
Record world : Type := {
  opts : options;
  lasty : Z;
  stdin_used : bool;
  stdout : list string;
  stderr : list string
}.

Definition strlen (s : string) : Z := Z.of_nat (String.length s).

Definition print_info (jpg : jpeg) (o : options) : list string :=
  [ "Source width: " ++ pretty (output_width jpg) ++ "
";  "Source height: " ++ pretty (output_height jpg) ++ "
";  "Source color components: " ++ pretty (output_components jpg) ++ "
";  "Output width: " ++ pretty (width o) ++ "
";  "Output height: " ++ pretty (height o) ++ "
";  "Output palette (" ++ pretty (strlen (ascii_palette o)) ++ " chars): '"
      ++ ascii_palette o ++ "'

" ].

(** The row loop of [decompress]: read one row, hand it to
    [process_scanline]. *)
Definition scan_rows (jpg : jpeg) (i : Image.t) (lasty : Z)
    : result (Image.t * Z) :=
  for_loop (Z.to_nat (output_height jpg)) 0
    (fun n '(i, lasty) =>
       match rows jpg !! Z.to_nat n with
       | Some scanline => process_scanline (n + 1) jpg scanline i lasty
       | None => Exit 1
       end)
    (i, lasty).

Definition decompress (fuel : nat) (fp : file) (w : world) : result (Z * world) :=
  match fp with
  | Corrupt => Exit 1
  | Decodable jpg =>
      o ← calc_aspect_ratio fuel (output_width jpg) (output_height jpg) (opts w);
      image ← malloc_image o;
      let image := clear image in
      let err := if negb (verbose o =? 0) then app (stderr w) (print_info jpg o)
                 else stderr w in
      image ← init_image image jpg;
      '(image, lasty') ← scan_rows jpg image (lasty w);
      image ← normalize image;
      lines ← print_image o image (strlen (ascii_palette o) - 1);
      Ok (0, {| opts := o; lasty := lasty'; stdin_used := stdin_used w;
                stdout := app (stdout w) lines; stderr := err |})
  end.

(** ** Command line: [parse_options] *)

Definition help_text : string :=
"Usage: jtoa [ options ] [ file(s) ]

Convert files in JPEG format to ASCII.

OPTIONS
    --chars=...  Leftmost char corresponds to black pixel, right-most to white (specify at least 2 characters).
    --flipx      Flip image in X direction.
    --flipy      Flip image in Y direction.
    --height=N   Set output height, calculate width from aspect ratio.
-h, --help       Print program help.
-i, --invert     Invert output image.  Use if your display has a dark background.
    --size=WxH   Set output width and height.
-v, --verbose    Verbose output.
    --width=N    Set output width, calculate height from ratio.

  The default running mode is 'jtoa --width=78'
".

(** [sscanf]'s [%d]: white space is skipped, then an optional sign and at
    least one digit are read; a value that does not fit an [int] is
    undefined. *)
Definition is_space (c : ascii) : bool :=
  let n := Z.of_N (N_of_ascii c) in (n =? 32) || ((9 <=? n) && (n <=? 13)).

Definition digit (c : ascii) : option Z :=
  let n := Z.of_N (N_of_ascii c) in
  if (48 <=? n) && (n <=? 57) then Some (n - 48) else None.

Fixpoint skip_spaces (s : list ascii) : list ascii :=
  match s with
  | c :: s' => if is_space c then skip_spaces s' else s
  | [] => []
  end.

Fixpoint scan_digits (acc : Z) (s : list ascii) : Z * list ascii :=
  match s with
  | c :: s' =>
      match digit c with
      | Some d => scan_digits (10 * acc + d) s'
      | None => (acc, s)
      end
  | [] => (acc, [])
  end.

Definition scan_int (s : list ascii) : result (option (Z * list ascii)) :=
  let s := skip_spaces s in
  let '(neg, s) :=
    match s with
    | "-"%char :: s' => (true, s')
    | "+"%char :: s' => (false, s')
    | _ => (false, s)
    end in
  match s with
  | c :: _ =>
      match digit c with
      | Some _ =>
          let '(v, rest) := scan_digits 0 s in
          let v := if neg then - v else v in
          if (F32.INT_MIN <=? v) && (v <=? F32.INT_MAX) then Ok (Some (v, rest))
          else UB
      | None => Ok None
      end
  | [] => Ok None
  end.

Fixpoint strip_prefix (p s : list ascii) : option (list ascii) :=
  match p, s with
  | [], _ => Some s
  | a :: p', b :: s' => if Ascii.eqb a b then strip_prefix p' s' else None
  | _ :: _, [] => None
  end.

(** [sscanf(s, fmt "%d", &v) == 1] for a literal prefix [fmt]. *)
Definition scan_one (fmt s : string) : result (option Z) :=
  match strip_prefix (list_ascii_of_string fmt) (list_ascii_of_string s) with
  | Some rest => r ← scan_int rest; Ok (option_map fst r)
  | None => Ok None
  end.

(** [sscanf(s, "--size=%dx%d", &w, &h) == 2] *)
Definition scan_size (s : string) : result (option (Z * Z)) :=
  match strip_prefix (list_ascii_of_string "--size=") (list_ascii_of_string s) with
  | Some rest =>
      r ← scan_int rest;
      match r with
      | Some (w, "x"%char :: rest') =>
          r' ← scan_int rest';
          Ok (option_map (fun p => (w, fst p)) r')
      | _ => Ok None
      end
  | None => Ok None
  end.

(** What the chain of tests in the argument loop makes of one argument,
    in the order of the source. *)
Inductive arg : Type :=
| AFile
| AHelp
| AVerbose
| AInvert
| AFlipx
| AFlipy
| AWidth (n : Z)
| AHeight (n : Z)
| ASize (w h : Z)
| AChars (p : string)
| AUnknown.

Definition starts_with_dash (s : string) : bool :=
  match s with
  | String "-" _ => true
  | _ => false
  end.

Definition classify (s : string) : result arg :=
  if negb (starts_with_dash s) then Ok AFile
  else if String.eqb s "-" then Ok AFile
  else if String.eqb s "-h" || String.eqb s "--help" then Ok AHelp
  else if String.eqb s "-v" || String.eqb s "--verbose" then Ok AVerbose
  else if String.eqb s "-i" || String.eqb s "--invert" then Ok AInvert
  else if String.eqb s "--flipx" then Ok AFlipx
  else if String.eqb s "--flipy" then Ok AFlipy
  else
    r ← scan_one "--width=" s;
    match r with
    | Some n => Ok (AWidth n)
    | None =>
        r ← scan_one "--height=" s;
        match r with
        | Some n => Ok (AHeight n)
        | None =>
            r ← scan_size s;
            match r with
            | Some (w, h) => Ok (ASize w h)
            | None =>
                match strip_prefix (list_ascii_of_string "--chars=")
                        (list_ascii_of_string s) with
                | Some p => Ok (AChars (string_of_list_ascii p))
                | None => Ok AUnknown
                end
            end
        end
    end.

(** The argument loop.  The result is [inl (code, messages)] when the
    function returns from inside the loop, [inr (files, options)] when
    the loop runs to its end.  The length test of [--chars] evaluates
    [strlen(s-8)], which reads in front of the argument string: the
    behaviour is undefined. *)
Fixpoint parse_loop (args : list string) (files : Z) (o : options)
    : result (Z * list string + Z * options) :=
  match args with
  | [] => Ok (inr (files, o))
  | s :: args' =>
      a ← classify s;
      match a with
      | AFile => parse_loop args' (files + 1) o
      | AHelp => Ok (inl (0, [help_text]))
      | AVerbose => parse_loop args' files (set_verbose o 1)
      | AInvert => parse_loop args' files (set_invert o 1)
      | AFlipx => parse_loop args' files (set_flipx o 1)
      | AFlipy => parse_loop args' files (set_flipy o 1)
      | AWidth n =>
          parse_loop args' files
            (set_auto_height (set_width o n) (auto_height o + 1))
      | AHeight n =>
          parse_loop args' files
            (set_auto_width (set_height o n) (auto_width o + 1))
      | ASize w h =>
          parse_loop args' files
            (set_auto_height (set_auto_width (set_height (set_width o w) h) 0) 0)
      | AChars _ => UB
      | AUnknown => Ok (inl (1, ["Unknown option " ++ s ++ "

"; help_text]))
      end
  end.

(** [parse_options]: the return value ([-1] for success), the globals
    and the messages written to standard error. *)
Definition parse_options (args : list string) (o : options)
    : result (Z * options * list string) :=
  r ← parse_loop args 0 o;
  match r with
  | inl (code, msgs) => Ok (code, o, msgs)
  | inr (files, o) =>
      if files =? 0 then Ok (1, o, ["No files specified.

"; help_text])
      else
        let o := if (auto_width o =? 1) && (auto_height o =? 1)
                 then set_auto_height o 0 else o in
        let o := if (auto_width o =? 2) && (auto_height o =? 1)
                 then set_auto_height (set_auto_width o 0) 0 else o in
        if strlen (ascii_palette o) <? 2 then
          Ok (1, o, ["You must specify at least two characters in --chars.
"])
        else if ((width o <? 1) && (auto_width o =? 0))
                || ((height o <? 1) && (auto_height o =? 0)) then
          Ok (1, o, ["Invalid width or height specified.
"])
        else Ok (-1, o, [])
  end.

(** ** The driver: [main] *)

(** The environment of a run: which names [fopen] can open, and what
    standard input holds. *)
Record env : Type := {
  fopen : string -> option file;
  stdin : file
}.

Definition add_stderr (w : world) (msgs : list string) : world :=
  {| opts := opts w; lasty := lasty w; stdin_used := stdin_used w;
     stdout := stdout w; stderr := app (stderr w) msgs |}.

Definition second_char_is_nul (s : string) : bool :=
  match s with
  | String _ EmptyString => true
  | _ => false
  end.

(** The file loop of [main]: [inl r] when the function returns [r] from
    inside the loop, [inr w] when the loop runs to its end. *)
Fixpoint main_loop (fuel : nat) (e : env) (args : list string) (w : world)
    : result (Z * world + world) :=
  match args with
  | [] => Ok (inr w)
  | s :: args' =>
      if starts_with_dash s && negb (second_char_is_nul s) then
        main_loop fuel e args' w
      else
        let from_file (w : world) :=
          match fopen e s with
          | Some fp =>
              let w := if negb (verbose (opts w) =? 0)
                       then add_stderr w ["File: " ++ s ++ "
"] else w in
              '(r, w) ← decompress fuel fp w;
              if negb (r =? 0) then Ok (inl (r, w))
              else main_loop fuel e args' w
          | None => Ok (inl (1, add_stderr w ["Can't open " ++ s ++ "
"]))
          end in
        if starts_with_dash s && second_char_is_nul s then
          '(r, w) ← decompress fuel
                      (if stdin_used w then Corrupt else stdin e)
                      {| opts := opts w; lasty := lasty w; stdin_used := true;
                         stdout := stdout w; stderr := stderr w |};
          if r =? 0 then main_loop fuel e args' w else from_file w
        else from_file w
  end.

(** The globals as the program image holds them when [main] starts. *)
Definition initial_world : world :=
  {| opts := defaults; lasty := 0; stdin_used := false;
     stdout := []; stderr := [] |}.

(** [main]: [argv] is the whole argument vector, program name first. *)
Definition main (fuel : nat) (e : env) (argv : list string)
    : result (Z * world) :=
  let o := set_ascii_palette (opts initial_world) default_palette in
  '(r, o, msgs) ← parse_options (tail argv) o;
  let w := {| opts := o; lasty := 0; stdin_used := false;
              stdout := []; stderr := msgs |} in
  if 0 <=? r then Ok (r, w)
  else
    r ← main_loop fuel e (tail argv) w;
    match r with
    | inl (r, w) => Ok (r, w)
    | inr w => Ok (0, w)
    end.

(** ** Notions used in the statements *)

(** A grid whose arrays have the sizes [malloc_image] gives them. *)
Definition grid_ok (i : Image.t) : Prop :=
  0 <= Image.width i /\ 0 <= Image.height i /\
  Z.of_nat (length (Image.pixel i)) = Image.width i * Image.height i /\
  Z.of_nat (length (Image.yadds i)) = Image.height i.

(** What one pass of [normalize] leaves in cell [k]: the sum divided by
    the contribution count of its row, or the sum itself when the count
    is zero. *)
Definition normalized_cell (i : Image.t) (k : nat) : option F32.t :=
  match Image.pixel i !! k,
        Image.yadds i !! Z.to_nat (Z.of_nat k / Image.width i) with
  | Some v, Some n => Some (if n =? 0 then v else F32.div v (F32.of_Z n))
  | _, _ => None
  end.

(** The cells before linear index [m] are normalised, the others still
    hold their sums. *)
Definition normalized_upto (i : Image.t) (m : Z) (p : list F32.t) : Prop :=
  length p = length (Image.pixel i) /\
  forall k : nat,
    p !! k = if Z.of_nat k <? m then normalized_cell i k
             else Image.pixel i !! k.

(** A 1x1 grid whose only row received two contributions of [1.0]. *)
Definition twice_hit : Image.t :=
  Image.mk 1 1 [F32.two] [2] F32.zero F32.zero [0].

Definition newline : string := String "010"%char EmptyString.

(** The globals as [main] hands them to [parse_options]. *)
Definition main_options : options := set_ascii_palette defaults default_palette.

(** The sizing options among the arguments, in order. *)
Definition sizing (s : string) : option arg :=
  match classify s with
  | Ok (AWidth n) => Some (AWidth n)
  | Ok (AHeight n) => Some (AHeight n)
  | Ok (ASize w h) => Some (ASize w h)
  | _ => None
  end.

Definition sizing_args (args : list string) : list arg := omap sizing args.

(** The four globals the sizing options act on,
    [(auto_width, auto_height, width, height)], and the effect of one
    sizing option on them. *)
Definition sizing_state (o : options) : Z * Z * Z * Z :=
  (auto_width o, auto_height o, width o, height o).

Definition sizing_step (st : Z * Z * Z * Z) (a : arg) : Z * Z * Z * Z :=
  let '(aw, ah, w, h) := st in
  match a with
  | AWidth n => (aw, ah + 1, n, h)
  | AHeight n => (aw + 1, ah, w, n)
  | ASize w' h' => (0, 0, w', h')
  | _ => st
  end.

(** The two float expressions of [calc_aspect_ratio]. *)
Definition width_formula (o : options) (jpeg_width jpeg_height : Z) : F32.t :=
  F32.div (F32.mul (F32.mul F32.two (F32.of_Z (height o))) (F32.of_Z jpeg_width))
          (F32.of_Z jpeg_height).

Definition height_formula (o : options) (jpeg_width jpeg_height : Z) : F32.t :=
  F32.div (F32.mul (F32.mul F32.half (F32.of_Z (width o))) (F32.of_Z jpeg_height))
          (F32.of_Z jpeg_width).

(** ** Sample inputs *)

(** A grey-scale image of one column and two rows, black over white. *)
Definition black_over_white : jpeg :=
  {| output_width := 1; output_height := 2; out_color_components := 1;
     output_components := 1; rows := [[0]; [255]] |}.

(** A file system with the single file [a.jpg]. *)
Definition one_file : env :=
  {| fopen := fun s => if String.eqb s "a.jpg"
                       then Some (Decodable black_over_white) else None;
     stdin := Corrupt |}.

Definition sized_1x2 : options :=
  {| verbose := 0; auto_height := 0; auto_width := 0; width := 1;
     height := 2; invert := 0; flipx := 0; flipy := 0;
     ascii_palette := default_palette |}.



(** [floor (n/d + 1/2)]: rounding half up. *)
Definition round_half_up (n d : Z) : Z := (2 * n + d) / (2 * d).

(** The width [calc_aspect_ratio] ends with in derive-height mode: the
    given one, or the least one whose height does not round to 0. *)
Definition bumped_width (w sw sh : Z) : Z := Z.max w ((sw + sh - 1) / sh).

(** The source column [init_image] computes for destination column [x]:
    the truncated single-precision product of [x] and the rounded ratio. *)
Definition column (sw w x : Z) : option Z :=
  F32.to_int (F32.mul (F32.of_Z x) (F32.div (F32.of_Z sw) (F32.of_Z w))).

(** A cleared grid of 14 columns and one row, and the header of a
    grey-scale source of 62 columns. *)
Definition wide14 : Image.t :=
  Image.mk 14 1 (replicate 14 F32.zero) [0] F32.zero F32.zero (replicate 14 0).

Definition src62 : jpeg :=
  {| output_width := 62; output_height := 2; out_color_components := 1;
     output_components := 1; rows := replicate 2 (replicate 62 0) |}.

(** A printed line read from right to left. *)
Definition rev_line (s : string) : string :=
  string_of_list_ascii (rev (list_ascii_of_string s)).

(** The character [print_image] prints for grid row [row], column [x]. *)
Definition print_cell (o : options) (i : Image.t) (chars row x : Z)
    : result ascii :=
  v ← get (Image.pixel i) (row * Image.width i + x);
  pos ← ROUND (F32.mul (F32.of_Z chars) v);
  palette_char (ascii_palette o) (if invert o =? 0 then chars - pos else pos).

(** The results of [f] at [x], [x+1], ..., [n] of them. *)
Fixpoint collect {A} (f : Z -> result A) (n : nat) (x : Z) : result (list A) :=
  match n with
  | O => Ok []
  | S n' => a ← f x; l ← collect f n' (x + 1); Ok (a :: l)
  end.

(** One printed line: the cells of the row, from the left or, with
    [flipx], from the right. *)
Definition line_of (o : options) (i : Image.t) (chars y : Z)
    : result (list ascii) :=
  cs ← collect (print_cell o i chars
                  (if flipy o =? 0 then y else Image.height i - y - 1))
        (Z.to_nat (Image.width i)) 0;
  Ok (if flipx o =? 0 then cs else rev cs).

(** A grid of two rows and two columns. *)
Definition checker : Image.t :=
  Image.mk 2 2 [F32.zero; F32.half; F32.Fin false F32.one_u; F32.zero] [1; 1]
    F32.zero F32.zero [0; 1].

(** A grey-scale source of two columns and a single row, all white, and
    the same source with a second row. *)
Definition white_row : jpeg :=
  {| output_width := 2; output_height := 1; out_color_components := 1;
     output_components := 1; rows := [[255; 255]] |}.

Definition white_rows : jpeg :=
  {| output_width := 2; output_height := 2; out_color_components := 1;
     output_components := 1; rows := [[255; 255]; [255; 255]] |}.

(** The state in which [main] starts on its first file when the
    arguments left the globals at [o]. *)
Definition first_file (o : options) : world :=
  {| opts := o; lasty := 0; stdin_used := false; stdout := []; stderr := [] |}.



(** The grid [decompress] sets up for [jpg] from the globals [o]. *)
Definition fresh_grid (o : options) (jpg : jpeg) : result Image.t :=
  image ← malloc_image o; init_image (clear image) jpg.

(** ** Notions used in the further properties *)

(** The test of [main]'s file loop: an argument that is not skipped as
    an option is read as an input. *)
Definition operand (s : string) : bool :=
  negb (starts_with_dash s && negb (second_char_is_nul s)).

(** A call returns or runs into undefined behaviour: it neither ends the
    process nor exhausts a budget. *)
Definition returns_or_UB {A} (r : result A) : Prop :=
  match r with
  | Ok _ | UB => True
  | _ => False
  end.

(** The height [calc_aspect_ratio] ends with in derive-width mode: the
    given one, or the least one whose width does not round to 0. *)
Definition bumped_height (h sw sh : Z) : Z :=
  Z.max h ((sh + 4 * sw - 1) / (4 * sw)).

(** Two option states that differ at most in [width] and [height]. *)
Definition same_but_sizes (o o' : options) : Prop :=
  verbose o' = verbose o /\ auto_height o' = auto_height o /\
  auto_width o' = auto_width o /\ invert o' = invert o /\
  flipx o' = flipx o /\ flipy o' = flipy o /\
  ascii_palette o' = ascii_palette o.

(** A text that does not go on with a decimal digit. *)
Definition no_leading_digit (s : string) : bool :=
  match s with
  | String c _ => match digit c with Some _ => false | None => true end
  | EmptyString => true
  end.

(** The sum of the [c] samples of a row from offset [off] on. *)
Definition samples_sum (scanline : list Z) (off c : Z) : Z :=
  fold_right Z.add 0 (take (Z.to_nat c) (drop (Z.to_nat off) scanline)).

(** The samples are 8-bit values ([JSAMPLE] is [unsigned char]). *)
Definition eight_bit (scanline : list Z) : Prop :=
  forall (j : nat) (s : Z), scanline !! j = Some s -> 0 <= s <= 255.

(** The destination row [process_scanline] computes for source row [n],
    counted from 1, of a source of [H] rows and a grid of [h] rows. *)
Definition dest_row (h H n : Z) : result Z :=
  ROUND (F32.mul (F32.div (F32.of_Z (h - 1)) (F32.of_Z (udec H)))
                 (F32.of_Z (udec n))).

(** The same row before the conversion to [int], in units of [2^-149]:
    the ratio, its product with [n - 1] and the sum with one half, each
    rounded to single precision. *)
Definition row_units (h H n : Z) : Z :=
  F32.round_mag
    (2 ^ 148 +
     F32.round_mag
       (F32.round_mag ((h - 1) * F32.one_u * F32.one_u) ((H - 1) * F32.one_u)
        * ((n - 1) * F32.one_u))
       F32.one_u)
    1.

(** The grid of one image: the sizes [malloc_image] gave it and the
    constants [init_image] computed, every entry of the column table
    leaving room for one pixel in a source row. *)
Definition grid_of (jpg : jpeg) (w h : Z) (i : Image.t) : Prop :=
  Image.width i = w /\ Image.height i = h /\
  Z.of_nat (length (Image.pixel i)) = w * h /\
  Z.of_nat (length (Image.yadds i)) = h /\
  Z.of_nat (length (Image.lookup_resx i)) = w /\
  Image.resize_y i
  = F32.div (F32.of_Z (h - 1)) (F32.of_Z (udec (output_height jpg))) /\
  forall (x : nat) (off : Z), Image.lookup_resx i !! x = Some off ->
    0 <= off /\
    off + out_color_components jpg
    <= output_width jpg * out_color_components jpg.

(** Every cell, with the count of its grid row, satisfies [P]. *)
Definition cells_satisfy (P : Z -> F32.t -> Prop) (i : Image.t) : Prop :=
  forall k : nat, (k < length (Image.pixel i))%nat ->
    exists v n,
      Image.pixel i !! k = Some v /\
      Image.yadds i !! Z.to_nat (Z.of_nat k / Image.width i) = Some n /\
      P n v.

(** A finite sum of at most [n] intensities. *)
Definition bounded_sum (n : Z) (v : F32.t) : Prop :=
  exists u, v = F32.Fin false u /\ 0 <= u <= n * F32.one_u.

(** Every cell holds a finite sum that is at most the number of source
    rows added to its grid row. *)
Definition sums_bounded (i : Image.t) : Prop := cells_satisfy bounded_sum i.

(** The sum of [n] intensities of [t] units each, without rounding. *)
Definition exact_sum (t n : Z) (v : F32.t) : Prop := v = F32.Fin false (n * t).

(** Adding the intensity of any pixel of the row to a cell keeps [P],
    the count going up by one. *)
Definition row_adds (P : Z -> F32.t -> Prop) (jpg : jpeg) (scanline : list Z)
    : Prop :=
  forall off n v,
    0 <= off ->
    off + out_color_components jpg
    <= output_width jpg * out_color_components jpg ->
    P n v -> 0 <= n -> n + 1 < 2 ^ 24 ->
    exists t, intensity scanline off (out_color_components jpg) = Ok t /\
              P (n + 1) (F32.add v t).

(** Every count lies between 0 and [m], and the grid rows before [cov]
    have been added to. *)
Definition counts_within (i : Image.t) (m cov : Z) : Prop :=
  forall (r : nat) (n : Z), Image.yadds i !! r = Some n ->
    0 <= n <= m /\ (Z.of_nat r < cov -> 1 <= n).

(** A row of [sw * c] 8-bit samples. *)
Definition source_row (jpg : jpeg) (scanline : list Z) : Prop :=
  Z.of_nat (length scanline) = output_width jpg * out_color_components jpg /\
  eight_bit scanline.

(** Every sample of the image is [s]. *)
Definition uniform (jpg : jpeg) (s : Z) : Prop :=
  forall (n j : nat) (row : list Z) (x : Z),
    rows jpg !! n = Some row -> row !! j = Some x -> x = s.

(** A decoded image as the decoding library delivers it: at least two
    rows, at most [2^22] rows and columns, a row size that fits an
    [int], and every row made of [output_width * out_color_components]
    8-bit samples. *)
Definition well_formed (jpg : jpeg) : Prop :=
  1 <= output_width jpg <= 2 ^ 22 /\
  2 <= output_height jpg <= 2 ^ 22 /\
  1 <= out_color_components jpg /\
  255 * out_color_components jpg < 2 ^ 24 /\
  output_width jpg * out_color_components jpg <= F32.INT_MAX /\
  Z.of_nat (length (rows jpg)) = output_height jpg /\
  forall (n : nat) (row : list Z), rows jpg !! n = Some row -> source_row jpg row.

(** Every cell holds an intensity between 0 and 1. *)
Definition unit_cells (i : Image.t) : Prop :=
  Z.of_nat (length (Image.pixel i)) = Image.width i * Image.height i /\
  forall k : nat, (k < length (Image.pixel i))%nat ->
    exists u, Image.pixel i !! k = Some (F32.Fin false u) /\ 0 <= u <= F32.one_u.

(** * Properties *)

(** ** Facts about single-precision rounding *)

Module F32Facts.
Import F32.

Lemma div_le_cross n1 d1 n2 d2 :
  0 < d1 -> 0 < d2 -> n1 * d2 <= n2 * d1 -> n1 / d1 <= n2 / d2.
Proof.
  intros H1 H2 H. apply Z.div_le_lower_bound; [lia|].
  pose proof (Z.mul_div_le n1 d1 H1). nia.
Qed.

Lemma rne_spec n d : 0 < d -> - d <= 2 * (rne n d * d - n) <= d.
Proof.
  intros Hd. unfold rne.
  pose proof (Z.div_mod n d ltac:(lia)) as E.
  pose proof (Z.mod_pos_bound n d Hd) as B.
  destruct (Z.compare_spec (2 * (n mod d)) d); [destruct (Z.even _)|..]; nia.
Qed.

Lemma rne_floor n d : 0 < d -> n / d <= rne n d <= n / d + 1.
Proof.
  intros Hd. unfold rne.
  destruct (2 * (n mod d) ?= d); [destruct (Z.even _)|..]; lia.
Qed.

Lemma rne_exact k d : 0 < d -> rne (k * d) d = k.
Proof.
  intros Hd. unfold rne. rewrite Z.div_mul, Z.mod_mul by lia.
  destruct (Z.compare_spec (2 * 0) d); lia.
Qed.

Lemma rne_mono n1 d1 n2 d2 :
  0 < d1 -> 0 < d2 -> n1 * d2 <= n2 * d1 -> rne n1 d1 <= rne n2 d2.
Proof.
  intros H1 H2 H.
  pose proof (div_le_cross _ _ _ _ H1 H2 H) as Hq.
  destruct (Z.eq_dec (n1 / d1) (n2 / d2)) as [E|NE].
  - unfold rne. rewrite <- E.
    pose proof (Z.div_mod n1 d1 ltac:(lia)) as E1.
    pose proof (Z.div_mod n2 d2 ltac:(lia)) as E2. rewrite <- E in E2.
    pose proof (Z.mod_pos_bound n1 d1 H1) as B1.
    pose proof (Z.mod_pos_bound n2 d2 H2) as B2.
    assert (n1 mod d1 * d2 <= n2 mod d2 * d1) as Hr by nia.
    destruct (Z.compare_spec (2 * (n1 mod d1)) d1),
             (Z.compare_spec (2 * (n2 mod d2)) d2);
      try destruct (Z.even _); try lia; nia.
  - pose proof (rne_floor n1 d1 H1). pose proof (rne_floor n2 d2 H2). lia.
Qed.

Lemma shift_nonneg f : 0 <= shift f.
Proof. unfold shift. lia. Qed.

Lemma shift_mono f1 f2 : f1 <= f2 -> shift f1 <= shift f2.
Proof. intros H. unfold shift. pose proof (Z.log2_le_mono _ _ H). lia. Qed.

Lemma shift_upper f : 0 <= f -> f < 2 ^ (24 + shift f).
Proof.
  intros Hf. destruct (Z.eq_dec f 0) as [->|Hn].
  - apply Z.pow_pos_nonneg; [lia|]. pose proof (shift_nonneg 0). lia.
  - pose proof (Z.log2_spec f ltac:(lia)) as [_ Hu].
    eapply Z.lt_le_trans; [exact Hu|].
    apply Z.pow_le_mono_r; [lia|]. unfold shift. lia.
Qed.

Lemma shift_lower f : 0 < shift f -> 2 ^ (23 + shift f) <= f.
Proof.
  intros Hs. unfold shift in *.
  assert (0 < f) as Hf.
  { destruct (Z_lt_le_dec 0 f); [assumption|].
    rewrite Z.log2_nonpos in Hs by assumption. lia. }
  replace (23 + Z.max 0 (Z.log2 f - 23)) with (Z.log2 f) by lia.
  apply Z.log2_spec. assumption.
Qed.

Lemma round_mag_mono n1 d1 n2 d2 :
  0 <= n1 -> 0 < d1 -> 0 < d2 -> n1 * d2 <= n2 * d1 ->
  round_mag n1 d1 <= round_mag n2 d2.
Proof.
  intros Hn1 H1 H2 H. unfold round_mag.
  pose proof (div_le_cross _ _ _ _ H1 H2 H) as Hq.
  pose proof (shift_mono _ _ Hq) as Hs.
  set (s1 := shift (n1 / d1)) in *. set (s2 := shift (n2 / d2)) in *.
  assert (0 <= s1) as Hs1 by apply shift_nonneg.
  assert (0 < 2 ^ s1) as P1 by (apply Z.pow_pos_nonneg; lia).
  assert (0 < 2 ^ s2) as P2 by (apply Z.pow_pos_nonneg; lia).
  destruct (Z.eq_dec s1 s2) as [E|NE].
  - rewrite <- E. apply Z.mul_le_mono_nonneg_r; [lia|].
    apply rne_mono; nia.
  - assert (0 < s2) as Hpos by lia.
    pose proof (shift_lower _ Hpos) as Hlow. fold s2 in Hlow.
    assert (0 <= n1 / d1) as Hf1 by (apply Z.div_pos; lia).
    pose proof (shift_upper _ Hf1) as Hup. fold s1 in Hup.
    (* the left result stays within its binade, the right one starts
       in a higher binade *)
    assert (rne n1 (d1 * 2 ^ s1) <= 2 ^ 24) as L.
    { rewrite <- (rne_exact (2 ^ 24) 1) by lia.
      apply rne_mono; [nia|lia|].
      pose proof (Z.mul_succ_div_gt n1 d1 H1).
      rewrite Z.pow_add_r in Hup by lia. nia. }
    assert (2 ^ 23 <= rne n2 (d2 * 2 ^ s2)) as R.
    { rewrite <- (rne_exact (2 ^ 23) 1) by lia.
      apply rne_mono; [lia|nia|].
      pose proof (Z.mul_div_le n2 d2 H2).
      rewrite Z.pow_add_r in Hlow by lia. nia. }
    assert (2 ^ 24 * 2 ^ s1 <= 2 ^ 23 * 2 ^ s2) as M.
    { rewrite <- !Z.pow_add_r by lia. apply Z.pow_le_mono_r; lia. }
    nia.
Qed.

Lemma representable_scaled m e :
  0 <= m < 2 ^ 24 -> 0 <= e -> representable (m * 2 ^ e).
Proof.
  intros Hm He. split; [apply Z.mul_nonneg_nonneg; [lia|apply Z.pow_nonneg; lia]|].
  assert (shift (m * 2 ^ e) <= e) as Hs.
  { unfold shift. destruct (Z.eq_dec m 0) as [->|Hn]; [simpl; lia|].
    rewrite Z.log2_mul_pow2 by lia.
    assert (Z.log2 m < 24) by (apply Z.log2_lt_pow2; lia). lia. }
  pose proof (shift_nonneg (m * 2 ^ e)) as Hs0.
  replace e with ((e - shift (m * 2 ^ e)) + shift (m * 2 ^ e)) at 1 by lia.
  rewrite Z.pow_add_r by lia. rewrite Z.mul_assoc. apply Z.mod_mul.
  apply Z.pow_nonzero; lia.
Qed.

Lemma representable_small u : 0 <= u < 2 ^ 24 -> representable u.
Proof.
  intros H. replace u with (u * 2 ^ 0) by (simpl; lia).
  apply representable_scaled; lia.
Qed.

Lemma round_mag_exact u d :
  representable u -> 0 < d -> round_mag (u * d) d = u.
Proof.
  intros [Hu Hm] Hd. unfold round_mag. rewrite Z.div_mul by lia.
  set (s := shift u) in *.
  assert (0 < 2 ^ s) as P by (apply Z.pow_pos_nonneg; [lia|apply shift_nonneg]).
  pose proof (Z.div_mod u (2 ^ s) ltac:(lia)) as E. rewrite Hm in E.
  replace (u * d) with (u / 2 ^ s * (d * 2 ^ s)) by nia.
  rewrite rne_exact by nia. lia.
Qed.

(** In the normal range the relative error of a rounding is at most
    [2^-24]. *)
Lemma round_mag_error n d :
  0 < d -> 2 ^ 23 * d <= n ->
  - n <= 2 ^ 24 * (round_mag n d * d - n) <= n.
Proof.
  intros Hd Hn. unfold round_mag.
  set (s := shift (n / d)).
  assert (0 <= s) as Hs by apply shift_nonneg.
  assert (0 < 2 ^ s) as P by (apply Z.pow_pos_nonneg; lia).
  pose proof (rne_spec n (d * 2 ^ s) ltac:(nia)) as B.
  assert (2 ^ 23 * (d * 2 ^ s) <= n) as Hlow.
  { destruct (Z.eq_dec s 0) as [E|NE]; [rewrite E; simpl (2 ^ 0); lia|].
    pose proof (shift_lower (n / d) ltac:(fold s; lia)) as L. fold s in L.
    rewrite Z.pow_add_r in L by lia.
    pose proof (Z.mul_div_le n d Hd). nia. }
  nia.
Qed.

Lemma round_mag_nonneg n d : 0 <= n -> 0 < d -> 0 <= round_mag n d.
Proof.
  intros Hn Hd. rewrite <- (round_mag_exact 0 d); [|apply representable_small; lia|lia].
  apply round_mag_mono; lia.
Qed.

Lemma one_u_eq : one_u = 2 * 2 ^ 148.
Proof. reflexivity. Qed.

Lemma one_u_pos : 0 < one_u.
Proof. reflexivity. Qed.

Lemma top_u_eq : top_u = 2 ^ 128 * one_u.
Proof. reflexivity. Qed.

Lemma round_Fin neg n d :
  round_mag n d < top_u -> round neg n d = Fin neg (round_mag n d).
Proof. intros H. unfold round. destruct (Z.leb_spec top_u (round_mag n d)); [lia|reflexivity]. Qed.

(** A rounding does not cross a binary32 number. *)
Lemma round_mag_le n d c :
  0 <= n -> 0 < d -> representable c -> n <= c * d -> round_mag n d <= c.
Proof.
  intros Hn Hd Hc H. rewrite <- (round_mag_exact c 1 Hc) by lia.
  apply round_mag_mono; lia.
Qed.

Lemma round_mag_ge n d c :
  0 < d -> representable c -> c * d <= n -> c <= round_mag n d.
Proof.
  intros Hd Hc H. rewrite <- (round_mag_exact c 1 Hc) at 1 by lia.
  apply round_mag_mono; destruct Hc; lia.
Qed.

(** Integers below [2^24] convert exactly. *)
Lemma of_Z_exact n : 0 <= n < 2 ^ 24 -> of_Z n = Fin false (n * one_u).
Proof.
  intros H. unfold of_Z. destruct (Z.ltb_spec n 0); [lia|].
  rewrite Z.abs_eq by lia.
  assert (round_mag (n * one_u) 1 = n * one_u) as E.
  { rewrite <- (Z.mul_1_r (n * one_u)) at 1. apply round_mag_exact; [|lia].
    apply representable_scaled; lia. }
  rewrite round_Fin; rewrite E; [reflexivity|].
  rewrite top_u_eq. pose proof one_u_pos. nia.
Qed.

(** Half-integers below [2^23] are binary32 numbers. *)
Lemma representable_half k : 0 <= k < 2 ^ 24 -> representable (k * 2 ^ 148).
Proof. intros H. apply representable_scaled; lia. Qed.

(** Every rounding yields a binary32 magnitude. *)
Lemma round_mag_representable n d :
  0 <= n -> 0 < d -> representable (round_mag n d).
Proof.
  intros Hn Hd. unfold round_mag. set (s := shift (n / d)).
  assert (0 <= s) as Hs by apply shift_nonneg.
  assert (0 < 2 ^ s) as P by (apply Z.pow_pos_nonneg; lia).
  assert (0 <= n / d) as Hf by (apply Z.div_pos; lia).
  pose proof (shift_upper _ Hf) as Hup. fold s in Hup.
  assert (0 <= rne n (d * 2 ^ s) <= 2 ^ 24) as [L U].
  { split.
    - rewrite <- (rne_exact 0 1) by lia. apply rne_mono; nia.
    - rewrite <- (rne_exact (2 ^ 24) 1) by lia. apply rne_mono; [nia|lia|].
      pose proof (Z.mul_succ_div_gt n d Hd).
      rewrite Z.pow_add_r in Hup by lia. nia. }
  destruct (Z.eq_dec (rne n (d * 2 ^ s)) (2 ^ 24)) as [->|NE].
  - replace (2 ^ 24 * 2 ^ s) with (1 * 2 ^ (24 + s))
      by (rewrite Z.pow_add_r by lia; lia).
    apply representable_scaled; lia.
  - apply representable_scaled; lia.
Qed.

End F32Facts.

(** The model agrees with the Standard Library's executable IEEE 754
    specification instantiated at binary32 (24 bits of precision,
    exponents below 128): on every pair of binary32 operands, addition,
    multiplication and division of the model are [SFadd], [SFmul] and
    [SFdiv], and the conversion of an integer is [binary_normalize]. *)
Module F32Agree.
Import F32 F32Facts F32Spec.

Lemma digits2_pos_log2 p : Zpos (digits2_pos p) = Z.log2 (Zpos p) + 1.
Proof.
  induction p as [p IH|p IH|]; cbn [digits2_pos]; try reflexivity.
  - rewrite Pos2Z.inj_succ, IH. rewrite (Pos2Z.inj_xI p).
    rewrite Z.log2_succ_double by lia. lia.
  - rewrite Pos2Z.inj_succ, IH. rewrite (Pos2Z.inj_xO p).
    rewrite Z.log2_double by lia. lia.
Qed.

Lemma Zdigits2_log2 m : 0 < m -> Zdigits2 m = Z.log2 m + 1.
Proof. destruct m; try lia. intros _. apply digits2_pos_log2. Qed.

Lemma iter_pos_nat {A} (f : A -> A) p x :
  SpecFloat.iter_pos f p x = Nat.iter (Pos.to_nat p) f x.
Proof.
  revert x. induction p as [p IH|p IH|]; intros x; cbn [SpecFloat.iter_pos].
  - rewrite !IH.
    replace (Pos.to_nat p~1) with (Pos.to_nat p + S (Pos.to_nat p))%nat by lia.
    rewrite Nat.iter_add, Nat.iter_succ_r. reflexivity.
  - rewrite !IH.
    replace (Pos.to_nat p~0) with (Pos.to_nat p + Pos.to_nat p)%nat by lia.
    rewrite Nat.iter_add. reflexivity.
  - reflexivity.
Qed.

Lemma holds_scale mrs n d c :
  0 < c -> 0 < d -> holds mrs n d -> holds mrs (c * n) (c * d).
Proof.
  intros Hc Hd (Hm & Hr & Hs). unfold holds.
  rewrite Z.div_mul_cancel_l by lia. rewrite Z.mul_mod_distr_l by lia.
  split; [exact Hm|]. split.
  - rewrite Hr. destruct (Z.leb_spec d (2 * (n mod d))),
      (Z.leb_spec (c * d) (2 * (c * (n mod d)))); try reflexivity; nia.
  - rewrite Hs. f_equal.
    replace (2 * (c * (n mod d))) with (c * (2 * (n mod d))) by lia.
    rewrite Z.mul_mod_distr_l by lia.
    destruct (Z.eqb_spec ((2 * (n mod d)) mod d) 0),
      (Z.eqb_spec (c * ((2 * (n mod d)) mod d)) 0); try reflexivity; nia.
Qed.

Lemma holds_unscale mrs n d c :
  0 < c -> 0 < d -> holds mrs (c * n) (c * d) -> holds mrs n d.
Proof.
  intros Hc Hd (Hm & Hr & Hs). unfold holds.
  rewrite Z.div_mul_cancel_l in Hm by lia. rewrite Z.mul_mod_distr_l in Hr, Hs by lia.
  split; [exact Hm|]. split.
  - rewrite Hr. destruct (Z.leb_spec d (2 * (n mod d))),
      (Z.leb_spec (c * d) (2 * (c * (n mod d)))); try reflexivity; nia.
  - rewrite Hs. f_equal.
    replace (2 * (c * (n mod d))) with (c * (2 * (n mod d))) by lia.
    rewrite Z.mul_mod_distr_l by lia.
    destruct (Z.eqb_spec ((2 * (n mod d)) mod d) 0),
      (Z.eqb_spec (c * ((2 * (n mod d)) mod d)) 0); try reflexivity; nia.
Qed.

Lemma shr_1_holds mrs n d :
  0 <= n -> 0 < d -> holds mrs n d -> holds (shr_1 mrs) n (2 * d).
Proof.
  intros Hn Hd (Hm & Hr & Hs).
  pose proof (Z.div_mod n d ltac:(lia)) as E.
  pose proof (Z.mod_pos_bound n d Hd) as B.
  set (m := n / d) in *. set (r := n mod d) in *.
  assert (0 <= m) as Hm0 by (apply Z.div_pos; lia).
  pose proof (Z.div_mod m 2 ltac:(lia)) as E2.
  pose proof (Z.mod_pos_bound m 2 ltac:(lia)) as B2.
  assert (n / (2 * d) = m / 2) as Q.
  { symmetry. apply Z.div_unique with (r := (m mod 2) * d + r); nia. }
  assert (n mod (2 * d) = (m mod 2) * d + r) as R.
  { symmetry. apply Z.mod_unique with (q := m / 2); nia. }
  assert (shr_r mrs || shr_s mrs = negb (r =? 0)) as ST.
  { rewrite Hr, Hs.
    destruct (Z.leb_spec d (2 * r)).
    - cbn. destruct (Z.eqb_spec r 0); [lia|reflexivity].
    - cbn. rewrite Z.mod_small by lia.
      destruct (Z.eqb_spec (2 * r) 0), (Z.eqb_spec r 0); try reflexivity; lia. }
  assert (forall b : bool,
            (b = negb (m mod 2 =? 0)) ->
            holds {| shr_m := m / 2; shr_r := b; shr_s := shr_r mrs || shr_s mrs |}
                  n (2 * d)) as K.
  { intros b Hb. unfold holds. cbn [shr_m shr_r shr_s]. rewrite Q, R, ST.
    split; [reflexivity|]. split.
    - rewrite Hb. destruct (Z.eqb_spec (m mod 2) 0) as [E0|N0]; cbn.
      + destruct (Z.leb_spec (2 * d) (2 * (m mod 2 * d + r))); [nia|reflexivity].
      + destruct (Z.leb_spec (2 * d) (2 * (m mod 2 * d + r))); [reflexivity|nia].
    - f_equal.
      replace (2 * (m mod 2 * d + r)) with (2 * r + (m mod 2) * (2 * d)) by lia.
      rewrite Z.mod_add by lia. rewrite Z.mod_small by lia.
      destruct (Z.eqb_spec (2 * r) 0), (Z.eqb_spec r 0); try reflexivity; lia. }
  destruct mrs as [m0 r0 s0]. cbn [shr_m shr_r shr_s] in *. subst m0.
  unfold shr_1. destruct m as [|[p|p|]|p] eqn:Em; try lia.
  - apply (K false). reflexivity.
  - replace (Z.pos p) with (Z.pos p~1 / 2)
      by (rewrite Pos2Z.inj_xI; symmetry; apply Z.div_unique with (r := 1); lia).
    apply K. rewrite Pos2Z.inj_xI.
    replace ((2 * Z.pos p + 1) mod 2) with 1
      by (apply Z.mod_unique with (q := Z.pos p); lia). reflexivity.
  - replace (Z.pos p) with (Z.pos p~0 / 2)
      by (rewrite Pos2Z.inj_xO; symmetry; apply Z.div_unique with (r := 0); lia).
    apply K. rewrite Pos2Z.inj_xO.
    replace ((2 * Z.pos p) mod 2) with 0
      by (apply Z.mod_unique with (q := Z.pos p); lia). reflexivity.
  - apply (K true). reflexivity.
Qed.

Lemma iter_shr_holds k mrs n d :
  0 <= n -> 0 < d -> holds mrs n d ->
  holds (Nat.iter k shr_1 mrs) n (d * 2 ^ Z.of_nat k).
Proof.
  intros Hn Hd H. induction k as [|k IH].
  - cbn. rewrite Z.mul_1_r. exact H.
  - cbn [Nat.iter]. rewrite Nat2Z.inj_succ, Z.pow_succ_r by lia.
    replace (d * (2 * 2 ^ Z.of_nat k)) with (2 * (d * 2 ^ Z.of_nat k)) by lia.
    apply shr_1_holds; [lia| |exact IH].
    assert (0 < 2 ^ Z.of_nat k) by (apply Z.pow_pos_nonneg; lia). nia.
Qed.

Lemma shr_holds mrs e t n d :
  0 <= n -> 0 < d -> 0 <= t -> holds mrs n d ->
  holds (fst (shr mrs e t)) n (d * 2 ^ t) /\ snd (shr mrs e t) = e + t.
Proof.
  intros Hn Hd Ht H. destruct t as [|p|p]; [| |lia].
  - cbn. rewrite Z.mul_1_r, Z.add_0_r. auto.
  - cbn [shr fst snd]. split; [|reflexivity].
    rewrite iter_pos_nat. rewrite <- (positive_nat_Z p).
    apply iter_shr_holds; assumption.
Qed.

Lemma shr_nonpos mrs e t : t <= 0 -> shr mrs e t = (mrs, e).
Proof. destruct t; try reflexivity. lia. Qed.

Lemma holds_of_loc n d :
  0 <= n -> 0 < d -> holds (shr_record_of_loc (n / d) (loc_of n d)) n d.
Proof.
  intros Hn Hd. unfold loc_of, holds.
  pose proof (Z.mod_pos_bound n d Hd) as B. set (r := n mod d) in *.
  destruct (Z.eqb_spec r 0) as [E|NE].
  - cbn. rewrite E. cbn. rewrite Z.mod_0_l by lia.
    destruct (Z.leb_spec d (2 * 0)); [lia|]. auto.
  - destruct (Z.compare_spec (2 * r) d) as [E|L|G]; cbn.
    + split; [reflexivity|]. destruct (Z.leb_spec d (2 * r)); [|lia]. split; [reflexivity|].
      rewrite E, Z.mod_same by lia. reflexivity.
    + split; [reflexivity|]. destruct (Z.leb_spec d (2 * r)); [lia|]. split; [reflexivity|].
      rewrite Z.mod_small by lia. destruct (Z.eqb_spec (2 * r) 0); [lia|reflexivity].
    + split; [reflexivity|]. destruct (Z.leb_spec d (2 * r)); [|lia]. split; [reflexivity|].
      replace ((2 * r) mod d) with (2 * r - d)
        by (apply Z.mod_unique with (q := 1); lia).
      destruct (Z.eqb_spec (2 * r - d) 0); [lia|reflexivity].
Qed.

Lemma round_nearest_even_rne mrs n d :
  0 < d -> holds mrs n d ->
  round_nearest_even (shr_m mrs) (loc_of_shr_record mrs) = rne n d.
Proof.
  intros Hd (Hm & Hr & Hs). destruct mrs as [m r s]. cbn [shr_m shr_r shr_s] in *.
  unfold rne. rewrite <- Hm.
  pose proof (Z.mod_pos_bound n d Hd) as B. set (q := n mod d) in *.
  subst r s. unfold loc_of_shr_record, round_nearest_even.
  destruct (Z.leb_spec d (2 * q)) as [L|L]; destruct (Z.compare_spec (2 * q) d) as [E|C|C]; try lia.
  - rewrite E, Z.mod_same by lia. reflexivity.
  - replace ((2 * q) mod d) with (2 * q - d) by (apply Z.mod_unique with (q := 1); lia).
    destruct (Z.eqb_spec (2 * q - d) 0); [lia|]. reflexivity.
  - rewrite Z.mod_small by lia. destruct (Z.eqb_spec (2 * q) 0); reflexivity.
Qed.

Lemma fexp_eq e : fexp 24 128 e = Z.max (e - 24) (-149).
Proof. reflexivity. Qed.

(** The canonical exponent of the mantissa found at exponent [ex] is the
    shift of the magnitude, provided [ex] is not above it. *)
Lemma fexp_shift (mx ex N D : Z) :
  0 <= N -> 0 < D ->
  mx = (N * 2 ^ Z.max 0 (- (ex + 149))) / (D * 2 ^ Z.max 0 (ex + 149)) ->
  ex + 149 <= shift (N / D) ->
  fexp 24 128 (Zdigits2 mx + ex) = shift (N / D) - 149.
Proof.
  intros HN HD Hmx Hk. rewrite fexp_eq. set (k := ex + 149) in *.
  set (F := N / D) in *.
  assert (0 <= F) as HF by (apply Z.div_pos; lia).
  pose proof (shift_nonneg F) as Hs0.
  destruct (Z_le_gt_dec 0 k) as [Kpos|Kneg].
  - (* the mantissa is the magnitude shifted right by k *)
    rewrite (Z.max_l 0 (- k)), (Z.max_r 0 k) in Hmx by lia.
    rewrite Z.pow_0_r, Z.mul_1_r in Hmx.
    rewrite <- Z.div_div in Hmx by (try apply Z.pow_pos_nonneg; lia). fold F in Hmx.
    rewrite <- Z.shiftr_div_pow2 in Hmx by lia.
    destruct (Z.eq_dec F 0) as [E0|N0].
    + rewrite E0 in *. rewrite Z.shiftr_0_l in Hmx. subst mx. cbn [Zdigits2].
      unfold shift in *. cbn in Hk. cbn. lia.
    + assert (Z.log2 mx = Z.max 0 (Z.log2 F - k)) as L
        by (subst mx; apply Z.log2_shiftr; lia).
      destruct (Z.eq_dec mx 0) as [Em|Nm].
      * (* impossible: the magnitude would lie below 2^k *)
        exfalso. subst mx. rewrite Z.shiftr_div_pow2 in Em by lia.
        assert (0 < 2 ^ k) by (apply Z.pow_pos_nonneg; lia).
        assert (F < 2 ^ k).
        { pose proof (Z.mul_succ_div_gt F (2 ^ k) ltac:(lia)). lia. }
        destruct (Z.eq_dec k 0) as [K0|K0]; [rewrite K0 in *; cbn in *; lia|].
        assert (Z.log2 F < k) by (apply Z.log2_lt_pow2; lia).
        unfold shift in Hk. lia.
      * assert (0 < mx) by (subst mx; pose proof (Z.shiftr_nonneg F k); lia).
        rewrite Zdigits2_log2 by lia.
        assert (k <= Z.log2 F).
        { destruct (Z_le_gt_dec k (Z.log2 F)); [assumption|exfalso].
          assert (F < 2 ^ k).
          { eapply Z.lt_le_trans; [apply Z.log2_spec; lia|].
            apply Z.pow_le_mono_r; lia. }
          subst mx. rewrite Z.shiftr_div_pow2, Z.div_small in Nm by lia. lia. }
        unfold shift. lia.
  - (* the magnitude is the mantissa shifted right by -k *)
    rewrite (Z.max_r 0 (- k)), (Z.max_l 0 k) in Hmx by lia.
    rewrite Z.pow_0_r, Z.mul_1_r in Hmx.
    assert (0 < 2 ^ (- k)) as P by (apply Z.pow_pos_nonneg; lia).
    assert (F = Z.shiftr mx (- k)) as EF.
    { rewrite Z.shiftr_div_pow2 by lia. subst mx.
      rewrite Z.div_div by lia. rewrite Z.div_mul_cancel_r by lia. reflexivity. }
    assert (0 <= mx) by (subst mx; apply Z.div_pos; nia).
    destruct (Z.eq_dec mx 0) as [Em|Nm].
    + rewrite Em in *. rewrite Z.shiftr_0_l in EF. rewrite EF. cbn [Zdigits2].
      unfold shift. cbn. unfold k in Kneg. lia.
    + rewrite Zdigits2_log2 by lia.
      assert (Z.log2 F = Z.max 0 (Z.log2 mx - - k)) as L
        by (rewrite EF; apply Z.log2_shiftr; lia).
      destruct (Z.eq_dec F 0) as [E0|N0].
      * assert (mx < 2 ^ (- k)).
        { rewrite Z.shiftr_div_pow2 in EF by lia.
          pose proof (Z.mul_succ_div_gt mx (2 ^ (- k)) ltac:(lia)). lia. }
        assert (Z.log2 mx < - k) by (apply Z.log2_lt_pow2; lia).
        rewrite E0. unfold shift. cbn. unfold k in *. lia.
      * assert (- k <= Z.log2 mx).
        { destruct (Z_le_gt_dec (- k) (Z.log2 mx)); [assumption|exfalso].
          assert (mx < 2 ^ (- k)).
          { eapply Z.lt_le_trans; [apply Z.log2_spec; lia|].
            apply Z.pow_le_mono_r; lia. }
          rewrite Z.shiftr_div_pow2, Z.div_small in EF by lia. lia. }
        unfold shift, k in *. lia.
Qed.

Lemma rne_range n d s :
  0 <= n -> 0 < d -> s = shift (n / d) ->
  0 <= rne n (d * 2 ^ s) <= 2 ^ 24 /\ (0 < s -> 2 ^ 23 <= rne n (d * 2 ^ s)).
Proof.
  intros Hn Hd ->. set (s := shift (n / d)).
  assert (0 <= s) as Hs by apply shift_nonneg.
  assert (0 < 2 ^ s) as P by (apply Z.pow_pos_nonneg; lia).
  assert (0 <= n / d) as Hf by (apply Z.div_pos; lia).
  pose proof (shift_upper _ Hf) as Hup. fold s in Hup.
  split; [split|].
  - rewrite <- (rne_exact 0 1) by lia. apply rne_mono; nia.
  - rewrite <- (rne_exact (2 ^ 24) 1) by lia. apply rne_mono; [nia|lia|].
    pose proof (Z.mul_succ_div_gt n d Hd).
    rewrite Z.pow_add_r in Hup by lia. nia.
  - intros Hpos. pose proof (shift_lower _ Hpos) as Hlow. fold s in Hlow.
    rewrite <- (rne_exact (2 ^ 23) 1) by lia. apply rne_mono; [lia|nia|].
    pose proof (Z.mul_div_le n d Hd).
    rewrite Z.pow_add_r in Hlow by lia. nia.
Qed.

Lemma shift_scaled m s :
  0 <= s -> 0 < m < 2 ^ 24 -> (0 < s -> 2 ^ 23 <= m) -> shift (m * 2 ^ s) = s.
Proof.
  intros Hs Hm Hn. unfold shift. rewrite Z.log2_mul_pow2 by lia.
  assert (Z.log2 m < 24) by (apply Z.log2_lt_pow2; lia).
  destruct (Z.eq_dec s 0) as [->|]; [lia|].
  assert (23 <= Z.log2 m) by (apply Z.log2_le_pow2; lia). lia.
Qed.

(** The rounding of the Standard Library's specification computes
    [round]: if the mantissa [mx] and the location [lx] describe the
    magnitude [N/D] (in units of [2^-149]) at the exponent [ex], and [ex]
    is not above the canonical exponent of the magnitude, the results
    coincide. *)
Theorem binary_round_aux_round (s : bool) (mx ex : Z) (lx : location) (N D : Z) :
  0 <= N -> 0 < D ->
  mx = (N * 2 ^ Z.max 0 (- (ex + 149))) / (D * 2 ^ Z.max 0 (ex + 149)) ->
  lx = loc_of (N * 2 ^ Z.max 0 (- (ex + 149))) (D * 2 ^ Z.max 0 (ex + 149)) ->
  ex + 149 <= shift (N / D) ->
  binary_round_aux 24 128 s mx ex lx = to_spec (round s N D).
Proof.
  intros HN HD Hmx Hlx Hk.
  pose proof (fexp_shift mx ex N D HN HD Hmx Hk) as Hfexp.
  set (k := ex + 149) in *. set (sh := shift (N / D)) in *.
  assert (0 <= sh) as Hsh by apply shift_nonneg.
  set (sn := N * 2 ^ Z.max 0 (- k)) in *. set (sd := D * 2 ^ Z.max 0 k) in *.
  assert (0 < 2 ^ Z.max 0 (- k)) as Pa by (apply Z.pow_pos_nonneg; lia).
  assert (0 < 2 ^ Z.max 0 k) as Pb by (apply Z.pow_pos_nonneg; lia).
  assert (0 <= sn) as Hsn by (unfold sn; nia).
  assert (0 < sd) as Hsd by (unfold sd; nia).
  (* first shift: down to the canonical exponent *)
  unfold binary_round_aux, shr_fexp. rewrite Hfexp.
  pose proof (holds_of_loc sn sd Hsn Hsd) as H0. rewrite <- Hmx, <- Hlx in H0.
  destruct (shr_holds (shr_record_of_loc mx lx) ex (sh - 149 - ex) sn sd
              Hsn Hsd ltac:(unfold k in *; lia) H0) as [H1 E1].
  destruct (shr (shr_record_of_loc mx lx) ex (sh - 149 - ex)) as [mrs' e'].
  cbn [fst snd] in H1, E1.
  assert (e' = sh - 149) as Ee by lia. clear E1.
  assert (holds mrs' N (D * 2 ^ sh)) as H2.
  { assert (0 < 2 ^ sh) by (apply Z.pow_pos_nonneg; lia).
    destruct (Z_le_gt_dec 0 k).
    - unfold sn, sd in H1. rewrite (Z.max_l 0 (- k)), (Z.max_r 0 k) in H1 by lia.
      rewrite Z.pow_0_r, Z.mul_1_r in H1.
      replace (D * 2 ^ sh) with (D * 2 ^ k * 2 ^ (sh - 149 - ex)); [exact H1|].
      rewrite <- Z.mul_assoc, <- Z.pow_add_r by (unfold k in *; lia).
      f_equal. f_equal. unfold k. lia.
    - unfold sn, sd in H1. rewrite (Z.max_r 0 (- k)), (Z.max_l 0 k) in H1 by lia.
      rewrite Z.pow_0_r, Z.mul_1_r in H1.
      apply (holds_unscale _ _ _ (2 ^ (- k))); [apply Z.pow_pos_nonneg; lia|nia|].
      replace (2 ^ (- k) * N) with (N * 2 ^ (- k)) by lia.
      replace (2 ^ (- k) * (D * 2 ^ sh)) with (D * 2 ^ (sh - 149 - ex)); [exact H1|].
      replace (sh - 149 - ex) with (- k + sh) by (unfold k; lia).
      rewrite Z.pow_add_r by lia. lia. }
  rewrite (round_nearest_even_rne mrs' N (D * 2 ^ sh))
    by (try assumption; assert (0 < 2 ^ sh) by (apply Z.pow_pos_nonneg; lia); nia).
  destruct (rne_range N D sh HN HD eq_refl) as [[R0 R1] R2].
  set (m1 := rne N (D * 2 ^ sh)) in *.
  (* what [round] yields *)
  unfold round, round_mag. fold sh. fold m1.
  assert (0 < 2 ^ sh) as Psh by (apply Z.pow_pos_nonneg; lia).
  subst e'.
  destruct (Z.eq_dec m1 0) as [Z1|NZ1].
  - (* the magnitude rounds to zero *)
    rewrite Z1. cbn [Zdigits2 Z.add]. rewrite fexp_eq.
    rewrite shr_nonpos by lia. cbn [shr_m shr_record_of_loc].
    replace (0 * 2 ^ sh) with 0 by lia.
    assert (0 < top_u) by reflexivity.
    destruct (Z.leb_spec top_u 0); [lia|].
    cbn [to_spec]. rewrite Z.div_0_l; [reflexivity|].
    apply Z.pow_nonzero; [lia|apply shift_nonneg].
  - destruct (Z.eq_dec m1 (2 ^ 24)) as [T1|NT1].
    + (* the mantissa carried into a 25th bit *)
      rewrite T1. change (Zdigits2 (2 ^ 24)) with 25. rewrite fexp_eq.
      replace (Z.max (25 + (sh - 149) - 24) (-149) - (sh - 149)) with 1 by lia.
      cbn [shr shr_record_of_loc SpecFloat.iter_pos shr_1 shr_m].
      change (2 ^ 24) with 16777216. cbn [shr_1 shr_m].
      assert (shift (16777216 * 2 ^ sh) = sh + 1) as Es.
      { unfold shift. change 16777216 with (2 ^ 24). rewrite <- Z.pow_add_r by lia.
        rewrite Z.log2_pow2 by lia. lia. }
      assert (16777216 * 2 ^ sh / 2 ^ (sh + 1) = 8388608) as Em.
      { rewrite Z.pow_add_r by lia. symmetry.
        apply Z.div_unique with (r := 0); lia. }
      destruct (Z.leb_spec (sh - 149 + 1) (128 - 24)) as [Fi|In].
      * destruct (Z.leb_spec top_u (16777216 * 2 ^ sh)) as [Ov|_].
        { exfalso. unfold top_u in Ov. change 16777216 with (2 ^ 24) in Ov.
          rewrite <- Z.pow_add_r in Ov by lia.
          apply Z.pow_le_mono_r_iff in Ov; lia. }
        cbn [to_spec]. rewrite Es, Em. f_equal. lia.
      * destruct (Z.leb_spec top_u (16777216 * 2 ^ sh)) as [_|Fi]; [reflexivity|].
        exfalso. unfold top_u in Fi. change 16777216 with (2 ^ 24) in Fi.
        rewrite <- Z.pow_add_r in Fi by lia.
        apply Z.pow_lt_mono_r_iff in Fi; lia.
    + (* the mantissa fits: no second shift *)
      assert (0 < m1 < 2 ^ 24) as Hm1 by lia.
      assert (Zdigits2 m1 <= 24) as Hd1.
      { rewrite Zdigits2_log2 by lia.
        assert (Z.log2 m1 < 24) by (apply Z.log2_lt_pow2; lia). lia. }
      rewrite fexp_eq. rewrite shr_nonpos by lia.
      cbn [shr_m shr_record_of_loc].
      assert (shift (m1 * 2 ^ sh) = sh) as Es by (apply shift_scaled; assumption).
      assert (m1 * 2 ^ sh / 2 ^ sh = m1) as Em by (apply Z.div_mul; lia).
      destruct m1 as [|p|p] eqn:Ep; try lia.
      destruct (Z.leb_spec (sh - 149) (128 - 24)) as [Fi|In].
      * destruct (Z.leb_spec top_u (Z.pos p * 2 ^ sh)) as [Ov|_].
        { exfalso. unfold top_u in Ov.
          assert (2 ^ sh <= 2 ^ 253) by (apply Z.pow_le_mono_r; lia).
          change (2 ^ 277) with (2 ^ 24 * 2 ^ 253) in Ov. nia. }
        cbn [to_spec]. rewrite Es, Em. reflexivity.
      * destruct (Z.leb_spec top_u (Z.pos p * 2 ^ sh)) as [_|Fi]; [reflexivity|].
        exfalso. unfold top_u in Fi.
        assert (2 ^ 254 <= 2 ^ sh) by (apply Z.pow_le_mono_r; lia).
        specialize (R2 ltac:(lia)).
        change (2 ^ 277) with (2 ^ 23 * 2 ^ 254) in Fi. nia.
Qed.

Lemma to_spec_zero s : to_spec (Fin s 0) = S754_zero s.
Proof. reflexivity. Qed.

(** A non-zero finite value in sign, mantissa and exponent. *)
Lemma to_spec_Fin s u :
  representable u -> 0 < u ->
  exists m e,
    to_spec (Fin s u) = S754_finite s m e /\
    u = Zpos m * 2 ^ (e + 149) /\ e + 149 = shift u /\
    Zpos m < 2 ^ 24 /\ (0 < shift u -> 2 ^ 23 <= Zpos m).
Proof.
  intros [Hu Hm] Hpos. cbn [to_spec]. set (sh := shift u) in *.
  assert (0 <= sh) as Hsh by apply shift_nonneg.
  assert (0 < 2 ^ sh) as P by (apply Z.pow_pos_nonneg; lia).
  pose proof (Z.div_mod u (2 ^ sh) ltac:(lia)) as E. rewrite Hm in E.
  pose proof (shift_upper u Hu) as U. fold sh in U. rewrite Z.pow_add_r in U by lia.
  destruct (u / 2 ^ sh) as [|m|m] eqn:Eq; try nia.
  exists m, (sh - 149). split; [reflexivity|].
  replace (sh - 149 + 149) with sh by lia.
  split; [lia|]. split; [reflexivity|]. split; [nia|].
  intros Hs. pose proof (shift_lower u Hs) as L. fold sh in L.
  rewrite Z.pow_add_r in L by lia. nia.
Qed.

Lemma loc_of_exact n d : 0 < d -> n mod d = 0 -> loc_of n d = loc_Exact.
Proof. intros _ H. unfold loc_of. rewrite H. reflexivity. Qed.

Lemma round_zero s d : 0 < d -> round s 0 d = Fin s 0.
Proof.
  intros Hd. unfold round.
  replace (round_mag 0 d) with 0
    by (symmetry; apply (round_mag_exact 0 d); [apply representable_small; lia|lia]).
  reflexivity.
Qed.

Theorem mul_agrees (x y : F32.t) :
  valid x -> valid y ->
  to_spec (mul x y) = SFmul 24 128 (to_spec x) (to_spec y).
Proof.
  intros Hx Hy.
  destruct x as [|a|a u], y as [|b|b v]; try reflexivity.
  - (* infinity times finite *)
    cbn [mul]. destruct Hy as [Hy _]. pose proof Hy as [Hv0 _].
    destruct (Z.eqb_spec v 0) as [->|Nv]; [reflexivity|].
    destruct (to_spec_Fin b v) as (m & e & -> & _); [assumption|lia|]. reflexivity.
  - (* finite times NaN *)
    cbn [mul]. pose proof Hx as [[Hu0 _] _].
    destruct (Z.eqb_spec u 0) as [->|Nu]; [reflexivity|].
    destruct Hx as [Hx _].
    destruct (to_spec_Fin a u) as (m & e & -> & _); [assumption|lia|]. reflexivity.
  - (* finite times infinity *)
    cbn [mul]. pose proof Hx as [[Hu0 _] _].
    destruct (Z.eqb_spec u 0) as [->|Nu]; [reflexivity|].
    destruct Hx as [Hx _].
    destruct (to_spec_Fin a u) as (m & e & -> & _); [assumption|lia|]. reflexivity.
  - (* finite times finite *)
    destruct Hx as [Hx Hxt]. destruct Hy as [Hy Hyt].
    pose proof Hx as [Hu0 _]. pose proof Hy as [Hv0 _]. cbn [mul].
    destruct (Z.eq_dec u 0) as [->|Nu].
    { rewrite Z.mul_0_l, round_zero by apply one_u_pos. rewrite !to_spec_zero.
      destruct (Z.eq_dec v 0) as [->|Nv]; [reflexivity|].
      destruct (to_spec_Fin b v) as (m & e & -> & _); [assumption|lia|]. reflexivity. }
    destruct (Z.eq_dec v 0) as [->|Nv].
    { rewrite Z.mul_0_r, round_zero by apply one_u_pos. rewrite !to_spec_zero.
      destruct (to_spec_Fin a u) as (m & e & -> & _); [assumption|lia|]. reflexivity. }
    destruct (to_spec_Fin a u Hx ltac:(lia)) as (mx & ex & -> & Eu & Ex & Ux & Lx).
    destruct (to_spec_Fin b v Hy ltac:(lia)) as (my & ey & -> & Ev & Ey & Uy & Ly).
    cbn [SFmul]. symmetry.
    pose proof (shift_nonneg u) as Su. pose proof (shift_nonneg v) as Sv.
    assert (0 < one_u) as P1 by apply one_u_pos.
    set (k := ex + ey + 149).
    assert (u * v = Zpos mx * Zpos my * 2 ^ (k + 149)) as Euv.
    { rewrite Eu, Ev. unfold k.
      replace (ex + ey + 149 + 149) with ((ex + 149) + (ey + 149)) by lia.
      rewrite (Z.pow_add_r 2 (ex + 149) (ey + 149)) by lia. ring. }
    apply binary_round_aux_round; fold k; [nia|lia|..].
    + (* the product of the mantissas is the scaled magnitude *)
      rewrite Euv. unfold one_u. rewrite Pos2Z.inj_mul.
      destruct (Z_le_gt_dec 0 k).
      * rewrite (Z.max_l 0 (- k)), (Z.max_r 0 k), Z.pow_0_r, Z.mul_1_r by lia.
        rewrite <- Z.pow_add_r by lia. replace (149 + k) with (k + 149) by lia.
        rewrite Z.div_mul; [reflexivity|apply Z.pow_nonzero; lia].
      * rewrite (Z.max_r 0 (- k)), (Z.max_l 0 k), Z.pow_0_r, Z.mul_1_r by lia.
        rewrite <- Z.mul_assoc, <- Z.pow_add_r by lia.
        replace (k + 149 + - k) with 149 by lia.
        rewrite Z.div_mul; [reflexivity|apply Z.pow_nonzero; lia].
    + symmetry. apply loc_of_exact.
      * assert (0 < 2 ^ Z.max 0 k) by (apply Z.pow_pos_nonneg; lia). nia.
      * rewrite Euv. unfold one_u.
        destruct (Z_le_gt_dec 0 k).
        -- rewrite (Z.max_l 0 (- k)), (Z.max_r 0 k), Z.pow_0_r, Z.mul_1_r by lia.
           rewrite <- Z.pow_add_r by lia. replace (149 + k) with (k + 149) by lia.
           apply Z.mod_mul. apply Z.pow_nonzero; lia.
        -- rewrite (Z.max_r 0 (- k)), (Z.max_l 0 k), Z.pow_0_r, Z.mul_1_r by lia.
           rewrite <- Z.mul_assoc, <- Z.pow_add_r by lia.
           replace (k + 149 + - k) with 149 by lia.
           apply Z.mod_mul. apply Z.pow_nonzero; lia.
    + (* the exponent is not above the canonical one *)
      destruct (Z_le_gt_dec k 0) as [|Kpos]; [pose proof (shift_nonneg (u * v / one_u)); lia|].
      rewrite Euv. unfold one_u. rewrite Z.pow_add_r by lia.
      rewrite Z.mul_assoc, Z.div_mul by (apply Z.pow_nonzero; lia).
      unfold shift. rewrite Z.log2_mul_pow2 by lia.
      assert (23 <= Z.log2 (Zpos mx * Zpos my)).
      { assert (2 ^ 23 <= Zpos mx * Zpos my) by (unfold k in Kpos; nia).
        apply Z.log2_le_pow2; lia. }
      lia.
Qed.

Lemma loc_of_scale c n d : 0 < c -> 0 < d -> loc_of (c * n) (c * d) = loc_of n d.
Proof.
  intros Hc Hd. unfold loc_of. rewrite Z.mul_mod_distr_l by lia.
  pose proof (Z.mod_pos_bound n d Hd). set (r := n mod d) in *.
  destruct (Z.eqb_spec (c * r) 0), (Z.eqb_spec r 0); try nia; [reflexivity|].
  f_equal. destruct (Z.compare_spec (2 * (c * r)) (c * d)), (Z.compare_spec (2 * r) d);
    try reflexivity; nia.
Qed.

Lemma new_location_loc nb k :
  0 <= k < nb ->
  new_location nb k = if k =? 0 then loc_Exact else loc_Inexact (2 * k ?= nb).
Proof.
  intros H. unfold new_location, new_location_even, new_location_odd.
  destruct (Z.even nb) eqn:Ev; destruct (Z.eqb_spec k 0); try reflexivity.
  f_equal.
  assert (Z.odd nb = true) as Od by (rewrite <- Z.negb_even, Ev; reflexivity).
  apply Z.odd_spec in Od as [j Ej].
  destruct (Z.compare_spec (2 * k + 1) nb), (Z.compare_spec (2 * k) nb);
    try reflexivity; lia.
Qed.

Lemma SFdiv_core_binary_eq m1 e1 m2 e2 :
  0 < m1 -> 0 < m2 ->
  let e' := Z.min (fexp 24 128 (Zdigits2 m1 + e1 - (Zdigits2 m2 + e2))) (e1 - e2) in
  SFdiv_core_binary 24 128 m1 e1 m2 e2
  = (m1 * 2 ^ (e1 - e2 - e') / m2, e', loc_of (m1 * 2 ^ (e1 - e2 - e')) m2).
Proof.
  intros H1 H2 e'. unfold SFdiv_core_binary. fold e'.
  set (s := e1 - e2 - e'). assert (0 <= s) as Hs by (unfold s, e'; lia).
  assert (match s with Z.pos _ => Z.shiftl m1 s | Z0 => m1 | Z.neg _ => 0 end
          = m1 * 2 ^ s) as ->.
  { destruct s as [|p|p]; [cbn; lia| |lia]. apply Z.shiftl_mul_pow2. lia. }
  set (m' := m1 * 2 ^ s).
  pose proof (Z.mod_pos_bound m' m2 H2) as B.
  unfold loc_of, Z.div, Z.modulo in *.
  destruct (Z.div_eucl m' m2) as [q r]. rewrite new_location_loc by exact B.
  reflexivity.
Qed.

Theorem div_agrees (x y : F32.t) :
  valid x -> valid y ->
  to_spec (div x y) = SFdiv 24 128 (to_spec x) (to_spec y).
Proof.
  intros Hx Hy.
  destruct x as [|a|a u], y as [|b|b v]; try reflexivity.
  - (* infinity by finite *)
    cbn [div]. destruct Hy as [Hy _]. pose proof Hy as [Hv0 _].
    destruct (Z.eq_dec v 0) as [->|Nv]; [reflexivity|].
    destruct (to_spec_Fin b v) as (m & e & -> & _); [assumption|lia|]. reflexivity.
  - (* finite by NaN *)
    cbn [div]. destruct Hx as [Hx _]. pose proof Hx as [Hu0 _].
    destruct (Z.eq_dec u 0) as [->|Nu]; [reflexivity|].
    destruct (to_spec_Fin a u) as (m & e & -> & _); [assumption|lia|]. reflexivity.
  - (* finite by infinity *)
    cbn [div]. destruct Hx as [Hx _]. pose proof Hx as [Hu0 _].
    destruct (Z.eq_dec u 0) as [->|Nu]; [reflexivity|].
    destruct (to_spec_Fin a u) as (m & e & -> & _); [assumption|lia|]. reflexivity.
  - (* finite by finite *)
    destruct Hx as [Hx Hxt]. destruct Hy as [Hy Hyt].
    pose proof Hx as [Hu0 _]. pose proof Hy as [Hv0 _]. cbn [div].
    destruct (Z.eqb_spec v 0) as [->|Nv].
    { rewrite to_spec_zero.
      destruct (Z.eqb_spec u 0) as [->|Nu]; [reflexivity|].
      destruct (to_spec_Fin a u) as (m & e & -> & _); [assumption|lia|]. reflexivity. }
    destruct (to_spec_Fin b v Hy ltac:(lia)) as (my & ey & -> & Ev & Ey & Uy & Ly).
    destruct (Z.eq_dec u 0) as [->|Nu].
    { rewrite Z.mul_0_l, round_zero by lia. reflexivity. }
    destruct (to_spec_Fin a u Hx ltac:(lia)) as (mx & ex & -> & Eu & Ex & Ux & Lx).
    cbn [SFdiv].
    pose proof (SFdiv_core_binary_eq (Zpos mx) ex (Zpos my) ey eq_refl eq_refl) as Ec.
    cbv zeta in Ec. rewrite Ec. clear Ec. symmetry.
    pose proof (shift_nonneg u) as Su. pose proof (shift_nonneg v) as Sv.
    assert (0 < one_u) as P1 by apply one_u_pos.
    set (x := Zdigits2 (Zpos mx) + ex - (Zdigits2 (Zpos my) + ey)).
    set (e' := Z.min (fexp 24 128 x) (ex - ey)).
    set (k := e' + 149).
    set (a' := Z.max 0 (- k)). set (b' := Z.max 0 k).
    set (c := 2 ^ (ey + 149 + b')).
    assert (0 < c) as Pc by (apply Z.pow_pos_nonneg; lia).
    assert (u * one_u * 2 ^ a' = c * (Zpos mx * 2 ^ (ex - ey - e'))) as Esn.
    { rewrite Eu. unfold one_u, c.
      rewrite <- !Z.mul_assoc, <- !Z.pow_add_r by lia.
      rewrite (Z.mul_comm (2 ^ _) (Z.pos mx * _)), <- Z.mul_assoc, <- Z.pow_add_r by lia.
      f_equal. f_equal. lia. }
    assert (v * 2 ^ b' = c * Zpos my) as Esd.
    { rewrite Ev. unfold c. rewrite (Z.pow_add_r 2 (ey + 149) b') by lia. ring. }
    apply binary_round_aux_round; fold k; fold a' b'; [nia|lia|..].
    + rewrite Esn, Esd. rewrite Z.div_mul_cancel_l by lia. reflexivity.
    + rewrite Esn, Esd. rewrite loc_of_scale by lia. reflexivity.
    + (* the exponent chosen for the quotient is not above the canonical one *)
      assert (k <= Z.max (x + 125) 0) as Hk by (unfold k, e'; rewrite fexp_eq; lia).
      destruct (Z_le_gt_dec (x + 125) 0) as [|Xpos];
        [pose proof (shift_nonneg (u * one_u / v)); lia|].
      assert (2 ^ (x + 148) <= u * one_u / v) as HF.
      { apply Z.div_le_lower_bound; [lia|].
        rewrite Eu, Ev. unfold x. rewrite !Zdigits2_log2 by lia.
        pose proof (Z.log2_spec (Zpos mx) ltac:(lia)) as [Lm _].
        pose proof (Z.log2_spec (Zpos my) ltac:(lia)) as [_ Um].
        set (lx := Z.log2 (Zpos mx)) in *. set (ly := Z.log2 (Zpos my)) in *.
        assert (0 <= lx) by apply Z.log2_nonneg.
        assert (0 <= ly) by apply Z.log2_nonneg.
        unfold one_u.
        assert (Zpos my * 2 ^ (ey + 149) * 2 ^ (lx + 1 + ex - (ly + 1 + ey) + 148)
                <= 2 ^ (ly + 1) * 2 ^ (ey + 149) * 2 ^ (lx + 1 + ex - (ly + 1 + ey) + 148)).
        { apply Z.mul_le_mono_nonneg_r; [apply Z.pow_nonneg; lia|].
          apply Z.mul_le_mono_nonneg_r; [apply Z.pow_nonneg; lia|]. lia. }
        assert (2 ^ lx * 2 ^ (ex + 149) * 2 ^ 149 <= Zpos mx * 2 ^ (ex + 149) * 2 ^ 149).
        { apply Z.mul_le_mono_nonneg_r; [apply Z.pow_nonneg; lia|].
          apply Z.mul_le_mono_nonneg_r; [apply Z.pow_nonneg; lia|]. lia. }
        assert (2 ^ (ly + 1) * 2 ^ (ey + 149) * 2 ^ (lx + 1 + ex - (ly + 1 + ey) + 148)
                = 2 ^ lx * 2 ^ (ex + 149) * 2 ^ 149) as EE.
        { unfold x in Xpos. rewrite !Zdigits2_log2 in Xpos by lia. fold lx ly in Xpos.
          rewrite <- !Z.pow_add_r by lia. f_equal. lia. }
        lia. }
      assert (x + 148 <= Z.log2 (u * one_u / v)).
      { apply Z.log2_le_pow2; [|exact HF].
        assert (0 < 2 ^ (x + 148)) by (apply Z.pow_pos_nonneg; lia). lia. }
      unfold shift. lia.
Qed.

Lemma iter_xO m d : Zpos (Pos.iter xO m d) = Zpos m * 2 ^ Zpos d.
Proof.
  induction d as [|d IH] using Pos.peano_ind.
  - cbn [Pos.iter]. rewrite Pos2Z.inj_xO. change (2 ^ 1) with 2. lia.
  - rewrite Pos.iter_succ, Pos2Z.inj_xO, IH, Pos2Z.inj_succ, Z.pow_succ_r by lia. ring.
Qed.

Lemma shl_align_eq m e e' :
  Zpos (fst (shl_align m e e')) = Zpos m * 2 ^ (e - Z.min e e') /\
  snd (shl_align m e e') = Z.min e e'.
Proof.
  unfold shl_align. destruct (e' - e) as [|d|d] eqn:E; cbn [fst snd].
  - replace (Z.min e e') with e by lia. rewrite Z.sub_diag. cbn. lia.
  - replace (Z.min e e') with e by lia. rewrite Z.sub_diag. cbn. lia.
  - replace (Z.min e e') with e' by lia. rewrite iter_xO.
    replace (e - e') with (Zpos d) by lia. auto.
Qed.

(** [binary_round] computes [round] on a magnitude given by a mantissa
    and an exponent. *)
Lemma binary_round_round s m e :
  0 <= e + 149 ->
  binary_round 24 128 s m e = to_spec (round s (Zpos m * 2 ^ (e + 149)) 1).
Proof.
  intros He. unfold binary_round.
  destruct (shl_align_eq m e (fexp 24 128 (Zpos (digits2_pos m) + e))) as [Em Ee].
  destruct (shl_align m e _) as [mz ez]. cbn [fst snd] in Em, Ee.
  rewrite digits2_pos_log2, fexp_eq in Em, Ee.
  set (N := Zpos m * 2 ^ (e + 149)).
  assert (0 < 2 ^ (e + 149)) as P by (apply Z.pow_pos_nonneg; lia).
  assert (Z.log2 N = Z.log2 (Zpos m) + (e + 149)) as LN
    by (unfold N; rewrite Z.log2_mul_pow2 by lia; lia).
  assert (0 <= Z.log2 (Zpos m)) by apply Z.log2_nonneg.
  assert (0 <= ez + 149) as Hk by lia.
  assert (N = Zpos mz * 2 ^ (ez + 149)) as EN.
  { unfold N. rewrite Em, <- Ee, <- Z.mul_assoc, <- Z.pow_add_r by lia.
    f_equal. f_equal. lia. }
  assert (0 < 2 ^ (ez + 149)) as P' by (apply Z.pow_pos_nonneg; lia).
  apply binary_round_aux_round; [lia|lia|..].
  - rewrite (Z.max_l 0 (- (ez + 149))), (Z.max_r 0 (ez + 149)) by lia.
    rewrite Z.pow_0_r, !Z.mul_1_r, Z.mul_1_l, EN.
    rewrite Z.div_mul by lia. reflexivity.
  - rewrite (Z.max_l 0 (- (ez + 149))), (Z.max_r 0 (ez + 149)) by lia.
    rewrite Z.pow_0_r, !Z.mul_1_r, Z.mul_1_l, EN. symmetry.
    apply loc_of_exact; [lia|]. apply Z.mod_mul. lia.
  - rewrite Z.div_1_r. unfold shift. lia.
Qed.

Lemma binary_normalize_round z e :
  0 <= e + 149 ->
  binary_normalize 24 128 z e false
  = to_spec (if z =? 0 then Fin false 0
             else round (z <? 0) (Z.abs z * 2 ^ (e + 149)) 1).
Proof.
  intros He. destruct z as [|p|p]; cbn [binary_normalize Z.eqb Z.ltb Z.compare Z.abs].
  - reflexivity.
  - apply binary_round_round. exact He.
  - apply binary_round_round. exact He.
Qed.

Theorem of_Z_agrees (n : Z) :
  to_spec (of_Z n) = binary_normalize 24 128 n 0 false.
Proof.
  rewrite binary_normalize_round by lia. unfold of_Z.
  destruct (Z.eqb_spec n 0) as [->|]; reflexivity.
Qed.

Lemma round_valid s u : representable u -> u < top_u -> round s u 1 = Fin s u.
Proof.
  intros Hu Ht. pose proof (round_mag_exact u 1 Hu ltac:(lia)) as E.
  rewrite Z.mul_1_r in E. rewrite round_Fin; rewrite E; [reflexivity|exact Ht].
Qed.

Theorem add_agrees (x y : F32.t) :
  valid x -> valid y ->
  to_spec (add x y) = SFadd 24 128 (to_spec x) (to_spec y).
Proof.
  intros Hx Hy.
  destruct x as [|a|a u], y as [|b|b v]; try reflexivity.
  - destruct a, b; reflexivity.
  - (* infinity plus finite *)
    cbn [add]. destruct Hy as [Hy _]. pose proof Hy as [Hv0 _].
    destruct (Z.eq_dec v 0) as [->|Nv]; [reflexivity|].
    destruct (to_spec_Fin b v) as (m & e & -> & _); [assumption|lia|]. reflexivity.
  - (* finite plus NaN *)
    cbn [add]. destruct Hx as [Hx _]. pose proof Hx as [Hu0 _].
    destruct (Z.eq_dec u 0) as [->|Nu]; [reflexivity|].
    destruct (to_spec_Fin a u) as (m & e & -> & _); [assumption|lia|]. reflexivity.
  - (* finite plus infinity *)
    cbn [add]. destruct Hx as [Hx _]. pose proof Hx as [Hu0 _].
    destruct (Z.eq_dec u 0) as [->|Nu]; [reflexivity|].
    destruct (to_spec_Fin a u) as (m & e & -> & _); [assumption|lia|]. reflexivity.
  - (* finite plus finite *)
    destruct Hx as [Hx Hxt]. destruct Hy as [Hy Hyt].
    pose proof Hx as [Hu0 _]. pose proof Hy as [Hv0 _]. cbn [add].
    destruct (Z.eq_dec u 0) as [->|Nu]; [destruct (Z.eq_dec v 0) as [->|Nv]|].
    + destruct a, b; reflexivity.
    + (* zero plus a number *)
      assert (signed a 0 + signed b v = signed b v) as -> by (destruct a; cbn; lia).
      assert ((signed b v =? 0) = false) as -> by (destruct b; cbn; lia).
      assert ((signed b v <? 0) = b) as -> by (destruct b; cbn; lia).
      assert (Z.abs (signed b v) = v) as -> by (destruct b; cbn; lia).
      rewrite round_valid by assumption. rewrite to_spec_zero.
      destruct (to_spec_Fin b v) as (m & e & -> & _); [assumption|lia|]. reflexivity.
    + destruct (Z.eq_dec v 0) as [->|Nv].
      { (* a number plus zero *)
        assert (signed a u + signed b 0 = signed a u) as -> by (destruct b; cbn; lia).
        assert ((signed a u =? 0) = false) as -> by (destruct a; cbn; lia).
        assert ((signed a u <? 0) = a) as -> by (destruct a; cbn; lia).
        assert (Z.abs (signed a u) = u) as -> by (destruct a; cbn; lia).
        rewrite round_valid by assumption. rewrite to_spec_zero.
        destruct (to_spec_Fin a u) as (m & e & E & _); [assumption|lia|].
        rewrite E. reflexivity. }
      destruct (to_spec_Fin a u Hx ltac:(lia)) as (mx & ex & -> & Eu & Ex & Ux & Lx).
      destruct (to_spec_Fin b v Hy ltac:(lia)) as (my & ey & -> & Ev & Ey & Uy & Ly).
      cbn [SFadd].
      pose proof (shift_nonneg u) as Su. pose proof (shift_nonneg v) as Sv.
      set (ez := Z.min ex ey).
      destruct (shl_align_eq mx ex ez) as [Ax _]. destruct (shl_align_eq my ey ez) as [Ay _].
      rewrite Ax, Ay. replace (Z.min ex ez) with ez by (unfold ez; lia).
      replace (Z.min ey ez) with ez by (unfold ez; lia).
      set (zz := cond_Zopp a (Zpos mx * 2 ^ (ex - ez)) + cond_Zopp b (Zpos my * 2 ^ (ey - ez))).
      rewrite binary_normalize_round by (unfold ez; lia).
      assert (0 < 2 ^ (ez + 149)) as P by (apply Z.pow_pos_nonneg; unfold ez; lia).
      assert (signed a u + signed b v = zz * 2 ^ (ez + 149)) as Ez.
      { unfold zz. rewrite Eu, Ev.
        replace (ex + 149) with ((ex - ez) + (ez + 149)) at 1 by lia.
        replace (ey + 149) with ((ey - ez) + (ez + 149)) at 1 by lia.
        rewrite (Z.pow_add_r 2 (ex - ez) (ez + 149)) by (unfold ez; lia).
        rewrite (Z.pow_add_r 2 (ey - ez) (ez + 149)) by (unfold ez; lia).
        destruct a, b; cbn [signed cond_Zopp]; ring. }
      rewrite Ez.
      assert ((zz * 2 ^ (ez + 149) =? 0) = (zz =? 0)) as ->.
      { destruct (Z.eqb_spec zz 0) as [E0|E0], (Z.eqb_spec (zz * 2 ^ (ez + 149)) 0) as [E1|E1];
          try reflexivity.
        - rewrite E0 in E1. lia.
        - apply Z.mul_eq_0 in E1. lia. }
      assert ((zz * 2 ^ (ez + 149) <? 0) = (zz <? 0)) as ->.
      { destruct (Z.ltb_spec zz 0) as [E0|E0], (Z.ltb_spec (zz * 2 ^ (ez + 149)) 0) as [E1|E1];
          try reflexivity.
        - pose proof (Z.mul_neg_pos zz (2 ^ (ez + 149)) E0 P). lia.
        - pose proof (Z.mul_nonneg_nonneg zz (2 ^ (ez + 149)) E0 ltac:(lia)). lia. }
      rewrite Z.abs_mul, (Z.abs_eq (2 ^ (ez + 149))) by lia.
      destruct (Z.eqb_spec zz 0) as [Z0|NZ]; [|reflexivity].
      (* an exact zero sum of non-zero numbers: the signs differ *)
      assert (a && b = false) as ->; [|reflexivity].
      assert (0 < Zpos mx * 2 ^ (ex - ez)) by (apply Z.mul_pos_pos; [lia|apply Z.pow_pos_nonneg; unfold ez; lia]).
      assert (0 < Zpos my * 2 ^ (ey - ez)) by (apply Z.mul_pos_pos; [lia|apply Z.pow_pos_nonneg; unfold ez; lia]).
      unfold zz in Z0. destruct a, b; cbn [cond_Zopp] in Z0; try reflexivity; lia.
Qed.

(** The operations stay within the binary32 numbers. *)
Lemma valid_round s n d : 0 <= n -> 0 < d -> valid (round s n d).
Proof.
  intros Hn Hd. unfold round. destruct (Z.leb_spec top_u (round_mag n d)).
  - exact I.
  - split; [apply round_mag_representable; assumption|assumption].
Qed.

Lemma valid_zero s : valid (Fin s 0).
Proof. split; [apply representable_small; lia|reflexivity]. Qed.

Lemma valid_of_Z n : valid (of_Z n).
Proof. apply valid_round; [pose proof one_u_pos; nia|lia]. Qed.

Lemma valid_add x y : valid x -> valid y -> valid (add x y).
Proof.
  intros Hx Hy. destruct x as [|a|a u], y as [|b|b v]; cbn [add]; try exact I; try assumption.
  - destruct (eqb a b); exact I.
  - destruct (signed a u + signed b v =? 0); [apply valid_zero|apply valid_round; lia].
Qed.

Lemma valid_mul x y : valid x -> valid y -> valid (mul x y).
Proof.
  intros Hx Hy. destruct x as [|a|a u], y as [|b|b v]; cbn [mul]; try exact I.
  - destruct (v =? 0); exact I.
  - destruct (u =? 0); exact I.
  - destruct Hx as [[Hu _] _], Hy as [[Hv _] _].
    apply valid_round; [nia|apply one_u_pos].
Qed.

Lemma valid_div x y : valid x -> valid y -> valid (div x y).
Proof.
  intros Hx Hy. destruct x as [|a|a u], y as [|b|b v]; cbn [div]; try exact I.
  - apply valid_zero.
  - destruct Hx as [[Hu _] _], Hy as [[Hv _] _].
    destruct (Z.eqb_spec v 0); [destruct (u =? 0); exact I|].
    apply valid_round; [pose proof one_u_pos; nia|lia].
Qed.

(** A binary32 number of the model is a well-formed float of the Standard
    Library's specification. *)
Lemma valid_to_spec x : valid x -> valid_binary 24 128 (to_spec x) = true.
Proof.
  destruct x as [|a|a u]; try reflexivity. intros [Hu Ht].
  pose proof Hu as [Hu0 _].
  destruct (Z.eq_dec u 0) as [->|Nu]; [reflexivity|].
  destruct (to_spec_Fin a u Hu ltac:(lia)) as (m & e & -> & Eu & Ee & Um & Lm).
  pose proof (shift_nonneg u) as Su.
  cbn [valid_binary]. unfold bounded, canonical_mantissa.
  rewrite digits2_pos_log2, fexp_eq.
  assert (0 <= Z.log2 (Zpos m)) as L0 by apply Z.log2_nonneg.
  assert (Z.log2 (Zpos m) < 24) as L1 by (apply Z.log2_lt_pow2; lia).
  assert (0 < 2 ^ (e + 149)) as P by (apply Z.pow_pos_nonneg; lia).
  apply andb_true_intro. split.
  - apply Z.eqb_eq.
    destruct (Z.eq_dec (shift u) 0) as [S0|S1]; [lia|].
    assert (2 ^ 23 <= Zpos m) as Lm' by (apply Lm; lia).
    apply Z.log2_le_pow2 in Lm'; lia.
  - apply Z.leb_le.
    destruct (Z.eq_dec (shift u) 0) as [S0|S1]; [lia|].
    assert (2 ^ 23 <= Zpos m) as Lm' by (apply Lm; lia).
    destruct (Z.le_gt_cases e 104) as [|G]; [lia|].
    assert (2 ^ 254 <= 2 ^ (e + 149)) by (apply Z.pow_le_mono_r; lia).
    unfold top_u in Ht. change (2 ^ 277) with (2 ^ 23 * 2 ^ 254) in Ht. nia.
Qed.

(** The two float expressions of the source, evaluated in the model, are
    the ones evaluated by the Standard Library's specification. *)
Lemma valid_half : valid half.
Proof.
  pose proof (representable_half 1 ltac:(lia)) as H. rewrite Z.mul_1_l in H.
  split; [exact H|reflexivity].
Qed.

Lemma of_Z_spec n : to_spec (of_Z n) = sf_of_Z n.
Proof. apply of_Z_agrees. Qed.

Lemma height_expr_agrees w sw sh :
  to_spec (div (mul (mul half (of_Z w)) (of_Z sh)) (of_Z sw)) = sf_height w sw sh.
Proof.
  unfold sf_height.
  rewrite div_agrees, !mul_agrees, !of_Z_spec;
    repeat first [reflexivity | apply valid_of_Z | apply valid_half | apply valid_mul].
Qed.

Lemma column_expr_agrees sw w x :
  to_spec (mul (of_Z x) (div (of_Z sw) (of_Z w))) = sf_column sw w x.
Proof.
  unfold sf_column.
  rewrite mul_agrees, div_agrees, !of_Z_spec;
    repeat first [reflexivity | apply valid_of_Z | apply valid_div].
Qed.

(** In the Standard Library's arithmetic too, one half plus the height
    formula for 277 columns over 60040 by 60907 pixels is exactly 141, and
    the column product for [x = 7], 62 source and 14 destination columns
    lies in [[30, 31)]. *)
Lemma counterexamples_in_SpecFloat :
  SFadd 24 128 (to_spec half) (sf_height 277 60040 60907) = sf_of_Z 141 /\
  SFleb (sf_of_Z 30) (sf_column 62 14 7) = true /\
  SFltb (sf_column 62 14 7) (sf_of_Z 31) = true.
Proof. vm_compute. repeat split. Qed.

End F32Agree.

(** ** Loops and array accesses *)

Lemma bind_Ok {A B} (a : A) (k : A -> result B) : Ok a ≫= k = k a.
Proof. reflexivity. Qed.

Lemma for_loop_inv {St} (I : Z -> St -> Prop) n x (body : Z -> St -> result St) s :
  I x s ->
  (forall k s, x <= k < x + Z.of_nat n -> I k s -> exists s', body k s = Ok s' /\ I (k + 1) s') ->
  exists s', for_loop n x body s = Ok s' /\ I (x + Z.of_nat n) s'.
Proof.
  revert x s. induction n as [|n IH]; intros x s H0 Hstep.
  - exists s. split; [reflexivity|]. replace (x + Z.of_nat 0) with x by lia. exact H0.
  - destruct (Hstep x s ltac:(lia) H0) as (s1 & E1 & H1).
    destruct (IH (x + 1) s1 H1) as (s2 & E2 & H2).
    { intros k s' Hk. apply Hstep. lia. }
    exists s2. split.
    + simpl. rewrite E1. exact E2.
    + replace (x + Z.of_nat (S n)) with (x + 1 + Z.of_nat n) by lia. exact H2.
Qed.

Lemma get_Some {A} (l : list A) (i : Z) (v : A) :
  0 <= i -> l !! Z.to_nat i = Some v -> get l i = Ok v.
Proof.
  intros Hi E. unfold get. destruct (Z.ltb_spec i 0); [lia|]. rewrite E. reflexivity.
Qed.

Lemma get_Ok {A} (l : list A) (i : Z) (v : A) :
  get l i = Ok v -> 0 <= i /\ l !! Z.to_nat i = Some v.
Proof.
  unfold get. destruct (Z.ltb_spec i 0); [discriminate|].
  destruct (l !! Z.to_nat i); simpl; intros [=]; subst; auto.
Qed.

Lemma set_Ok_iff {A} (l : list A) (i : Z) (v : A) :
  0 <= i < Z.of_nat (length l) -> set l i v = Ok (<[Z.to_nat i := v]> l).
Proof.
  intros Hi. unfold set.
  destruct (Z.leb_spec 0 i); [|lia]. destruct (Z.ltb_spec i (Z.of_nat (length l))); [|lia].
  reflexivity.
Qed.

Lemma int_mul_Ok a b :
  F32.INT_MIN <= a * b <= F32.INT_MAX -> int_mul a b = Ok (a * b).
Proof.
  intros H. unfold int_mul. cbv zeta.
  destruct (Z.leb_spec F32.INT_MIN (a * b)); [|lia].
  destruct (Z.leb_spec (a * b) F32.INT_MAX); [|lia]. reflexivity.
Qed.


(** ** Normalisation *)

Lemma normalize_cell_step (i : Image.t) (y x : Z) (p : list F32.t) :
  grid_ok i -> 0 <= y < Image.height i -> 0 <= x < Image.width i ->
  normalized_upto i (y * Image.width i + x) p ->
  exists p',
    (n ← get (Image.yadds i) y;
     if negb (n =? 0) then
       v ← get p (y * Image.width i + x);
       set p (y * Image.width i + x) (F32.div v (F32.of_Z n))
     else Ok p) = Ok p' /\
    normalized_upto i (y * Image.width i + (x + 1)) p'.
Proof.
  intros (Hw & Hh & Hp & Ha) Hy Hx [Hlen Hcells].
  set (w := Image.width i) in *.
  set (m := y * w + x) in *.
  assert (0 <= m < w * Image.height i) as Hm by (unfold m; nia).
  destruct (lookup_lt_is_Some_2 (Image.yadds i) (Z.to_nat y) ltac:(lia)) as [n En].
  destruct (lookup_lt_is_Some_2 (Image.pixel i) (Z.to_nat m) ltac:(lia)) as [v Ev].
  assert (p !! Z.to_nat m = Some v) as Epv.
  { rewrite Hcells. destruct (Z.ltb_spec (Z.of_nat (Z.to_nat m)) m); [lia|exact Ev]. }
  assert (Z.of_nat (Z.to_nat m) / w = y) as Hrow.
  { rewrite Z2Nat.id by lia. unfold m. replace (y * w + x) with (x + y * w) by lia.
    rewrite Z.div_add by lia. rewrite Z.div_small by lia. lia. }
  assert (normalized_cell i (Z.to_nat m) = Some (if n =? 0 then v else F32.div v (F32.of_Z n))) as Enc.
  { unfold normalized_cell. fold w. rewrite Hrow, Ev, En. reflexivity. }
  rewrite (get_Some (Image.yadds i) y n ltac:(lia) En), bind_Ok.
  replace (y * w + (x + 1)) with (m + 1) by (unfold m; lia).
  destruct (Z.eqb_spec n 0) as [E0|N0]; simpl negb; cbv iota.
  - exists p. split; [reflexivity|]. split; [exact Hlen|].
    intros k. rewrite Hcells.
    destruct (Z.ltb_spec (Z.of_nat k) m), (Z.ltb_spec (Z.of_nat k) (m + 1)); try lia; try reflexivity.
    assert (k = Z.to_nat m) as -> by lia. rewrite Enc, Ev. reflexivity.
  - rewrite (get_Some p m v ltac:(lia) Epv), bind_Ok.
    rewrite set_Ok_iff by lia.
    eexists. split; [reflexivity|]. split; [rewrite length_insert; exact Hlen|].
    intros k. destruct (Nat.eq_dec k (Z.to_nat m)) as [->|Hk].
    + rewrite list_lookup_insert_eq by lia.
      destruct (Z.ltb_spec (Z.of_nat (Z.to_nat m)) (m + 1)); [|lia].
      rewrite Enc. reflexivity.
    + rewrite list_lookup_insert_ne by lia. rewrite Hcells.
      destruct (Z.ltb_spec (Z.of_nat k) m), (Z.ltb_spec (Z.of_nat k) (m + 1)); try lia; reflexivity.
Qed.

Lemma normalize_pixels (i : Image.t) :
  grid_ok i ->
  exists p, normalize i = Ok (Image.set_pixel i p) /\
            normalized_upto i (Image.width i * Image.height i) p.
Proof.
  intros Hi. pose proof Hi as (Hw & Hh & Hp & Ha). unfold normalize.
  set (w := Image.width i) in *. set (h := Image.height i) in *.
  destruct (for_loop_inv (fun y p => normalized_upto i (y * w) p) (Z.to_nat h) 0
     (fun y p => for_loop (Z.to_nat w) 0
        (fun x p => n ← get (Image.yadds i) y;
           if negb (n =? 0) then v ← get p (y * w + x); set p (y * w + x) (F32.div v (F32.of_Z n))
           else Ok p) p)
     (Image.pixel i)) as (p & E & Hinv).
  - split; [reflexivity|]. intros k.
    destruct (Z.ltb_spec (Z.of_nat k) (0 * w)); [lia|reflexivity].
  - intros y p Hy Hinv.
    destruct (for_loop_inv (fun x p => normalized_upto i (y * w + x) p) (Z.to_nat w) 0
       (fun x p => n ← get (Image.yadds i) y;
           if negb (n =? 0) then v ← get p (y * w + x); set p (y * w + x) (F32.div v (F32.of_Z n))
           else Ok p) p) as (p' & E' & Hinv').
    + replace (y * w + 0) with (y * w) by lia. exact Hinv.
    + intros x q Hx Hq. apply normalize_cell_step; auto; lia.
    + exists p'. split; [exact E'|].
      replace ((y + 1) * w) with (y * w + (0 + Z.of_nat (Z.to_nat w))) by lia. exact Hinv'.
  - exists p. rewrite E. split; [reflexivity|].
    replace (w * h) with ((0 + Z.of_nat (Z.to_nat h)) * w) by lia. exact Hinv.
Qed.

(** C5.  One pass of [normalize] over a well-sized grid succeeds and
    divides every cell of a row whose contribution count is not zero by
    that count, leaving the rows with a zero count as they are; the pass
    is not idempotent: on the grid [twice_hit], whose row has count 2, a
    second pass changes the result of the first. *)
Theorem normalize_divides_by_row_count (i : Image.t) (Hi : grid_ok i) :
  (exists p,
     normalize i = Ok (Image.set_pixel i p) /\
     length p = length (Image.pixel i) /\
     forall r x n v,
       0 <= r < Image.height i -> 0 <= x < Image.width i ->
       Image.yadds i !! Z.to_nat r = Some n ->
       Image.pixel i !! Z.to_nat (r * Image.width i + x) = Some v ->
       p !! Z.to_nat (r * Image.width i + x)
       = Some (if n =? 0 then v else F32.div v (F32.of_Z n))) /\
  (grid_ok twice_hit /\ Image.yadds twice_hit !! 0%nat = Some 2 /\
   exists g1 g2,
     normalize twice_hit = Ok g1 /\ normalize g1 = Ok g2 /\ g2 <> g1).
Proof.
  split.
  - destruct (normalize_pixels i Hi) as (p & E & Hlen & Hcells).
    exists p. split; [exact E|]. split; [exact Hlen|].
    intros r x n v Hr Hx En Ev. destruct Hi as (Hw & Hh & Hp & Ha).
    rewrite Hcells.
    destruct (Z.ltb_spec (Z.of_nat (Z.to_nat (r * Image.width i + x)))
                (Image.width i * Image.height i)); [|nia].
    unfold normalized_cell. rewrite Ev.
    rewrite Z2Nat.id by nia.
    replace (r * Image.width i + x) with (x + r * Image.width i) by lia.
    rewrite Z.div_add by lia. rewrite Z.div_small by lia.
    rewrite Z.add_0_l, En. reflexivity.
  - split; [unfold grid_ok; simpl; lia|]. split; [reflexivity|].
    eexists. eexists. split; [vm_compute; reflexivity|].
    split; [vm_compute; reflexivity|]. discriminate.
Qed.

Lemma normalize_divides_by_row_count_witness :
  exists p, normalize twice_hit = Ok (Image.set_pixel twice_hit p) /\
            length p = 1%nat.
Proof.
  destruct (normalize_divides_by_row_count twice_hit) as [(p & E & L & _) _].
  - unfold grid_ok. simpl. lia.
  - exists p. split; [exact E|exact L].
Defined.

(** ** The driver loop *)

Lemma result_bind_assoc {A B C} (m : result A) (f : A -> result B) (g : B -> result C) :
  (y ← (x ← m; f x); g y) = (x ← m; y ← f x; g y).
Proof. destruct m; reflexivity. Qed.




(** ** Option parsing and the aspect calculator *)

Lemma parse_loop_sizing args : forall files o files' o',
  parse_loop args files o = Ok (inr (files', o')) ->
  sizing_state o' = fold_left sizing_step (sizing_args args) (sizing_state o) /\
  ascii_palette o' = ascii_palette o.
Proof.
  induction args as [|s args IH]; intros files o files' o' H.
  - inversion H; subst. split; reflexivity.
  - cbn [parse_loop] in H. unfold sizing_args. cbn [omap list_omap]. unfold sizing at 1.
    destruct (classify s) as [a| | |]; try discriminate H.
    cbn in H. fold (sizing_args args).
    destruct a; try discriminate H; cbn [fold_left];
      (apply IH in H; destruct H as [H1 H2]; rewrite H1, H2; split; reflexivity).
Qed.

Lemma calc_aspect_ratio_fixed fuel jw jh o :
  (auto_width o = 0 <-> auto_height o = 0) ->
  calc_aspect_ratio (S fuel) jw jh o = Ok o.
Proof.
  intros H. cbn [calc_aspect_ratio].
  destruct (Z.eqb_spec (auto_width o) 0) as [Ew|Nw], (Z.eqb_spec (auto_height o) 0) as [Eh|Nh];
    try tauto; cbn; rewrite ?Ew, ?Eh; cbn.
  - destruct (Z.eqb_spec (auto_width o) 0), (Z.eqb_spec (auto_height o) 0); try lia; reflexivity.
  - destruct (Z.eqb_spec (auto_width o) 0), (Z.eqb_spec (auto_height o) 0); try lia; reflexivity.
Qed.

Lemma while_loop_exit {St} fuel (cond : St -> bool) body (s : St) :
  cond s = false -> while_loop (S fuel) cond body s = Ok s.
Proof. intros H. cbn. rewrite H. reflexivity. Qed.

Lemma while_loop_Ok_exit {St} fuel (cond : St -> bool) body (s s' : St) :
  cond s = false -> while_loop fuel cond body s = Ok s' -> s' = s.
Proof. intros H. destruct fuel; cbn; [discriminate|]. rewrite H. congruence. Qed.

Lemma bind_Ok_inv {A B} (m : result A) (k : A -> result B) (b : B) :
  (x ← m; k x) = Ok b -> exists a, m = Ok a /\ k a = Ok b.
Proof. destruct m; cbn; try discriminate. eauto. Qed.

Lemma incr_Ok n m : incr n = Ok m -> m = n + 1.
Proof. unfold incr. destruct (n <? F32.INT_MAX); congruence. Qed.

(** In derive-width mode a returning call leaves a non-zero width that
    is the rounded formula at the final height. *)
Lemma calc_aspect_ratio_derive_width fuel : forall jw jh o o',
  auto_width o <> 0 -> auto_height o = 0 ->
  calc_aspect_ratio fuel jw jh o = Ok o' ->
  width o' <> 0 /\ ROUND (width_formula o' jw jh) = Ok (width o') /\
  height o <= height o' /\ auto_width o' = auto_width o /\
  auto_height o' = auto_height o.
Proof.
  induction fuel as [|fuel IH]; intros jw jh o o' Hw Hh H; [discriminate|].
  cbn [calc_aspect_ratio] in H.
  destruct (Z.eqb_spec (auto_width o) 0) as [|_]; [contradiction|].
  rewrite Hh in H. cbn [negb andb Z.eqb] in H.
  apply bind_Ok_inv in H as (o1 & H1 & H2).
  apply bind_Ok_inv in H1 as (w & Ew & Hloop).
  assert (width o1 <> 0 /\ ROUND (width_formula o1 jw jh) = Ok (width o1) /\
          height o <= height o1 /\ auto_width o1 = auto_width o /\
          auto_height o1 = auto_height o) as P.
  { destruct fuel as [|n]; [discriminate Hloop|]. cbn [while_loop] in Hloop.
    cbn [width set_width] in Hloop.
    destruct (Z.eqb_spec w 0) as [->|Nz].
    - apply bind_Ok_inv in Hloop as (o2 & Hbody & Hrest).
      apply bind_Ok_inv in Hbody as (h & Eh & Hcall).
      apply incr_Ok in Eh. cbn [height set_height] in Eh.
      apply IH in Hcall as (Q1 & Q2 & Q3 & Q4 & Q5); [|exact Hw|exact Hh].
      cbn [height set_height set_width auto_width auto_height] in *.
      apply while_loop_Ok_exit in Hrest; [|apply Z.eqb_neq; exact Q1].
      subst o1. repeat split; try assumption. lia.
    - injection Hloop as <-. cbn [width height auto_width auto_height set_width].
      repeat split; [exact Nz| |lia]. exact Ew. }
  destruct P as (P1 & P2 & P3 & P4 & P5).
  rewrite P4 in H2. destruct (Z.eqb_spec (auto_width o) 0); [contradiction|].
  cbn [andb] in H2. injection H2 as <-. repeat split; assumption.
Qed.

Lemma parse_loop_inl args : forall files o code msgs,
  parse_loop args files o = Ok (inl (code, msgs)) -> code = 0 \/ code = 1.
Proof.
  induction args as [|s args IH]; intros files o code msgs H; [discriminate|].
  cbn [parse_loop] in H. apply bind_Ok_inv in H as (a & _ & H).
  destruct a; try (eapply IH; exact H); try discriminate H;
    injection H as <- _; auto.
Qed.

(** What a successful [parse_options] did after the argument loop. *)
Lemma parse_options_success args o0 o msgs :
  parse_options args o0 = Ok (-1, o, msgs) ->
  exists files o1,
    parse_loop args 0 o0 = Ok (inr (files, o1)) /\
    o = (let o := if (auto_width o1 =? 1) && (auto_height o1 =? 1)
                  then set_auto_height o1 0 else o1 in
         if (auto_width o =? 2) && (auto_height o =? 1)
         then set_auto_height (set_auto_width o 0) 0 else o) /\
    ((width o <? 1) && (auto_width o =? 0)) || ((height o <? 1) && (auto_height o =? 0)) = false.
Proof.
  unfold parse_options. intros H. apply bind_Ok_inv in H as (r & Hloop & H).
  destruct r as [[code m]|[files o1]].
  - injection H as -> _ _. apply parse_loop_inl in Hloop. lia.
  - exists files, o1. split; [exact Hloop|].
    destruct (files =? 0); [discriminate H|]. cbv zeta in H.
    match type of H with (if ?c then _ else _) = _ => destruct c; [discriminate H|] end.
    match type of H with (if ?c then _ else _) = _ => destruct c eqn:V; [discriminate H|] end.
    injection H as <- _. split; [reflexivity|exact V].
Qed.

(** ** Quantisation *)

Import F32 F32Facts.

Lemma length_list_ascii_of_string s :
  length (list_ascii_of_string s) = String.length s.
Proof. induction s as [|c s IH]; simpl; [reflexivity|]. rewrite IH. reflexivity. Qed.

Lemma div_between t d k : 0 < d -> k * d <= t < (k + 1) * d -> t / d = k.
Proof.
  intros Hd [L U]. apply Z.le_antisymm.
  - apply Z.lt_succ_r. apply Z.div_lt_upper_bound; lia.
  - apply Z.div_le_lower_bound; lia.
Qed.

Lemma quantize_bounds chars u :
  1 <= chars < 2 ^ 23 -> 0 <= u <= one_u ->
  exists pos, ROUND (mul (of_Z chars) (Fin false u)) = Ok pos /\
              0 <= pos <= chars /\ (u = 0 -> pos = 0).
Proof.
  intros Hc Hu. pose proof one_u_pos as P1. pose proof one_u_eq as E1.
  rewrite of_Z_exact by lia. cbn [mul xorb].
  set (p := round_mag (chars * one_u * u) one_u).
  assert (0 <= p <= chars * one_u) as Hp.
  { split; [apply round_mag_nonneg; nia|].
    apply round_mag_le; [nia|lia|apply representable_scaled; lia|nia]. }
  rewrite round_Fin by (fold p; rewrite top_u_eq; nia). fold p.
  unfold ROUND, half. cbn [add signed].
  destruct (Z.eqb_spec (2 ^ 148 + p) 0) as [|_]; [lia|].
  destruct (Z.ltb_spec (2 ^ 148 + p) 0) as [|_]; [lia|].
  rewrite Z.abs_eq by lia.
  set (t := round_mag (2 ^ 148 + p) 1).
  assert (2 ^ 148 <= t <= (2 * chars + 1) * 2 ^ 148) as Ht.
  { split.
    - apply round_mag_ge; [lia|apply (representable_half 1); lia|lia].
    - apply round_mag_le; [lia|lia|apply representable_half; lia|lia]. }
  rewrite round_Fin by (fold t; rewrite top_u_eq; nia). fold t.
  cbn [to_int signed].
  assert (0 <= t / one_u <= chars) as Hq.
  { split; [apply Z.div_pos; lia|].
    apply Z.lt_succ_r. apply Z.div_lt_upper_bound; lia. }
  destruct (Z.leb_spec INT_MIN (t / one_u)); [|unfold INT_MIN in *; lia].
  destruct (Z.leb_spec (t / one_u) INT_MAX); [|unfold INT_MAX in *; lia].
  exists (t / one_u). split; [reflexivity|]. split; [exact Hq|].
  intros ->. unfold t, p. rewrite Z.mul_0_r.
  replace (round_mag 0 one_u) with 0
    by (symmetry; apply (round_mag_exact 0 one_u); [apply representable_small; lia|lia]).
  rewrite Z.add_0_r.
  rewrite <- (Z.mul_1_r (2 ^ 148)) at 1.
  rewrite (round_mag_exact (2 ^ 148) 1); [|apply (representable_half 1); lia|lia].
  apply Z.div_small. lia.
Qed.

Lemma palette_char_Some palette idx :
  0 <= idx < strlen palette -> exists c, palette_char palette idx = Ok c.
Proof.
  intros H. unfold palette_char, get, strlen in *.
  destruct (Z.ltb_spec idx 0); [lia|].
  destruct (lookup_lt_is_Some_2 (list_ascii_of_string palette) (Z.to_nat idx)) as [c Ec].
  { rewrite length_list_ascii_of_string. lia. }
  exists c. rewrite Ec. reflexivity.
Qed.





(** ** Derived height *)


(** A product that is a binary32 number is computed exactly. *)
Lemma mul_exact u v c :
  representable c -> u * v = c * one_u -> c < top_u ->
  mul (Fin false u) (Fin false v) = Fin false c.
Proof.
  intros Hc E Ht. cbn [mul xorb]. rewrite E.
  rewrite round_Fin; rewrite round_mag_exact; auto using one_u_pos.
Qed.

Lemma top_u_big m e : 0 <= m < 2 ^ 24 -> 0 <= e <= 149 -> m * 2 ^ e < top_u.
Proof.
  intros Hm He. rewrite top_u_eq. unfold one_u.
  assert (2 ^ e <= 2 ^ 149) by (apply Z.pow_le_mono_r; lia).
  assert (0 < 2 ^ e) by (apply Z.pow_pos_nonneg; lia).
  assert (0 < 2 ^ 149) by (apply Z.pow_pos_nonneg; lia).
  assert (2 ^ 24 <= 2 ^ 128) by (apply Z.pow_le_mono_r; lia).
  nia.
Qed.

(** The core of the derive-height computation, in units of [2^-149]:
    rounding the quotient and adding one half lands in the unit interval
    of [round_half_up]. *)
Lemma half_up_units (A sw q t : Z) :
  1 <= A -> 1 <= sw -> 2 * A + sw < 2 ^ 24 ->
  q = round_mag (A * 2 ^ 148 * one_u) (sw * one_u) ->
  t = round_mag (2 ^ 148 + q) 1 ->
  let K := round_half_up A (2 * sw) in
  K * one_u <= t < (K + 1) * one_u.
Proof.
  intros HA Hsw Hb Hq Ht K.
  pose proof one_u_pos as P1. pose proof one_u_eq as E1.
  assert (0 < 2 ^ 148) as PP by (apply Z.pow_pos_nonneg; lia).
  set (P := 2 ^ 148) in *.
  assert (2 ^ 47 <= P) as Pbig by (unfold P; apply Z.pow_le_mono_r; lia).
  (* K is the integer with 2 sw K <= A + sw < 2 sw (K + 1) *)
  assert (2 * sw * K <= A + sw < 2 * sw * (K + 1)) as HK.
  { unfold K, round_half_up.
    replace (2 * A + 2 * sw) with (2 * (A + sw)) by lia.
    rewrite Z.div_mul_cancel_l by lia.
    pose proof (Z.mul_div_le (A + sw) (2 * sw) ltac:(lia)).
    pose proof (Z.mul_succ_div_gt (A + sw) (2 * sw) ltac:(lia)). lia. }
  assert (0 <= K) as HK0 by nia.
  assert (K < 2 ^ 23) as HKb by nia.
  assert (0 <= q) as Hq0 by (rewrite Hq; apply round_mag_nonneg; nia).
  split.
  - (* lower bound *)
    rewrite Ht. apply round_mag_ge; [lia| |].
    + rewrite E1. replace (K * (2 * P)) with (K * 2 ^ 149)
        by (unfold P; change (2 ^ 149) with (2 * 2 ^ 148); lia).
      apply representable_scaled; lia.
    + destruct (Z.eq_dec K 0) as [->|NK]; [lia|].
      assert ((2 * K - 1) * P <= q) as Hlow.
      { rewrite Hq. apply round_mag_ge; [nia|apply representable_scaled; lia|].
        fold P. nia. }
      lia.
  - (* upper bound: two relative errors of at most 2^-24 each *)
    pose proof (round_mag_error (A * P * one_u) (sw * one_u) ltac:(nia)) as Eq.
    rewrite <- Hq in Eq.
    assert (2 ^ 23 * (sw * one_u) <= A * P * one_u) as N1 by nia.
    specialize (Eq N1).
    pose proof (round_mag_error (P + q) 1 ltac:(lia) ltac:(lia)) as Et.
    rewrite <- Ht in Et.
    set (E := 2 ^ 24) in *.
    assert (0 < E) as PE by (unfold E; lia).
    assert (E * (q * sw) <= (E + 1) * (A * P)) as F1 by nia.
    assert (E * t <= (E + 1) * (P + q)) as F2 by lia.
    assert (A + sw + 1 <= 2 * sw * (K + 1)) as F3 by lia.
    assert (2 * A + sw + 1 <= E) as F4 by lia.
    (* compare E^2 sw t with E^2 sw (K+1) 2P *)
    assert (E * E * (sw * t) <= P * (E * (E + 1) * sw + (E + 1) * (E + 1) * A)) as G1.
    { assert (E * (sw * (E * t)) <= E * (sw * ((E + 1) * (P + q)))) as G by nia.
      assert ((E + 1) * (E * (q * sw)) <= (E + 1) * ((E + 1) * (A * P))) by nia.
      nia. }
    assert (P * (E * (E + 1) * sw + (E + 1) * (E + 1) * A) < P * (E * E * (A + sw + 1))) as G2.
    { apply Z.mul_lt_mono_pos_l; [lia|]. nia. }
    assert (P * (E * E * (A + sw + 1)) <= E * E * (sw * ((K + 1) * one_u))) as G3.
    { rewrite E1. fold P. nia. }
    assert (E * E * (sw * t) < E * E * (sw * ((K + 1) * one_u))) as G4 by lia.
    nia.
Qed.

Lemma ROUND_nonneg q :
  0 <= q -> round_mag (2 ^ 148 + q) 1 / one_u <= INT_MAX ->
  ROUND (Fin false q) = Ok (round_mag (2 ^ 148 + q) 1 / one_u).
Proof.
  intros Hq Hmax. unfold ROUND, half. cbn [add signed].
  assert (0 < 2 ^ 148) by (apply Z.pow_pos_nonneg; lia).
  destruct (Z.eqb_spec (2 ^ 148 + q) 0) as [|_]; [lia|].
  destruct (Z.ltb_spec (2 ^ 148 + q) 0) as [|_]; [lia|].
  rewrite Z.abs_eq by lia.
  set (t := round_mag (2 ^ 148 + q) 1) in *.
  assert (0 <= t) by (apply round_mag_nonneg; lia).
  assert (0 <= t / one_u) by (apply Z.div_pos; [lia|apply one_u_pos]).
  assert (t < top_u) as Htop.
  { rewrite top_u_eq. pose proof one_u_pos.
    pose proof (Z.mul_succ_div_gt t one_u ltac:(lia)). unfold INT_MAX in Hmax.
    assert (2 ^ 32 <= 2 ^ 128) by (apply Z.pow_le_mono_r; lia). nia. }
  rewrite round_Fin by exact Htop. fold t. cbn [to_int signed].
  destruct (Z.leb_spec INT_MIN (t / one_u)); [|unfold INT_MIN in *; lia].
  destruct (Z.leb_spec (t / one_u) INT_MAX); [|lia].
  reflexivity.
Qed.

(** In derive-height mode, within the range where single precision
    resolves the half-way points, the rounded formula is the exact
    rounding of [width * jpeg_height / (2 * jpeg_width)]. *)
Lemma ROUND_height_formula o sw sh :
  1 <= width o -> 1 <= sw -> 1 <= sh -> 2 * (width o * sh) + sw < 2 ^ 24 ->
  ROUND (height_formula o sw sh) = Ok (round_half_up (width o * sh) (2 * sw)).
Proof.
  intros Hw Hsw Hsh Hb. unfold height_formula, half.
  set (w := width o) in *.
  assert (1 <= w * sh) as HA by nia.
  pose proof one_u_pos as P1. pose proof one_u_eq as E1.
  assert (0 < 2 ^ 148) as PP by (apply Z.pow_pos_nonneg; lia).
  rewrite !of_Z_exact by nia.
  rewrite (mul_exact _ _ (w * 2 ^ 148));
    [|apply representable_scaled; nia|lia|apply top_u_big; nia].
  rewrite (mul_exact _ _ (w * sh * 2 ^ 148));
    [|apply representable_scaled; nia|lia|apply top_u_big; nia].
  cbn [div xorb]. destruct (Z.eqb_spec (sw * one_u) 0) as [|_]; [nia|].
  set (q := round_mag (w * sh * 2 ^ 148 * one_u) (sw * one_u)).
  destruct (half_up_units (w * sh) sw q (round_mag (2 ^ 148 + q) 1) HA Hsw Hb
              eq_refl eq_refl) as [L U].
  set (K := round_half_up (w * sh) (2 * sw)) in *.
  set (t := round_mag (2 ^ 148 + q) 1) in *.
  assert (t / one_u = K) as EK.
  { apply div_between; [exact P1|split; assumption]. }
  assert (0 <= K < 2 ^ 23) as HK.
  { unfold K, round_half_up. split; [apply Z.div_pos; lia|].
    apply Z.div_lt_upper_bound; lia. }
  assert (q < top_u) as Hq.
  { unfold q. eapply Z.le_lt_trans; [|apply (top_u_big (2 ^ 24 - 1) 149); lia].
    apply round_mag_le; [nia|nia|apply representable_scaled; lia|nia]. }
  rewrite round_Fin by exact Hq. fold q.
  rewrite ROUND_nonneg; fold t; rewrite ?EK; [reflexivity| |unfold INT_MAX; lia].
  unfold q. apply round_mag_nonneg; nia.
Qed.

Lemma round_half_up_pos A sw :
  1 <= sw -> sw <= A -> 1 <= round_half_up A (2 * sw).
Proof.
  intros Hsw H. unfold round_half_up. apply Z.div_le_lower_bound; lia.
Qed.

Lemma round_half_up_zero A sw :
  1 <= sw -> 0 <= A < sw -> round_half_up A (2 * sw) = 0.
Proof.
  intros Hsw H. unfold round_half_up. apply Z.div_small. lia.
Qed.

(** The least width whose height does not round to 0. *)
Lemma bumped_width_spec w sw sh :
  1 <= sh -> 1 <= sw ->
  (sw <= w * sh -> bumped_width w sw sh = w) /\
  (w * sh < sw -> bumped_width w sw sh = bumped_width (w + 1) sw sh /\
                  w < bumped_width w sw sh) /\
  sw <= bumped_width w sw sh * sh /\
  (w < bumped_width w sw sh -> bumped_width w sw sh * sh < sw + sh).
Proof.
  intros Hsh Hsw. unfold bumped_width.
  pose proof (Z.mul_div_le (sw + sh - 1) sh ltac:(lia)) as L.
  pose proof (Z.mul_succ_div_gt (sw + sh - 1) sh ltac:(lia)) as U.
  set (c := (sw + sh - 1) / sh) in *.
  repeat split; intros; nia.
Qed.

Lemma calc_aspect_ratio_derive_height (d : nat) : forall (o : options) (sw sh : Z) (fuel : nat),
  auto_width o = 0 -> auto_height o <> 0 ->
  1 <= width o -> 1 <= sw -> 1 <= sh ->
  bumped_width (width o) sw sh = width o + Z.of_nat d ->
  2 * ((width o + Z.of_nat d) * sh) + sw < 2 ^ 24 ->
  (d + 2 <= fuel)%nat ->
  calc_aspect_ratio fuel sw sh o
  = Ok (set_height (set_width o (width o + Z.of_nat d))
          (round_half_up ((width o + Z.of_nat d) * sh) (2 * sw))).
Proof.
  induction d as [|d IH]; intros o sw sh fuel Haw Hah Hw Hsw Hsh Hbw Hb Hfuel.
  - destruct fuel as [|fuel]; [lia|].
    destruct (bumped_width_spec (width o) sw sh Hsh Hsw) as (_ & B2 & B3 & _).
    assert (sw <= width o * sh) as Hge.
    { destruct (Z_le_gt_dec sw (width o * sh)); [assumption|].
      destruct B2 as [_ B2]; lia. }
    cbn [calc_aspect_ratio]. rewrite Haw. cbn [Z.eqb negb andb]. rewrite bind_Ok; cbv beta.
    rewrite Haw. destruct (Z.eqb_spec (auto_height o) 0) as [|_]; [contradiction|].
    cbn [Z.eqb negb andb]. fold (height_formula o sw sh).
    rewrite ROUND_height_formula by (try assumption; nia). rewrite bind_Ok; cbv beta.
    rewrite Z.add_0_r. destruct fuel as [|fuel]; [lia|].
    rewrite while_loop_exit; [reflexivity|].
    cbn [height set_height]. apply Z.eqb_neq.
    pose proof (round_half_up_pos (width o * sh) sw Hsw Hge). lia.
  - destruct fuel as [|fuel]; [lia|].
    destruct (bumped_width_spec (width o) sw sh Hsh Hsw) as (B1 & B2 & B3 & B4).
    assert (width o * sh < sw) as Hlt.
    { destruct (Z_lt_le_dec (width o * sh) sw); [assumption|]. rewrite B1 in Hbw; lia. }
    destruct (B2 Hlt) as [B2a B2b].
    cbn [calc_aspect_ratio]. rewrite Haw. cbn [Z.eqb negb andb]. rewrite bind_Ok; cbv beta.
    rewrite Haw. destruct (Z.eqb_spec (auto_height o) 0) as [|_]; [contradiction|].
    cbn [Z.eqb negb andb]. fold (height_formula o sw sh).
    rewrite ROUND_height_formula by (try assumption; nia). rewrite bind_Ok; cbv beta.
    rewrite round_half_up_zero by nia. destruct fuel as [|fuel]; [lia|].
    cbn [while_loop height set_height Z.eqb width].
    unfold incr. destruct (Z.ltb_spec (width o) INT_MAX) as [_|Hbig];
      [|unfold INT_MAX in Hbig; nia].
    rewrite bind_Ok; cbv beta.
    rewrite (IH (set_width (set_height o 0) (width o + 1)) sw sh (S fuel))
      by (cbn [width set_width set_height auto_width auto_height];
          try assumption; lia).
    rewrite bind_Ok; cbv beta.
    cbn [width set_width set_height].
    replace (width o + 1 + Z.of_nat d) with (width o + Z.of_nat (S d)) by lia.
    destruct fuel as [|fuel]; [lia|].
    rewrite while_loop_exit; [reflexivity|].
    cbn [height set_height]. apply Z.eqb_neq.
    pose proof (round_half_up_pos ((width o + Z.of_nat (S d)) * sh) sw Hsw
                  ltac:(rewrite <- Hbw; exact B3)). lia.
Qed.

(** C3 (as amended).  In derive-height mode, for a source of [sw] by
    [sh] pixels and a fixed width [w >= 1] with
    [2*w*sh + 3*sw + 2*sh <= 2^24], [calc_aspect_ratio] returns with the
    width [w' = max w (ceil (sw / sh))] -- [w] itself unless its height
    rounds to 0 -- and the height [floor (w'*sh / (2*sw) + 1/2)], which
    is at least 1. *)
Theorem derive_height_is_rounded_ratio (o : options) (sw sh : Z) (fuel : nat)
    (Hmode : auto_width o = 0 /\ auto_height o <> 0)
    (Hw : 1 <= width o) (Hsw : 1 <= sw) (Hsh : 1 <= sh)
    (Hrange : 2 * width o * sh + 3 * sw + 2 * sh <= 2 ^ 24)
    (Hfuel : (Z.to_nat sw + 2 <= fuel)%nat) :
  let w' := bumped_width (width o) sw sh in
  let h' := round_half_up (w' * sh) (2 * sw) in
  calc_aspect_ratio fuel sw sh o = Ok (set_height (set_width o w') h') /\
  1 <= h' /\
  (sw <= width o * sh -> w' = width o).
Proof.
  intros w' h'. destruct Hmode as [Haw Hah].
  destruct (bumped_width_spec (width o) sw sh Hsh Hsw) as (B1 & B2 & B3 & B4).
  fold w' in B1, B2, B3, B4.
  assert (width o <= w') as Hle by (unfold w', bumped_width; lia).
  assert (w' <= width o + sw) as Hup.
  { destruct (Z.eq_dec w' (width o)); [lia|]. specialize (B4 ltac:(lia)). nia. }
  assert (2 * (w' * sh) + sw < 2 ^ 24) as Hb.
  { destruct (Z.eq_dec w' (width o)) as [->|]; [lia|]. specialize (B4 ltac:(lia)). lia. }
  split; [|split].
  - pose proof (calc_aspect_ratio_derive_height (Z.to_nat (w' - width o)) o sw sh fuel
                  Haw Hah Hw Hsw Hsh) as H.
    rewrite Z2Nat.id in H by lia.
    replace (width o + (w' - width o)) with w' in H by lia.
    apply H; [reflexivity|exact Hb|lia].
  - apply round_half_up_pos; assumption.
  - exact B1.
Qed.

Lemma derive_height_is_rounded_ratio_witness :
  calc_aspect_ratio 102 100 50 main_options
  = Ok (set_height (set_width main_options 78) 20).
Proof.
  destruct (derive_height_is_rounded_ratio main_options 100 50 102)
    as (H & _ & _).
  - split; [reflexivity|discriminate].
  - vm_compute. discriminate.
  - lia.
  - lia.
  - vm_compute. discriminate.
  - lia.
  - exact H.
Defined.

(** C3 as stated fails: for a source of 60040 by 60907 pixels and the
    width 277 the program computes the height 141, while
    [277 * 60907 / (2 * 60040)] rounds half up to 140: the quotient
    rounded to single precision reaches 140.5. *)
Lemma derive_height_counterexample :
  exists o',
    calc_aspect_ratio 2 60040 60907 (set_width main_options 277) = Ok o' /\
    width o' = 277 /\ height o' = 141 /\
    height o' <> round_half_up (width o' * 60907) (2 * 60040).
Proof.
  eexists. split; [vm_compute; reflexivity|].
  split; [reflexivity|]. split; [reflexivity|]. vm_compute. discriminate.
Qed.

(** ** Column lookup *)

(** The column product in units of [2^-149]: two roundings keep it
    within one pixel of the exact quotient and below the source width. *)
Lemma column_units (sw w x r p : Z) :
  1 <= w <= 2 ^ 22 -> 1 <= sw <= 2 ^ 22 -> 0 <= x < w ->
  r = round_mag (sw * one_u * one_u) (w * one_u) ->
  p = round_mag (x * one_u * r) one_u ->
  let m := x * sw / w in
  (m - 1) * one_u <= p /\ p < (m + 2) * one_u /\ p < sw * one_u /\ 0 <= p.
Proof.
  intros Hw Hsw Hx Hr Hp m.
  pose proof one_u_pos as P1.
  assert (2 ^ 46 <= one_u) as Obig by (unfold one_u; apply Z.pow_le_mono_r; lia).
  set (O := one_u) in *.
  set (E := 2 ^ 24) in *.
  assert (E = 16777216) as EE by reflexivity.
  assert (4 * w <= E /\ 4 * sw <= E) as [Hw4 Hsw4] by lia.
  assert (m * w <= x * sw < (m + 1) * w) as Hm.
  { unfold m. pose proof (Z.mul_div_le (x * sw) w ltac:(lia)).
    pose proof (Z.mul_succ_div_gt (x * sw) w ltac:(lia)). lia. }
  assert (0 <= m < sw) as Hm0.
  { split; [apply Z.div_pos; nia|]. apply Z.div_lt_upper_bound; nia. }
  (* the rounded ratio *)
  assert (2 ^ 23 <= r) as Hr23.
  { rewrite Hr. apply round_mag_ge; [nia|apply representable_scaled with (m := 1) (e := 23); lia|].
    nia. }
  pose proof (round_mag_error (sw * O * O) (w * O) ltac:(nia) ltac:(nia)) as R1.
  rewrite <- Hr in R1.
  assert ((E - 1) * (sw * O) <= E * (r * w) <= (E + 1) * (sw * O)) as R1'.
  { clear - R1 P1 EE.
    assert (O * (E * (r * w) - (E + 1) * (sw * O)) <= 0) by nia.
    assert (0 <= O * (E * (r * w) - (E - 1) * (sw * O))) by nia.
    nia. }
  (* the rounded product *)
  assert (0 <= p) as Hp0 by (rewrite Hp; apply round_mag_nonneg; nia).
  assert ((E - 1) * (x * r) <= E * p <= (E + 1) * (x * r)) as R2.
  { destruct (Z.eq_dec x 0) as [->|Nx].
    - rewrite Hp. replace (0 * O * r) with (0 * O) by lia.
      rewrite round_mag_exact by (try apply representable_small; lia). lia.
    - pose proof (round_mag_error (x * O * r) O ltac:(lia) ltac:(nia)) as R.
      rewrite <- Hp in R. clear - R P1 EE.
      assert (O * (E * p - (E + 1) * (x * r)) <= 0) by nia.
      assert (0 <= O * (E * p - (E - 1) * (x * r))) by nia.
      nia. }
  clear Hr Hp R1.
  assert (E * E * (p * w) <= (E + 1) * (E + 1) * (x * sw * O)) as U.
  { assert (E * (E * p * w) <= E * ((E + 1) * (x * r) * w)) by nia.
    assert ((E + 1) * x * (E * (r * w)) <= (E + 1) * x * ((E + 1) * (sw * O))) by nia.
    nia. }
  assert ((E - 1) * (E - 1) * (x * sw * O) <= E * E * (p * w)) as L.
  { assert (E * ((E - 1) * (x * r) * w) <= E * (E * p * w)) by nia.
    assert ((E - 1) * x * ((E - 1) * (sw * O)) <= (E - 1) * x * (E * (r * w))) by nia.
    nia. }
  clearbody m E O. subst E. clear R1' R2 Hr23 r.
  repeat split; try assumption.
  - (* lower bound *)
    destruct (Z_le_gt_dec ((m - 1) * O) p) as [|C]; [assumption|exfalso].
    assert (16777215 * 16777215 * (m * w * O) <= 16777215 * 16777215 * (x * sw * O)) by nia.
    assert (16777216 * 16777216 * (p * w) < 16777216 * 16777216 * ((m - 1) * O * w)) by nia.
    assert (16777215 * 16777215 * m < 16777216 * 16777216 * (m - 1)) as K.
    { assert (0 < w * O) by nia.
      assert ((16777215 * 16777215 * m) * (w * O) < (16777216 * 16777216 * (m - 1)) * (w * O)) by lia.
      nia. }
    lia.
  - (* within one pixel above *)
    destruct (Z_lt_le_dec p ((m + 2) * O)) as [|C]; [assumption|exfalso].
    assert (16777217 * 16777217 * (x * sw * O) < 16777217 * 16777217 * ((m + 1) * w * O)) by nia.
    assert (16777216 * 16777216 * ((m + 2) * O * w) <= 16777216 * 16777216 * (p * w)) by nia.
    assert (16777216 * 16777216 * (m + 2) < 16777217 * 16777217 * (m + 1)) as K.
    { assert (0 < w * O) by nia.
      assert ((16777216 * 16777216 * (m + 2)) * (w * O) < (16777217 * 16777217 * (m + 1)) * (w * O)) by lia.
      nia. }
    lia.
  - (* below the source width *)
    destruct (Z_lt_le_dec p (sw * O)) as [|C]; [assumption|exfalso].
    assert (16777217 * 16777217 * (x * sw * O) <= 16777217 * 16777217 * ((w - 1) * sw * O)) by nia.
    assert (16777216 * 16777216 * (sw * O * w) <= 16777216 * 16777216 * (p * w)) by nia.
    assert (16777216 * 16777216 * w <= 16777217 * 16777217 * (w - 1)) as K.
    { assert (0 < sw * O) by nia.
      assert ((16777216 * 16777216 * w) * (sw * O) <= (16777217 * 16777217 * (w - 1)) * (sw * O)) by lia.
      nia. }
    lia.
Qed.

Lemma to_int_nonneg p :
  0 <= p -> p / one_u <= INT_MAX -> to_int (Fin false p) = Some (p / one_u).
Proof.
  intros Hp Hmax. cbn [to_int signed].
  assert (0 <= p / one_u) by (apply Z.div_pos; [lia|apply one_u_pos]).
  destruct (Z.leb_spec INT_MIN (p / one_u)); [|unfold INT_MIN in *; lia].
  destruct (Z.leb_spec (p / one_u) INT_MAX); [|lia].
  reflexivity.
Qed.

(** [column] as a quotient of the two rounded magnitudes. *)
Lemma column_eq sw w x :
  1 <= w <= 2 ^ 22 -> 1 <= sw <= 2 ^ 22 -> 0 <= x < w ->
  column sw w x
  = Some (round_mag (x * one_u * round_mag (sw * one_u * one_u) (w * one_u)) one_u
          / one_u).
Proof.
  intros Hw Hsw Hx. unfold column.
  pose proof one_u_pos as P1.
  rewrite !of_Z_exact by lia. cbn [div xorb].
  destruct (Z.eqb_spec (w * one_u) 0) as [|_]; [nia|].
  set (r := round_mag (sw * one_u * one_u) (w * one_u)).
  destruct (column_units sw w x r _ Hw Hsw Hx eq_refl eq_refl) as (L & U1 & U2 & P0).
  set (p := round_mag (x * one_u * r) one_u) in *.
  assert (r < top_u) as Hr.
  { eapply Z.le_lt_trans; [|apply (top_u_big (2 ^ 22) 149); lia].
    apply round_mag_le; [nia|nia|apply representable_scaled; lia|].
    fold one_u. nia. }
  rewrite round_Fin by exact Hr. fold r. cbn [mul xorb].
  assert (p < top_u) as Hp.
  { eapply Z.lt_trans; [exact U2|].
    eapply Z.le_lt_trans; [|apply (top_u_big (2 ^ 22) 149); lia]. fold one_u. nia. }
  rewrite round_Fin by exact Hp. fold p.
  apply to_int_nonneg; [exact P0|].
  assert (p / one_u < sw) by (apply Z.div_lt_upper_bound; lia).
  unfold INT_MAX. lia.
Qed.

Lemma column_spec sw w x :
  1 <= w <= 2 ^ 22 -> 1 <= sw <= 2 ^ 22 -> 0 <= x < w ->
  exists n, column sw w x = Some n /\ 0 <= n <= sw - 1 /\
            x * sw / w - 1 <= n <= x * sw / w + 1.
Proof.
  intros Hw Hsw Hx. rewrite column_eq by assumption.
  pose proof one_u_pos as P1.
  set (r := round_mag (sw * one_u * one_u) (w * one_u)).
  destruct (column_units sw w x r _ Hw Hsw Hx eq_refl eq_refl) as (L & U1 & U2 & P0).
  set (p := round_mag (x * one_u * r) one_u) in *.
  eexists. split; [reflexivity|].
  assert (p / one_u < sw) by (apply Z.div_lt_upper_bound; lia).
  assert (p / one_u < x * sw / w + 2) by (apply Z.div_lt_upper_bound; lia).
  assert (x * sw / w - 1 <= p / one_u) by (apply Z.div_le_lower_bound; lia).
  assert (0 <= p / one_u) by (apply Z.div_pos; lia).
  lia.
Qed.

Lemma column_mono sw w x x' n n' :
  1 <= w <= 2 ^ 22 -> 1 <= sw <= 2 ^ 22 -> 0 <= x <= x' -> x' < w ->
  column sw w x = Some n -> column sw w x' = Some n' -> n <= n'.
Proof.
  intros Hw Hsw Hx Hx'. rewrite !column_eq by lia. intros [= <-] [= <-].
  pose proof one_u_pos as P1.
  apply Z.div_le_mono; [lia|].
  set (r := round_mag (sw * one_u * one_u) (w * one_u)).
  assert (0 <= r) by (apply round_mag_nonneg; nia).
  assert (0 <= x * one_u * r) by (apply Z.mul_nonneg_nonneg; nia).
  assert (x * one_u * r <= x' * one_u * r) by (apply Z.mul_le_mono_nonneg_r; nia).
  apply round_mag_mono; try lia.
  apply Z.mul_le_mono_nonneg_r; lia.
Qed.

(** The loop of [init_image] fills the table with the columns scaled by
    the component count. *)
Lemma init_image_lookup (i : Image.t) (jpg : jpeg) :
  1 <= Image.width i <= 2 ^ 22 -> 1 <= output_width jpg <= 2 ^ 22 ->
  1 <= out_color_components jpg ->
  output_width jpg * out_color_components jpg <= INT_MAX ->
  length (Image.lookup_resx i) = Z.to_nat (Image.width i) ->
  exists i',
    init_image i jpg = Ok i' /\
    Image.width i' = Image.width i /\
    length (Image.lookup_resx i') = Z.to_nat (Image.width i) /\
    forall x, 0 <= x < Image.width i ->
      Image.lookup_resx i' !! Z.to_nat x
      = (fun n => n * out_color_components jpg)
          <$> column (output_width jpg) (Image.width i) x.
Proof.
  intros Hw Hsw Hc Hfit Hlen. unfold init_image.
  set (w := Image.width i) in *. set (sw := output_width jpg) in *.
  set (c := out_color_components jpg) in *.
  destruct (for_loop_inv
    (fun x (l : list Z) =>
       length l = Z.to_nat w /\
       forall k, 0 <= k < x -> l !! Z.to_nat k = (fun n => n * c) <$> column sw w k)
    (Z.to_nat w) 0
    (fun dst_x l =>
       v ← of_option (to_int (mul (of_Z dst_x) (div (of_Z sw) (of_Z w))));
       p ← int_mul v c;
       set l dst_x p)
    (Image.lookup_resx i)) as (l & E & Hl & Hcells).
  - split; [exact Hlen|]. intros k Hk. lia.
  - intros x l Hx [Hl Hcells].
    destruct (column_spec sw w x Hw Hsw ltac:(lia)) as (n & En & Bn & _).
    fold (column sw w x). rewrite En. cbn [of_option]. rewrite bind_Ok.
    rewrite int_mul_Ok by (unfold INT_MIN, INT_MAX in *; nia). rewrite bind_Ok.
    rewrite set_Ok_iff by lia.
    eexists. split; [reflexivity|]. split; [rewrite length_insert; exact Hl|].
    intros k Hk. destruct (Z.eq_dec k x) as [->|Nk].
    + rewrite list_lookup_insert_eq by lia. rewrite En. reflexivity.
    + rewrite list_lookup_insert_ne by lia. apply Hcells. lia.
  - rewrite E, bind_Ok. eexists. split; [reflexivity|].
    split; [reflexivity|]. split; [exact Hl|].
    intros x Hx. apply Hcells. lia.
Qed.

(** C9 (as amended).  For a destination width [w] and a source width
    [sw] between 1 and [2^22] and [c >= 1] components, the row size
    [sw * c] fitting an [int], [init_image] succeeds and every entry [lookup_resx[x]], [0 <= x < w], is [n * c]
    for the column [n] the single-precision product truncates to: [n] is
    within one of [floor (x * sw / w)], the entries are non-decreasing in
    [x] and lie between 0 and [(sw - 1) * c], so the [c] samples read
    from an entry on stay inside a row of [sw * c] samples. *)
Theorem column_lookup_in_bounds (i : Image.t) (jpg : jpeg)
    (Hw : 1 <= Image.width i <= 2 ^ 22)
    (Hsw : 1 <= output_width jpg <= 2 ^ 22)
    (Hc : 1 <= out_color_components jpg)
    (Hfit : output_width jpg * out_color_components jpg <= F32.INT_MAX)
    (Hlen : length (Image.lookup_resx i) = Z.to_nat (Image.width i)) :
  let w := Image.width i in
  let sw := output_width jpg in
  let c := out_color_components jpg in
  exists i',
    init_image i jpg = Ok i' /\
    (forall x, 0 <= x < w ->
       exists n,
         Image.lookup_resx i' !! Z.to_nat x = Some (n * c) /\
         column sw w x = Some n /\
         x * sw / w - 1 <= n <= x * sw / w + 1 /\
         0 <= n * c <= (sw - 1) * c /\
         n * c + c <= sw * c) /\
    (forall x x' a a',
       0 <= x <= x' -> x' < w ->
       Image.lookup_resx i' !! Z.to_nat x = Some a ->
       Image.lookup_resx i' !! Z.to_nat x' = Some a' -> a <= a').
Proof.
  intros w sw c.
  destruct (init_image_lookup i jpg Hw Hsw Hc Hfit Hlen) as (i' & E & _ & _ & Hcells).
  fold w sw c in Hcells. exists i'. split; [exact E|]. split.
  - intros x Hx. destruct (column_spec sw w x Hw Hsw Hx) as (n & En & Hn & Hm).
    exists n. rewrite Hcells by exact Hx. rewrite En.
    split; [reflexivity|]. split; [reflexivity|]. split; [exact Hm|]. nia.
  - intros x x' a a' Hx Hx'. rewrite !Hcells by lia.
    destruct (column_spec sw w x Hw Hsw ltac:(lia)) as (n & En & _).
    destruct (column_spec sw w x' Hw Hsw ltac:(lia)) as (n' & En' & _).
    rewrite En, En'. intros [= <-] [= <-].
    pose proof (column_mono sw w x x' n n' Hw Hsw Hx Hx' En En'). nia.
Qed.

Lemma column_lookup_in_bounds_witness :
  exists i', init_image wide14 src62 = Ok i'.
Proof.
  destruct (column_lookup_in_bounds wide14 src62) as (i' & E & _).
  - vm_compute. split; discriminate.
  - vm_compute. split; discriminate.
  - vm_compute. discriminate.
  - vm_compute. discriminate.
  - reflexivity.
  - exists i'. exact E.
Defined.

(** C9 as stated fails: for 14 destination columns over 62 source
    columns, entry 7 is 30, not [floor (7 * 62 / 14) = 31]: the ratio
    [62/14] rounds down in single precision and 7 times it stays below
    31. *)
Lemma column_lookup_counterexample :
  exists i' entry,
    init_image wide14 src62 = Ok i' /\
    Image.lookup_resx i' !! 7%nat = Some entry /\ entry = 30 /\
    entry <> 7 * output_width src62 / Image.width wide14
             * out_color_components src62.
Proof.
  do 2 eexists. split; [vm_compute; reflexivity|].
  split; [reflexivity|]. split; [reflexivity|]. vm_compute. discriminate.
Qed.

(** ** Rendering and flips *)

Ltac ok := repeat (rewrite bind_Ok; cbv beta).

Lemma for_loop_ext {St} n : forall x (b1 b2 : Z -> St -> result St) s,
  (forall k s, x <= k < x + Z.of_nat n -> b1 k s = b2 k s) ->
  for_loop n x b1 s = for_loop n x b2 s.
Proof.
  induction n as [|n IH]; intros x b1 b2 s H; [reflexivity|].
  cbn [for_loop]. rewrite H by lia. destruct (b2 x s); try reflexivity.
  cbn. apply IH. intros k s' Hk. apply H. lia.
Qed.

(** A loop that appends one item per iteration. *)
Lemma for_loop_append {A B} (f : Z -> result A) (g : A -> B) n : forall x acc,
  for_loop n x (fun y out => l ← f y; Ok (out ++ [g l])%list) acc
  = (ls ← collect f n x; Ok (acc ++ map g ls)%list).
Proof.
  induction n as [|n IH]; intros x acc.
  - cbn. rewrite app_nil_r. reflexivity.
  - cbn [for_loop collect]. destruct (f x) as [a| | |]; try reflexivity.
    ok. rewrite IH.
    destruct (collect f n (x + 1)) as [ls| | |]; try reflexivity.
    cbn. rewrite <- app_assoc. reflexivity.
Qed.

(** A loop that fills a buffer from the left. *)
Lemma for_loop_fill {A} (f : Z -> result A) n : forall (pre rest : list A),
  length rest = n ->
  for_loop n (Z.of_nat (length pre))
    (fun x line => c ← f x; set line x c) (pre ++ rest)%list
  = (cs ← collect f n (Z.of_nat (length pre)); Ok (pre ++ cs)%list).
Proof.
  induction n as [|n IH]; intros pre rest Hlen.
  - destruct rest; [|discriminate]. reflexivity.
  - destruct rest as [|j rest]; [discriminate|]. injection Hlen as Hlen.
    cbn [for_loop collect]. destruct (f (Z.of_nat (length pre))) as [c| | |]; try reflexivity.
    ok. rewrite set_Ok_iff by (rewrite length_app; cbn [length]; lia).
    ok. rewrite Nat2Z.id.
    replace (<[length pre:=c]> (pre ++ j :: rest)%list) with ((pre ++ [c]) ++ rest)%list.
    2:{ rewrite insert_app_r_alt by lia. rewrite Nat.sub_diag. cbn.
        rewrite <- app_assoc. reflexivity. }
    replace (Z.of_nat (length pre) + 1) with (Z.of_nat (length (pre ++ [c])%list))
      by (rewrite length_app; cbn [length]; lia).
    rewrite IH by exact Hlen.
    destruct (collect f n _) as [cs| | |]; try reflexivity.
    cbn. rewrite <- app_assoc. reflexivity.
Qed.

(** A loop that fills a buffer from the right. *)
Lemma for_loop_fill_rev {A} (f : Z -> result A) n : forall (rest post : list A) w,
  length rest = n -> w = Z.of_nat (n + length post) ->
  for_loop n (Z.of_nat (length post))
    (fun x line => c ← f x; set line (w - x - 1) c) (rest ++ post)%list
  = (cs ← collect f n (Z.of_nat (length post)); Ok (rev cs ++ post)%list).
Proof.
  induction n as [|n IH]; intros rest post w Hlen Hw.
  - destruct rest; [|discriminate]. reflexivity.
  - destruct rest as [|j rest' _] using rev_ind; [discriminate|].
    rewrite length_app in Hlen. cbn [length] in Hlen.
    cbn [for_loop collect]. destruct (f (Z.of_nat (length post))) as [c| | |]; try reflexivity.
    ok. rewrite set_Ok_iff by (rewrite !length_app; cbn [length]; lia).
    ok.
    replace (Z.to_nat (w - Z.of_nat (length post) - 1)) with (length rest') by lia.
    replace (<[length rest':=c]> ((rest' ++ [j]) ++ post)%list) with (rest' ++ c :: post)%list.
    2:{ rewrite <- app_assoc. rewrite insert_app_r_alt by lia. rewrite Nat.sub_diag. reflexivity. }
    replace (Z.of_nat (length post) + 1) with (Z.of_nat (length (c :: post))) by (cbn [length]; lia).
    rewrite (IH rest' (c :: post) w) by (cbn [length]; lia).
    destruct (collect f n _) as [cs| | |]; try reflexivity.
    cbn. rewrite <- app_assoc. reflexivity.
Qed.

Lemma for_loop_fill_all {A} (f : Z -> result A) n (rest : list A) :
  length rest = n ->
  for_loop n 0 (fun x line => c ← f x; set line x c) rest
  = (cs ← collect f n 0; Ok cs).
Proof. intros H. exact (for_loop_fill f n [] rest H). Qed.

Lemma for_loop_fill_rev_all {A} (f : Z -> result A) n (rest : list A) w :
  length rest = n -> w = Z.of_nat n ->
  for_loop n 0 (fun x line => c ← f x; set line (w - x - 1) c) rest
  = (cs ← collect f n 0; Ok (rev cs)).
Proof.
  intros H Hw.
  pose proof (for_loop_fill_rev f n rest [] w H ltac:(cbn [length]; lia)) as E.
  change (Z.of_nat (length (@nil A))) with 0 in E. rewrite app_nil_r in E. rewrite E.
  destruct (collect f n 0); try reflexivity. cbn. rewrite app_nil_r. reflexivity.
Qed.

Lemma collect_Ok_iff {A} (f : Z -> result A) n : forall x (ls : list A),
  collect f n x = Ok ls <->
  length ls = n /\
  forall k a, ls !! k = Some a -> f (x + Z.of_nat k) = Ok a.
Proof.
  induction n as [|n IH]; intros x ls.
  - cbn. split.
    + intros [= <-]. split; [reflexivity|]. intros k a H. discriminate.
    + intros [H _]. destruct ls; [reflexivity|discriminate].
  - cbn [collect]. split.
    + intros H. apply bind_Ok_inv in H as (a & Ea & H).
      apply bind_Ok_inv in H as (l & El & [= <-]).
      apply IH in El as [Hlen Hl]. split; [cbn; lia|].
      intros [|k] b Hb.
      * injection Hb as <-. rewrite Z.add_0_r. exact Ea.
      * cbn in Hb. apply Hl in Hb. rewrite <- Hb. f_equal. lia.
    + intros [Hlen Hl]. destruct ls as [|a l]; [discriminate|].
      injection Hlen as Hlen.
      rewrite <- (Z.add_0_r x) at 1. change 0 with (Z.of_nat 0).
      rewrite (Hl 0%nat a eq_refl). ok.
      assert (collect f n (x + 1) = Ok l) as ->.
      { apply IH. split; [exact Hlen|]. intros k b Hb.
        rewrite <- (Hl (S k) b Hb). f_equal. lia. }
      reflexivity.
Qed.

Lemma rev_reverse {A} (l : list A) : rev l = reverse l.
Proof. unfold reverse. apply rev_alt. Qed.

(** Visiting the rows from the last to the first collects the results
    in reverse. *)
Lemma collect_reversed {A} (f : Z -> result A) (n : nat) (ls : list A) :
  collect f n 0 = Ok ls ->
  collect (fun y => f (Z.of_nat n - y - 1)) n 0 = Ok (rev ls).
Proof.
  intros H. apply collect_Ok_iff in H as [Hlen Hl]. apply collect_Ok_iff.
  split; [rewrite length_rev; exact Hlen|].
  intros k a Hk.
  assert (k < n)%nat as Hlt.
  { apply lookup_lt_Some in Hk. rewrite length_rev in Hk. lia. }
  rewrite rev_reverse, reverse_lookup in Hk by lia.
  apply Hl in Hk. rewrite <- Hk. f_equal. lia.
Qed.

Lemma collect_ext {A} (f g : Z -> result A) n : forall x,
  (forall k, x <= k < x + Z.of_nat n -> f k = g k) ->
  collect f n x = collect g n x.
Proof.
  induction n as [|n IH]; intros x H; [reflexivity|].
  cbn [collect]. rewrite H by lia. rewrite (IH (x + 1)); [reflexivity|].
  intros k Hk. apply H. lia.
Qed.

Lemma lookup_map {A B} (f : A -> B) (l : list A) (k : nat) :
  map f l !! k = f <$> l !! k.
Proof.
  revert k. induction l as [|a l IH]; intros [|k]; try reflexivity. apply IH.
Qed.

Lemma collect_map {A B} (f : Z -> result A) (g : Z -> result B) (h : A -> B) n :
  forall x ls,
  (forall k a, f k = Ok a -> g k = Ok (h a)) ->
  collect f n x = Ok ls -> collect g n x = Ok (map h ls).
Proof.
  intros x ls H Hc. apply collect_Ok_iff in Hc as [Hlen Hl]. apply collect_Ok_iff.
  split; [rewrite length_map; exact Hlen|].
  intros k b Hb. rewrite lookup_map in Hb.
  destruct (ls !! k) as [a|] eqn:Ea; [|discriminate]. injection Hb as <-.
  apply H. apply Hl. exact Ea.
Qed.

Lemma print_image_lines o i chars :
  print_image o i chars
  = (ls ← collect (line_of o i chars) (Z.to_nat (Image.height i)) 0;
     Ok (map string_of_list_ascii ls)).
Proof.
  unfold print_image. set (w := Image.width i). set (h := Image.height i).
  transitivity (for_loop (Z.to_nat h) 0
                  (fun y out => l ← line_of o i chars y;
                                Ok (out ++ [string_of_list_ascii l])%list) []);
    [|rewrite for_loop_append; reflexivity].
  apply for_loop_ext. intros y out Hy. f_equal.
  unfold line_of. fold w h.
  set (row := if flipy o =? 0 then y else h - y - 1).
  destruct (Z.eqb_spec (flipx o) 0) as [Ex|Nx].
  - rewrite (for_loop_ext _ _ _ (fun x line => c ← print_cell o i chars row x; set line x c)).
    + rewrite for_loop_fill_all by apply length_replicate.
      destruct (collect _ _ _); reflexivity.
    + intros x line Hx. unfold print_cell. fold w row.
      destruct (get _ _) as [v| | |]; [|reflexivity..]. ok.
      destruct (ROUND _) as [pos| | |]; [|reflexivity..]. ok.
      destruct (palette_char _ _) as [c| | |]; reflexivity.
  - rewrite (for_loop_ext _ _ _
               (fun x line => c ← print_cell o i chars row x; set line (w - x - 1) c)).
    + destruct (Z_lt_le_dec w 0) as [Hneg|Hpos].
      * replace (Z.to_nat w) with 0%nat by lia. reflexivity.
      * rewrite for_loop_fill_rev_all by (rewrite ?length_replicate; lia).
        reflexivity.
    + intros x line Hx. unfold print_cell. fold w row.
      destruct (get _ _) as [v| | |]; [|reflexivity..]. ok.
      destruct (ROUND _) as [pos| | |]; [|reflexivity..]. ok.
      destruct (palette_char _ _) as [c| | |]; reflexivity.
Qed.

Lemma rev_line_involutive s : rev_line (rev_line s) = s.
Proof.
  unfold rev_line. rewrite list_ascii_of_string_of_list_ascii, rev_involutive.
  apply string_of_list_ascii_of_string.
Qed.

Lemma rev_line_of_list l :
  rev_line (string_of_list_ascii l) = string_of_list_ascii (rev l).
Proof. unfold rev_line. rewrite list_ascii_of_string_of_list_ascii. reflexivity. Qed.

(** C6.  The stored grid is only read by [print_image].  When the
    unflipped rendering prints the lines [out], rendering with [flipy]
    prints the same lines in reverse order and rendering with [flipx]
    prints each line reversed; both reversals, like the index maps
    [y -> h-1-y] and [x -> w-1-x] behind them, undo themselves when
    applied twice. *)
Theorem flips_are_involutions (o : options) (i : Image.t) (chars : Z)
    (out : list string)
    (Hx : flipx o = 0) (Hy : flipy o = 0)
    (Hout : print_image o i chars = Ok out) :
  (forall f, f <> 0 -> print_image (set_flipy o f) i chars = Ok (rev out)) /\
  (forall f, f <> 0 ->
     print_image (set_flipx o f) i chars = Ok (map rev_line out)) /\
  rev (rev out) = out /\
  map rev_line (map rev_line out) = out /\
  (forall y, 0 <= y < Image.height i ->
     Image.height i - (Image.height i - y - 1) - 1 = y) /\
  (forall x, 0 <= x < Image.width i ->
     Image.width i - (Image.width i - x - 1) - 1 = x).
Proof.
  rewrite print_image_lines in Hout.
  apply bind_Ok_inv in Hout as (ls & Hls & [= <-]).
  set (h := Image.height i) in *. set (w := Image.width i) in *.
  split; [|split; [|split; [|split; [|split]]]].
  - intros f Hf. rewrite print_image_lines. fold h.
    assert (collect (line_of (set_flipy o f) i chars) (Z.to_nat h) 0 = Ok (rev ls)) as ->.
    { rewrite (collect_ext _ (fun y => line_of o i chars (Z.of_nat (Z.to_nat h) - y - 1))).
      - apply collect_reversed. exact Hls.
      - intros y Hyr. unfold line_of. fold h w. cbn [flipy flipx set_flipy].
        rewrite Hy. destruct (Z.eqb_spec f 0) as [|_]; [contradiction|].
        cbn [Z.eqb]. rewrite Z2Nat.id by lia. reflexivity. }
    ok. rewrite map_rev. reflexivity.
  - intros f Hf. rewrite print_image_lines. fold h.
    assert (collect (line_of (set_flipx o f) i chars) (Z.to_nat h) 0
            = Ok (map (@rev ascii) ls)) as ->.
    { apply (collect_map (line_of o i chars)); [|exact Hls].
      intros y a Ha. unfold line_of in *. fold h w in Ha |- *.
      cbn [flipy flipx set_flipx]. rewrite Hx in Ha.
      destruct (Z.eqb_spec f 0) as [|_]; [contradiction|].
      change (print_cell (set_flipx o f)) with (print_cell o).
      apply bind_Ok_inv in Ha as (cs & -> & [= <-]). reflexivity. }
    ok. rewrite !map_map. f_equal. apply map_ext. intros l.
    symmetry. apply rev_line_of_list.
  - apply rev_involutive.
  - rewrite map_map. rewrite <- (map_id (map string_of_list_ascii ls)) at 2.
    apply map_ext. apply rev_line_involutive.
  - intros y _. lia.
  - intros x _. lia.
Qed.

Lemma flips_are_involutions_witness :
  print_image (set_flipy main_options 1) checker 22 = Ok [" M"; "Ml"] /\
  print_image (set_flipx main_options 1) checker 22 = Ok ["lM"; "M "].
Proof.
  destruct (flips_are_involutions main_options checker 22 ["Ml"; " M"])
    as (H1 & H2 & _).
  - reflexivity.
  - reflexivity.
  - vm_compute. reflexivity.
  - split; [apply (H1 1); discriminate|apply (H2 1); discriminate].
Defined.

(** ** Sources of height 1 and batches of images *)

Lemma of_Z_cases n : (exists s u, of_Z n = Fin s u) \/ (exists s, of_Z n = Inf s).
Proof.
  unfold of_Z, round. destruct (top_u <=? _); [right|left]; eauto.
Qed.

Lemma init_image_resize_y i jpg i' :
  init_image i jpg = Ok i' ->
  Image.resize_y i'
  = div (of_Z (Image.height i - 1)) (of_Z (udec (output_height jpg))).
Proof.
  unfold init_image. intros H. apply bind_Ok_inv in H as (l & _ & [= <-]).
  reflexivity.
Qed.

(** C7 fails on the code.  For a source of height 1, [init_image]
    divides by [(float)(output_height - 1)], which is zero: the vertical
    ratio is NaN or an infinity, and the first call of
    [process_scanline] converts NaN to [int], which is undefined. *)
Theorem height_one_source_divides_by_zero (i i' : Image.t) (jpg : jpeg)
    (Hh : output_height jpg = 1) (Hinit : init_image i jpg = Ok i') :
  F32.is_zero (F32.of_Z (udec (output_height jpg))) = true /\
  Image.resize_y i'
  = F32.div (F32.of_Z (Image.height i - 1))
            (F32.of_Z (udec (output_height jpg))) /\
  (Image.resize_y i' = F32.NaN \/ exists s, Image.resize_y i' = F32.Inf s) /\
  forall scanline cursor, process_scanline 1 jpg scanline i' cursor = UB.
Proof.
  pose proof (init_image_resize_y i jpg i' Hinit) as E.
  rewrite Hh in *. change (of_Z (udec 1)) with (Fin false 0) in *.
  assert (Image.resize_y i' = NaN \/ exists s, Image.resize_y i' = Inf s) as C.
  { rewrite E. destruct (of_Z_cases (Image.height i - 1)) as [(s & u & ->)|(s & ->)].
    - cbn. destruct (u =? 0); [left; reflexivity|right; eauto].
    - cbn. right. eauto. }
  split; [reflexivity|]. split; [exact E|]. split; [exact C|].
  intros scanline cursor. unfold process_scanline.
  change (of_Z (udec 1)) with (Fin false 0).
  destruct C as [->|[s ->]]; reflexivity.
Qed.

Lemma height_one_source_divides_by_zero_witness :
  exists i', init_image wide14 white_row = Ok i' /\
             process_scanline 1 white_row [255; 255] i' 0 = UB.
Proof.
  destruct (init_image wide14 white_row) as [i'| | |] eqn:E;
    [|vm_compute in E; discriminate..].
  exists i'. split; [reflexivity|].
  apply (height_one_source_divides_by_zero wide14 i' white_row eq_refl E).
Defined.

(** C2 fails on the code for sources of height 1 (the defect of C7): a
    uniform white source of one row, run with the default options, ends
    in undefined behaviour instead of a grid of cells [255/255]; the same
    source with a second row is rendered, every cell blank (white). *)
Theorem uniform_one_row_source_is_not_rendered :
  decompress 2 (Decodable white_row) (first_file main_options) = UB /\
  exists w, decompress 2 (Decodable white_rows) (first_file sized_1x2) = Ok (0, w) /\
            stdout w = [" "; " "].
Proof.
  split; [vm_compute; reflexivity|].
  eexists. split; [vm_compute; reflexivity|reflexivity].
Qed.

(** C1 fails on the code.  [lasty] is a [static] local that nothing
    resets: after a first image of two rows it holds 1, and the same image
    processed again starts from there.  On a fresh grid the first row
    consumed is accumulated into destination row 0 when the cursor is 0,
    and into no row at all when the cursor is the 1 left behind; the
    second rendering of the same file differs from the first. *)
Theorem cursor_is_carried_over_to_the_next_image :
  exists w1 w2 g g0 g1,
    decompress 2 (Decodable black_over_white) (first_file sized_1x2) = Ok (0, w1) /\
    lasty w1 = 1 /\ stdout w1 = ["l"; " "] /\
    decompress 2 (Decodable black_over_white) w1 = Ok (0, w2) /\
    stdout w2 = ["l"; " "; " "; " "] /\
    fresh_grid sized_1x2 black_over_white = Ok g /\
    process_scanline 1 black_over_white [0] g 0 = Ok (g0, 0) /\
    Image.yadds g0 = [1; 0] /\
    process_scanline 1 black_over_white [0] g (lasty w1) = Ok (g1, 0) /\
    Image.yadds g1 = [0; 0].
Proof.
  do 5 eexists.
  split; [vm_compute; reflexivity|]. split; [reflexivity|].
  split; [reflexivity|]. split; [vm_compute; reflexivity|].
  split; [reflexivity|]. split; [vm_compute; reflexivity|].
  split; [vm_compute; reflexivity|]. split; [reflexivity|].
  split; [vm_compute; reflexivity|reflexivity].
Qed.

(** * Further properties of the program *)
(** ** The command line *)

Lemma starts_with_dash_eqb s :
  starts_with_dash s = match s with String c _ => Ascii.eqb c "-" | EmptyString => false end.
Proof.
  destruct s as [|c s]; [reflexivity|].
  destruct c as [[] [] [] [] [] [] [] []]; reflexivity.
Qed.

Lemma operand_iff s :
  operand s = true <-> starts_with_dash s = false \/ s = "-".
Proof.
  unfold operand. rewrite starts_with_dash_eqb. destruct s as [|c s].
  - cbn. tauto.
  - destruct (Ascii.eqb_spec c "-") as [->|Hc].
    + destruct s; cbn; split; auto; intros [|]; congruence.
    + cbn. split; auto.
Qed.

Lemma classify_file s : classify s = Ok AFile <-> operand s = true.
Proof.
  rewrite operand_iff. unfold classify.
  destruct (starts_with_dash s); cbn [negb].
  - destruct (String.eqb_spec s "-") as [->|Hs]; [split; auto|].
    split; [|intros [|]; congruence].
    repeat match goal with
           | |- context [if ?b then _ else _] => destruct b; [discriminate|]
           end.
    destruct (scan_one "--width=" s) as [[?|]| | |];
      cbn [mbind result_bind]; try discriminate.
    destruct (scan_one "--height=" s) as [[?|]| | |];
      cbn [mbind result_bind]; try discriminate.
    destruct (scan_size s) as [[[? ?]|]| | |];
      cbn [mbind result_bind]; try discriminate.
    match goal with |- context [strip_prefix ?a ?b] => destruct (strip_prefix a b) end;
      discriminate.
  - split; auto.
Qed.

Lemma parse_loop_count args : forall files o files' o',
  parse_loop args files o = Ok (inr (files', o')) ->
  files' = files + Z.of_nat (length (List.filter operand args)).
Proof.
  induction args as [|s args IH]; intros files o files' o' H.
  - injection H as <- <-. cbn. lia.
  - cbn [parse_loop] in H. cbn [List.filter].
    pose proof (classify_file s) as Hf.
    destruct (classify s) as [a| | |]; try discriminate. rewrite bind_Ok in H.
    destruct a;
      try (assert (operand s = false) as ->
             by (destruct (operand s); [destruct Hf as [_ Hf]; discriminate Hf; reflexivity|reflexivity]));
      try discriminate; try (apply IH in H; exact H).
    assert (operand s = true) as -> by (apply Hf; reflexivity).
    apply IH in H. cbn [length]. lia.
Qed.

Lemma parse_loop_app pre : forall post files o files' o',
  parse_loop pre files o = Ok (inr (files', o')) ->
  parse_loop (pre ++ post)%list files o = parse_loop post files' o'.
Proof.
  induction pre as [|s pre IH]; intros post files o files' o' H.
  - injection H as <- <-. reflexivity.
  - cbn [parse_loop app] in *.
    destruct (classify s) as [a| | |]; try discriminate. rewrite bind_Ok in *.
    destruct a; try discriminate; apply IH; exact H.
Qed.

Lemma decompress_returns_0 fuel fp w r w' :
  decompress fuel fp w = Ok (r, w') -> r = 0.
Proof.
  unfold decompress. destruct fp as [jpg|]; [|discriminate]. intros H.
  apply bind_Ok_inv in H as (o & _ & H). apply bind_Ok_inv in H as (im & _ & H).
  cbv zeta in H. apply bind_Ok_inv in H as (im1 & _ & H).
  apply bind_Ok_inv in H as ([im2 l] & _ & H).
  apply bind_Ok_inv in H as (im3 & _ & H).
  apply bind_Ok_inv in H as (lines & _ & H).
  injection H as <- _. reflexivity.
Qed.

Lemma main_loop_code fuel e args : forall w r w',
  main_loop fuel e args w = Ok (inl (r, w')) -> r = 1.
Proof.
  induction args as [|s args IH]; intros w r w' H; [discriminate|].
  cbn [main_loop] in H.
  destruct (starts_with_dash s && negb (second_char_is_nul s)); [eauto|].
  assert (forall w0,
    match fopen e s with
    | Some fp =>
        let w := if negb (verbose (opts w0) =? 0)
                 then add_stderr w0 ["File: " ++ s ++ "
"] else w0 in
        '(r, w) ← decompress fuel fp w;
        if negb (r =? 0) then Ok (inl (r, w)) else main_loop fuel e args w
    | None => Ok (inl (1, add_stderr w0 ["Can't open " ++ s ++ "
"]))
    end = Ok (inl (r, w')) -> r = 1) as Hfile.
  { intros w0 Hf. destruct (fopen e s) as [fp|]; [|injection Hf as <- _; reflexivity].
    cbv zeta in Hf. apply bind_Ok_inv in Hf as ([r1 w1] & Hd & Hf).
    apply decompress_returns_0 in Hd as ->. cbn [Z.eqb negb] in Hf. eauto. }
  destruct (starts_with_dash s && second_char_is_nul s); [|eauto].
  apply bind_Ok_inv in H as ([r1 w1] & Hd & H).
  apply decompress_returns_0 in Hd as ->. cbn [Z.eqb] in H. eauto.
Qed.

Lemma parse_options_code args o r o' msgs :
  parse_options args o = Ok (r, o', msgs) -> r = 0 \/ r = 1 \/ r = -1.
Proof.
  unfold parse_options. intros H. apply bind_Ok_inv in H as (x & Hl & H).
  destruct x as [[code m]|[files o1]].
  - injection H as <- _ _. apply parse_loop_inl in Hl. tauto.
  - repeat match type of H with
           | context [if ?b then _ else _] => destruct b
           end; injection H as <- _ _; auto.
Qed.

(** X1. The files [parse_options] counts are the arguments [main] reads:
    when the argument loop runs to its end, the counter has grown by the
    number of arguments that [main]'s loop does not skip as options. *)
Theorem counted_files_are_the_inputs_read (args : list string) (files files' : Z)
    (o o' : options)
    (Hloop : parse_loop args files o = Ok (inr (files', o'))) :
  files' = files + Z.of_nat (length (List.filter operand args)) /\
  forall s, In s args -> (classify s = Ok AFile <-> operand s = true).
Proof.
  split; [eapply parse_loop_count; exact Hloop|].
  intros s _. apply classify_file.
Qed.

Lemma counted_files_are_the_inputs_read_witness :
  2 = 0 + Z.of_nat (length (List.filter operand ["a.jpg"; "-v"; "-"; "--width=10"])).
Proof.
  apply (counted_files_are_the_inputs_read ["a.jpg"; "-v"; "-"; "--width=10"] 0 2
           main_options
           (set_auto_height (set_width (set_verbose main_options 1) 10) 2)).
  vm_compute. reflexivity.
Defined.

(** X2. Options among the arguments play no part in [main]'s file loop:
    the loop over all arguments is the loop over the inputs alone, in
    their order. *)
Theorem main_loop_skips_options (fuel : nat) (e : env) (args : list string)
    (w : world) :
  main_loop fuel e args w = main_loop fuel e (List.filter operand args) w.
Proof.
  revert w. induction args as [|s args IH]; intros w; [reflexivity|].
  cbn [List.filter]. unfold operand at 1.
  destruct (starts_with_dash s && negb (second_char_is_nul s)) eqn:E; cbn [negb].
  - cbn [main_loop]. rewrite E. apply IH.
  - cbn [main_loop]. rewrite E.
    destruct (starts_with_dash s && second_char_is_nul s).
    + destruct (decompress fuel _ _) as [[r w1]| | |]; try reflexivity.
      rewrite !bind_Ok. cbv beta iota. destruct (r =? 0); [apply IH|].
      destruct (fopen e s); [|reflexivity].
      destruct (decompress fuel f _) as [[r2 w2]| | |]; try reflexivity.
      rewrite !bind_Ok. cbv beta iota. destruct (negb (r2 =? 0)); [reflexivity|apply IH].
    + destruct (fopen e s); [|reflexivity].
      destruct (decompress fuel f _) as [[r2 w2]| | |]; try reflexivity.
      rewrite !bind_Ok. cbv beta iota. destruct (negb (r2 =? 0)); [reflexivity|apply IH].
Qed.

(** X3. [main] returns 0 or 1 whenever it returns: the value of
    [parse_options] when that is not negative, 1 for a file that cannot be
    opened, 0 at the end of the loop; [decompress] never gives another
    value. *)
Theorem main_returns_0_or_1 (fuel : nat) (e : env) (argv : list string)
    (r : Z) (w : world)
    (Hmain : main fuel e argv = Ok (r, w)) :
  r = 0 \/ r = 1.
Proof.
  unfold main in Hmain.
  apply bind_Ok_inv in Hmain as ([[r0 o] msgs] & Hp & H).
  apply parse_options_code in Hp.
  destruct (Z.leb_spec 0 r0).
  - injection H as <- _. lia.
  - apply bind_Ok_inv in H as (x & Hl & H). destruct x as [[r1 w1]|w1].
    + injection H as <- _. apply main_loop_code in Hl. auto.
    + injection H as <- _. auto.
Qed.

Lemma main_returns_0_or_1_witness :
  exists r w, main 4 one_file ["jtoa"; "--size=1x2"; "a.jpg"] = Ok (r, w) /\
              (r = 0 \/ r = 1).
Proof.
  exists 0, {| opts := sized_1x2; lasty := 1; stdin_used := false;
               stdout := ["l"; " "]; stderr := [] |}.
  assert (main 4 one_file ["jtoa"; "--size=1x2"; "a.jpg"]
          = Ok (0, {| opts := sized_1x2; lasty := 1; stdin_used := false;
                      stdout := ["l"; " "]; stderr := [] |})) as E
    by (vm_compute; reflexivity).
  split; [exact E|]. exact (main_returns_0_or_1 _ _ _ _ _ E).
Defined.

(** X4. A request for help wins over everything behind it: when the
    argument loop reaches [-h] or [--help], [main] returns 0, the usage
    text is the only output, and no file is opened or decoded, whatever
    the arguments that follow. *)
Theorem help_is_printed_and_nothing_is_read (fuel : nat) (e : env)
    (prog h : string) (pre post : list string) (files : Z) (o : options)
    (Hh : h = "-h" \/ h = "--help")
    (Hpre : parse_loop pre 0 main_options = Ok (inr (files, o))) :
  exists w, main fuel e (prog :: pre ++ h :: post) = Ok (0, w) /\
            stdout w = [] /\ stderr w = [help_text].
Proof.
  eexists. split.
  - unfold main. cbn [tail opts initial_world]. unfold parse_options.
    fold main_options. rewrite (parse_loop_app _ _ _ _ _ _ Hpre).
    destruct Hh as [-> | ->]; reflexivity.
  - split; reflexivity.
Qed.

Lemma help_is_printed_and_nothing_is_read_witness :
  exists w, main 0 one_file ["jtoa"; "a.jpg"; "-v"; "--help"; "--bogus"] = Ok (0, w) /\
            stdout w = [] /\ stderr w = [help_text].
Proof.
  apply (help_is_printed_and_nothing_is_read 0 one_file "jtoa" "--help"
           ["a.jpg"; "-v"] ["--bogus"] 1 (set_verbose main_options 1)).
  - right. reflexivity.
  - vm_compute. reflexivity.
Defined.

(** X5. An argument that starts with a dash and is none of the options
    ends the run: [main] returns 1, standard error holds the
    unknown-option message and the usage text, and no file is opened. *)
Theorem unknown_option_ends_the_run (fuel : nat) (e : env)
    (prog s : string) (pre post : list string) (files : Z) (o : options)
    (Hs : classify s = Ok AUnknown)
    (Hpre : parse_loop pre 0 main_options = Ok (inr (files, o))) :
  exists w, main fuel e (prog :: pre ++ s :: post) = Ok (1, w) /\
            stdout w = [] /\
            stderr w = ["Unknown option " ++ s ++ newline ++ newline; help_text].
Proof.
  eexists. split.
  - unfold main. cbn [tail opts initial_world]. unfold parse_options.
    fold main_options. rewrite (parse_loop_app _ _ _ _ _ _ Hpre).
    cbn [parse_loop]. rewrite Hs. reflexivity.
  - split; reflexivity.
Qed.

Lemma unknown_option_ends_the_run_witness :
  exists w, main 0 one_file ["jtoa"; "a.jpg"; "--bogus"; "b.jpg"] = Ok (1, w) /\
            stdout w = [] /\
            stderr w = ["Unknown option --bogus" ++ newline ++ newline; help_text].
Proof.
  apply (unknown_option_ends_the_run 0 one_file "jtoa" "--bogus"
           ["a.jpg"] ["b.jpg"] 1 main_options).
  - vm_compute. reflexivity.
  - vm_compute. reflexivity.
Defined.

(** X6. Without an input among the arguments nothing is decoded: when
    every argument is an option that the loop accepts, [main] returns 1
    with the no-files message and the usage text. *)
Theorem no_input_is_an_error (fuel : nat) (e : env) (prog : string)
    (args : list string) (files : Z) (o : options)
    (Hloop : parse_loop args 0 main_options = Ok (inr (files, o)))
    (Hnone : List.filter operand args = []) :
  exists w, main fuel e (prog :: args) = Ok (1, w) /\
            stdout w = [] /\
            stderr w = ["No files specified." ++ newline ++ newline; help_text].
Proof.
  pose proof (parse_loop_count _ _ _ _ _ Hloop) as Hf. rewrite Hnone in Hf.
  cbn in Hf. subst files.
  eexists. split.
  - unfold main. cbn [tail opts initial_world]. unfold parse_options.
    fold main_options. rewrite Hloop. reflexivity.
  - split; reflexivity.
Qed.

Lemma no_input_is_an_error_witness :
  exists w, main 0 one_file ["jtoa"; "-v"; "--width=40"; "--flipx"] = Ok (1, w) /\
            stdout w = [] /\
            stderr w = ["No files specified." ++ newline ++ newline; help_text].
Proof.
  apply (no_input_is_an_error 0 one_file "jtoa" ["-v"; "--width=40"; "--flipx"] 0
           (set_flipx (set_auto_height (set_width (set_verbose main_options 1) 40) 2) 1)).
  - vm_compute. reflexivity.
  - vm_compute. reflexivity.
Defined.

(** ** Calls that cannot end the process *)

Lemma bind_returns_or_UB {A B} (m : result A) (k : A -> result B) :
  returns_or_UB m -> (forall a, returns_or_UB (k a)) -> returns_or_UB (m ≫= k).
Proof. destruct m; cbn; auto. Qed.

Lemma of_option_returns_or_UB {A} (o : option A) : returns_or_UB (of_option o).
Proof. destruct o; exact I. Qed.

Lemma get_returns_or_UB {A} (l : list A) i : returns_or_UB (get l i).
Proof. unfold get. destruct (i <? 0); [exact I|apply of_option_returns_or_UB]. Qed.

Lemma set_returns_or_UB {A} (l : list A) i v : returns_or_UB (set l i v).
Proof. unfold set. destruct (_ && _); exact I. Qed.

Lemma int_mul_returns_or_UB a b : returns_or_UB (int_mul a b).
Proof. unfold int_mul. cbv zeta. destruct (_ && _); exact I. Qed.

Lemma for_loop_returns_or_UB {St} (body : Z -> St -> result St) n : forall x s,
  (forall k s, returns_or_UB (body k s)) -> returns_or_UB (for_loop n x body s).
Proof.
  induction n as [|n IH]; intros x s H; [exact I|].
  cbn [for_loop]. apply bind_returns_or_UB; [apply H|]. intros a. apply IH, H.
Qed.

Lemma ROUND_returns_or_UB x : returns_or_UB (ROUND x).
Proof. apply of_option_returns_or_UB. Qed.

Lemma intensity_returns_or_UB scanline off c : returns_or_UB (intensity scanline off c).
Proof.
  unfold intensity, sample.
  repeat first [ apply bind_returns_or_UB | apply get_returns_or_UB
               | apply for_loop_returns_or_UB | exact I | intro ].
Qed.

Lemma init_image_returns_or_UB i jpg : returns_or_UB (init_image i jpg).
Proof.
  unfold init_image.
  repeat first [ apply bind_returns_or_UB | apply set_returns_or_UB
               | apply of_option_returns_or_UB | apply int_mul_returns_or_UB
               | apply for_loop_returns_or_UB | exact I | intro ].
Qed.

(** [init_image] leaves the cells, the counts and the sizes alone. *)
Lemma init_image_keeps i jpg i' :
  init_image i jpg = Ok i' ->
  Image.width i' = Image.width i /\ Image.height i' = Image.height i /\
  Image.pixel i' = Image.pixel i /\ Image.yadds i' = Image.yadds i.
Proof.
  unfold init_image. intros H. apply bind_Ok_inv in H as (l & _ & H).
  injection H as <-. repeat split.
Qed.

Lemma ROUND_mul_zero x y : ROUND (mul x (of_Z 0)) = Ok y -> y = 0.
Proof.
  change (of_Z 0) with (Fin false 0). destruct x as [|a|a u]; cbn [mul].
  - discriminate.
  - discriminate.
  - rewrite Z.mul_0_r. unfold round.
    replace (round_mag 0 one_u) with 0
      by (symmetry; apply (round_mag_exact 0 one_u);
          [apply representable_small; lia|apply one_u_pos]).
    destruct (xorb a false); vm_compute; intros [= <-]; reflexivity.
Qed.

(** The first row of a source, handed to a grid without cells. *)
Lemma process_scanline_no_cells jpg scanline i :
  Image.pixel i = [] -> 1 <= Image.width i ->
  process_scanline 1 jpg scanline i 0 = UB.
Proof.
  intros Hp Hw. unfold process_scanline. change (udec 1) with 0.
  pose proof (ROUND_returns_or_UB (mul (Image.resize_y i) (of_Z 0))) as R.
  destruct (ROUND (mul (Image.resize_y i) (of_Z 0))) as [y| | |] eqn:Ey;
    try contradiction; [|reflexivity].
  apply ROUND_mul_zero in Ey as ->. rewrite bind_Ok.
  change (Z.to_nat (0 - 0 + 1)) with 1%nat. cbn [for_loop].
  rewrite int_mul_Ok by (rewrite Z.mul_0_l; unfold INT_MIN, INT_MAX; lia).
  rewrite bind_Ok.
  destruct (Z.to_nat (Image.width i)) as [|n] eqn:En; [lia|]. cbn [for_loop].
  pose proof (get_returns_or_UB (Image.lookup_resx i) 0) as G.
  destruct (get (Image.lookup_resx i) 0) as [off| | |]; try contradiction;
    [|reflexivity].
  rewrite bind_Ok.
  pose proof (intensity_returns_or_UB scanline off (out_color_components jpg)) as Hi.
  destruct (intensity scanline off (out_color_components jpg)) as [v| | |];
    try contradiction; [|reflexivity].
  rewrite bind_Ok, Hp. reflexivity.
Qed.

(** X7. What [parse_options] has checked when it reports success: no
    message was written, at least one input was named, the palette has two
    characters or more, and a dimension that will not be derived from the
    source is at least 1. *)
Theorem accepted_options_are_checked (args : list string) (o0 o : options)
    (msgs : list string)
    (Hparse : parse_options args o0 = Ok (-1, o, msgs)) :
  msgs = [] /\
  List.filter operand args <> [] /\
  2 <= strlen (ascii_palette o) /\
  (auto_width o = 0 -> 1 <= width o) /\
  (auto_height o = 0 -> 1 <= height o).
Proof.
  unfold parse_options in Hparse.
  apply bind_Ok_inv in Hparse as (x & Hl & H).
  destruct x as [[code m]|[files o1]].
  - injection H as -> _ _. apply parse_loop_inl in Hl. lia.
  - apply parse_loop_count in Hl.
    destruct (Z.eqb_spec files 0) as [|Hf]; [discriminate|].
    cbv zeta in H.
    match type of H with
    | context [strlen (ascii_palette ?o') <? 2] => set (o2 := o') in *
    end.
    destruct (Z.ltb_spec (strlen (ascii_palette o2)) 2); [discriminate|].
    destruct (Z.ltb_spec (width o2) 1), (Z.eqb_spec (auto_width o2) 0),
             (Z.ltb_spec (height o2) 1), (Z.eqb_spec (auto_height o2) 0);
      cbn [andb orb] in H; try discriminate;
      injection H as <- <-; repeat split; try lia;
      intros E; rewrite E in Hl; cbn in Hl; lia.
Qed.

Lemma accepted_options_are_checked_witness :
  2 <= strlen (ascii_palette sized_1x2) /\
  (auto_width sized_1x2 = 0 -> 1 <= width sized_1x2).
Proof.
  pose proof (accepted_options_are_checked ["--size=1x2"; "a.jpg"] main_options
                sized_1x2 [] ltac:(vm_compute; reflexivity)) as (_ & _ & H1 & H2 & _).
  split; assumption.
Defined.

(** X8. The range check does not cover [--width=N --height=M] given
    together: both counters are then non-zero and the pair is accepted
    whatever the numbers.  With a height of 0 the grid has no cells (the
    zero-byte allocation taken as granted), and the first row of the first
    image is written beyond it: undefined behaviour. *)
Theorem zero_height_is_accepted_and_overruns (args : list string) (N files : Z)
    (o : options)
    (HN : 1 <= N)
    (Hsizing : sizing_args args = [AWidth N; AHeight 0] \/
               sizing_args args = [AHeight 0; AWidth N])
    (Hloop : parse_loop args 0 main_options = Ok (inr (files, o)))
    (Hfiles : files <> 0) :
  parse_options args main_options = Ok (-1, o, []) /\
  width o = N /\ height o = 0 /\
  forall fuel jpg scanline,
    1 <= output_height jpg -> rows jpg !! 0%nat = Some scanline ->
    decompress (S fuel) (Decodable jpg) (first_file o) = UB.
Proof.
  pose proof (parse_loop_sizing _ _ _ _ _ Hloop) as [Hs Hp].
  assert (sizing_state o = (1, 2, N, 0)) as Hst
    by (rewrite Hs; destruct Hsizing as [-> | ->]; reflexivity).
  unfold sizing_state in Hst. injection Hst as Haw Hah Hw Hh.
  split; [|split; [exact Hw|split; [exact Hh|]]].
  - unfold parse_options. rewrite Hloop, bind_Ok.
    destruct (Z.eqb_spec files 0); [contradiction|].
    cbv zeta.
    repeat first [ rewrite Haw | rewrite Hah | rewrite Hw | rewrite Hh | rewrite Hp
                 | progress cbn [Z.eqb andb orb Pos.eqb] ].
    change (strlen (ascii_palette main_options) <? 2) with false. cbv iota.
    destruct (Z.ltb_spec N 1); [lia|]. reflexivity.
  - intros fuel jpg scanline HH Hrow. unfold decompress. cbn [opts first_file].
    rewrite calc_aspect_ratio_fixed by (rewrite Haw, Hah; split; discriminate).
    rewrite bind_Ok. unfold malloc_image. rewrite Hw, Hh.
    rewrite int_mul_Ok by (rewrite Z.mul_0_r; unfold INT_MIN, INT_MAX; lia).
    rewrite bind_Ok, Z.mul_0_r.
    destruct (Z.ltb_spec N 0); [lia|]. cbn [Z.ltb Z.compare]. rewrite bind_Ok.
    cbv zeta.
    set (g := clear _).
    pose proof (init_image_returns_or_UB g jpg) as R.
    destruct (init_image g jpg) as [g'| | |] eqn:Eg; try contradiction;
      [|reflexivity].
    apply init_image_keeps in Eg as (Ew & _ & Ep & _). rewrite bind_Ok.
    unfold scan_rows.
    destruct (Z.to_nat (output_height jpg)) as [|n] eqn:En; [lia|].
    cbn [for_loop lasty first_file]. change (Z.to_nat 0) with 0%nat.
    rewrite Hrow. change (0 + 1) with 1.
    rewrite process_scanline_no_cells; [reflexivity|rewrite Ep; reflexivity|].
    rewrite Ew. cbn. lia.
Qed.

Lemma zero_height_is_accepted_and_overruns_witness :
  main 1 one_file ["jtoa"; "--width=5"; "--height=0"; "a.jpg"] = UB.
Proof.
  pose proof (zero_height_is_accepted_and_overruns
                ["--width=5"; "--height=0"; "a.jpg"] 5 1
                (set_auto_width (set_height
                   (set_auto_height (set_width main_options 5) 2) 0) 1)
                ltac:(lia) ltac:(left; vm_compute; reflexivity)
                ltac:(vm_compute; reflexivity) ltac:(lia)) as (Hp & _ & _ & Hd).
  unfold main. cbn [tail opts initial_world]. fold main_options. rewrite Hp.
  rewrite bind_Ok. cbv beta iota. cbn [Z.leb Z.compare main_loop].
  change (starts_with_dash "--width=5" && negb (second_char_is_nul "--width=5")) with true.
  change (starts_with_dash "--height=0" && negb (second_char_is_nul "--height=0")) with true.
  change (starts_with_dash "a.jpg" && negb (second_char_is_nul "a.jpg")) with false.
  change (starts_with_dash "a.jpg" && second_char_is_nul "a.jpg") with false.
  cbv iota. cbn [fopen one_file]. change ("a.jpg" =? "a.jpg")%string with true.
  cbv iota. cbn [verbose opts set_auto_width set_height set_auto_height set_width main_options
                 set_ascii_palette defaults Z.eqb negb].
  unfold first_file in Hd.
  rewrite (Hd 0%nat black_over_white [0]); [reflexivity|cbn; lia|reflexivity].
Defined.

(** ** Derive-width mode *)

Lemma ROUND_width_formula o sw sh :
  1 <= height o -> 1 <= sw -> 1 <= sh -> 8 * (height o * sw) + sh < 2 ^ 24 ->
  ROUND (width_formula o sw sh) = Ok (round_half_up (2 * (height o * sw)) sh).
Proof.
  intros Hh Hsw Hsh Hb. unfold width_formula, two.
  set (h := height o) in *.
  assert (1 <= h * sw) as HA by nia.
  pose proof one_u_pos as P1. pose proof one_u_eq as E1.
  assert (0 < 2 ^ 148) as PP by (apply Z.pow_pos_nonneg; lia).
  assert (2 ^ 150 = 2 * one_u) as E2 by reflexivity.
  rewrite !of_Z_exact by nia.
  rewrite (mul_exact _ _ (4 * h * 2 ^ 148));
    [|apply representable_scaled; nia|lia|apply top_u_big; nia].
  rewrite (mul_exact _ _ (4 * (h * sw) * 2 ^ 148));
    [|apply representable_scaled; nia|lia|apply top_u_big; nia].
  cbn [div xorb]. destruct (Z.eqb_spec (sh * one_u) 0) as [|_]; [nia|].
  set (q := round_mag (4 * (h * sw) * 2 ^ 148 * one_u) (sh * one_u)).
  destruct (half_up_units (4 * (h * sw)) sh q (round_mag (2 ^ 148 + q) 1)
              ltac:(lia) Hsh ltac:(lia) eq_refl eq_refl) as [L U].
  assert (round_half_up (4 * (h * sw)) (2 * sh) = round_half_up (2 * (h * sw)) sh) as EK0.
  { unfold round_half_up.
    replace (2 * (4 * (h * sw)) + 2 * sh) with (2 * (2 * (2 * (h * sw)) + sh)) by lia.
    replace (2 * (2 * sh)) with (2 * (2 * sh)) by lia.
    apply Z.div_mul_cancel_l; lia. }
  rewrite EK0 in L, U.
  set (K := round_half_up (2 * (h * sw)) sh) in *.
  set (t := round_mag (2 ^ 148 + q) 1) in *.
  assert (t / one_u = K) as EK.
  { apply div_between; [exact P1|split; assumption]. }
  assert (0 <= K < 2 ^ 23) as HK.
  { unfold K, round_half_up. split; [apply Z.div_pos; lia|].
    apply Z.div_lt_upper_bound; lia. }
  assert (q < top_u) as Hq.
  { unfold q. eapply Z.le_lt_trans; [|apply (top_u_big (2 ^ 24 - 1) 149); lia].
    apply round_mag_le; [nia|nia|apply representable_scaled; lia|nia]. }
  rewrite round_Fin by exact Hq. fold q.
  rewrite ROUND_nonneg; fold t; rewrite ?EK; [reflexivity| |unfold INT_MAX; lia].
  unfold q. apply round_mag_nonneg; nia.
Qed.

Lemma bumped_height_spec h sw sh :
  1 <= sh -> 1 <= sw ->
  (sh <= 4 * (h * sw) -> bumped_height h sw sh = h) /\
  (4 * (h * sw) < sh -> bumped_height h sw sh = bumped_height (h + 1) sw sh /\
                        h < bumped_height h sw sh) /\
  sh <= 4 * (bumped_height h sw sh * sw) /\
  (h < bumped_height h sw sh -> 4 * (bumped_height h sw sh * sw) < sh + 4 * sw).
Proof.
  intros Hsh Hsw. unfold bumped_height.
  pose proof (Z.mul_div_le (sh + 4 * sw - 1) (4 * sw) ltac:(lia)) as L.
  pose proof (Z.mul_succ_div_gt (sh + 4 * sw - 1) (4 * sw) ltac:(lia)) as U.
  set (c := (sh + 4 * sw - 1) / (4 * sw)) in *.
  repeat split; intros; nia.
Qed.

Lemma round_half_up_ratio_pos n d :
  1 <= d -> d <= 2 * n -> 1 <= round_half_up n d.
Proof. intros Hd H. unfold round_half_up. apply Z.div_le_lower_bound; lia. Qed.

Lemma round_half_up_ratio_zero n d :
  1 <= d -> 0 <= 2 * n < d -> round_half_up n d = 0.
Proof. intros Hd H. unfold round_half_up. apply Z.div_small. lia. Qed.

Lemma calc_aspect_ratio_bumps_height (d : nat) :
  forall (o : options) (sw sh : Z) (fuel : nat),
  auto_width o <> 0 -> auto_height o = 0 ->
  1 <= height o -> 1 <= sw -> 1 <= sh ->
  bumped_height (height o) sw sh = height o + Z.of_nat d ->
  8 * ((height o + Z.of_nat d) * sw) + sh < 2 ^ 24 ->
  (d + 2 <= fuel)%nat ->
  calc_aspect_ratio fuel sw sh o
  = Ok (set_width (set_height o (height o + Z.of_nat d))
          (round_half_up (2 * ((height o + Z.of_nat d) * sw)) sh)).
Proof.
  induction d as [|d IH]; intros o sw sh fuel Haw Hah Hh Hsw Hsh Hbh Hb Hfuel.
  - destruct fuel as [|fuel]; [lia|].
    destruct (bumped_height_spec (height o) sw sh Hsh Hsw) as (_ & B2 & B3 & _).
    assert (sh <= 4 * (height o * sw)) as Hge.
    { destruct (Z_le_gt_dec sh (4 * (height o * sw))); [assumption|].
      destruct B2 as [_ B2]; lia. }
    cbn [calc_aspect_ratio].
    destruct (Z.eqb_spec (auto_width o) 0) as [|_]; [contradiction|].
    rewrite Hah. cbn [Z.eqb negb andb]. fold (width_formula o sw sh).
    rewrite ROUND_width_formula by (try assumption; nia). rewrite bind_Ok; cbv beta.
    rewrite Z.add_0_r. destruct fuel as [|fuel]; [lia|].
    rewrite while_loop_exit.
    + rewrite bind_Ok; cbv beta. cbn [auto_width set_width].
      destruct (Z.eqb_spec (auto_width o) 0) as [|_]; [contradiction|].
      reflexivity.
    + cbn [width set_width]. apply Z.eqb_neq.
      pose proof (round_half_up_ratio_pos (2 * (height o * sw)) sh Hsh ltac:(lia)). lia.
  - destruct fuel as [|fuel]; [lia|].
    destruct (bumped_height_spec (height o) sw sh Hsh Hsw) as (B1 & B2 & B3 & B4).
    assert (4 * (height o * sw) < sh) as Hlt.
    { destruct (Z_lt_le_dec (4 * (height o * sw)) sh); [assumption|].
      rewrite B1 in Hbh; lia. }
    destruct (B2 Hlt) as [B2a B2b].
    cbn [calc_aspect_ratio].
    destruct (Z.eqb_spec (auto_width o) 0) as [|_]; [contradiction|].
    rewrite Hah. cbn [Z.eqb negb andb]. fold (width_formula o sw sh).
    rewrite ROUND_width_formula by (try assumption; nia). rewrite bind_Ok; cbv beta.
    rewrite round_half_up_ratio_zero by nia. destruct fuel as [|fuel]; [lia|].
    cbn [while_loop height set_width Z.eqb width].
    unfold incr. destruct (Z.ltb_spec (height o) INT_MAX) as [_|Hbig];
      [|unfold INT_MAX in Hbig; nia].
    rewrite bind_Ok; cbv beta.
    rewrite (IH (set_height (set_width o 0) (height o + 1)) sw sh (S fuel))
      by (cbn [height set_width set_height auto_width auto_height];
          try assumption; lia).
    rewrite bind_Ok; cbv beta.
    cbn [height set_width set_height].
    replace (height o + 1 + Z.of_nat d) with (height o + Z.of_nat (S d)) by lia.
    destruct fuel as [|fuel]; [lia|].
    rewrite while_loop_exit.
    + rewrite bind_Ok; cbv beta. cbn [auto_width set_width set_height].
      destruct (Z.eqb_spec (auto_width o) 0) as [|_]; [contradiction|].
      reflexivity.
    + cbn [width set_width]. apply Z.eqb_neq.
      pose proof (round_half_up_ratio_pos (2 * ((height o + Z.of_nat (S d)) * sw)) sh Hsh
                    ltac:(rewrite <- Hbh; lia)). lia.
Qed.

(** Derive-width mode returns, with the height bumped as far as needed
    and the width rounded from it. *)
Lemma calc_aspect_ratio_derives_width (o : options) (sw sh : Z) (fuel : nat) :
  auto_width o <> 0 -> auto_height o = 0 ->
  1 <= height o -> 1 <= sw -> 1 <= sh ->
  8 * height o * sw + 8 * sw + 3 * sh <= 2 ^ 24 ->
  (Z.to_nat sh + 2 <= fuel)%nat ->
  calc_aspect_ratio fuel sw sh o
  = Ok (set_width (set_height o (bumped_height (height o) sw sh))
          (round_half_up (2 * (bumped_height (height o) sw sh * sw)) sh)) /\
  1 <= round_half_up (2 * (bumped_height (height o) sw sh * sw)) sh.
Proof.
  intros Haw Hah Hh Hsw Hsh Hrange Hfuel.
  set (h' := bumped_height (height o) sw sh).
  destruct (bumped_height_spec (height o) sw sh Hsh Hsw) as (B1 & B2 & B3 & B4).
  fold h' in B1, B2, B3, B4.
  assert (height o <= h') as Hle by (unfold h', bumped_height; lia).
  assert (h' <= height o + sh) as Hup.
  { destruct (Z.eq_dec h' (height o)); [lia|]. specialize (B4 ltac:(lia)). nia. }
  assert (8 * (h' * sw) + sh < 2 ^ 24) as Hb.
  { destruct (Z.eq_dec h' (height o)) as [->|]; [lia|]. specialize (B4 ltac:(lia)). lia. }
  split.
  - pose proof (calc_aspect_ratio_bumps_height (Z.to_nat (h' - height o)) o sw sh fuel
                  Haw Hah Hh Hsw Hsh) as H.
    rewrite Z2Nat.id in H by lia.
    replace (height o + (h' - height o)) with h' in H by lia.
    apply H; [reflexivity|exact Hb|lia].
  - apply round_half_up_ratio_pos; lia.
Qed.

(** X9. Derive-width mode, the counterpart of derive-height: for a source
    of [sw] by [sh] pixels and a fixed height [h >= 1] with
    [8*h*sw + 8*sw + 3*sh <= 2^24], [calc_aspect_ratio] returns with the
    height [h' = max h (ceil (sh / (4*sw)))] -- [h] itself unless its
    width rounds to 0 -- and the width [floor (2*h'*sw / sh + 1/2)], which
    is at least 1. *)
Theorem derive_width_is_rounded_ratio (o : options) (sw sh : Z) (fuel : nat)
    (Hmode : auto_width o <> 0 /\ auto_height o = 0)
    (Hh : 1 <= height o) (Hsw : 1 <= sw) (Hsh : 1 <= sh)
    (Hrange : 8 * height o * sw + 8 * sw + 3 * sh <= 2 ^ 24)
    (Hfuel : (Z.to_nat sh + 2 <= fuel)%nat) :
  let h' := bumped_height (height o) sw sh in
  let w' := round_half_up (2 * (h' * sw)) sh in
  calc_aspect_ratio fuel sw sh o = Ok (set_width (set_height o h') w') /\
  1 <= w' /\
  (sh <= 4 * (height o * sw) -> h' = height o).
Proof.
  intros h' w'. destruct Hmode as [Haw Hah].
  destruct (calc_aspect_ratio_derives_width o sw sh fuel Haw Hah Hh Hsw Hsh
              Hrange Hfuel) as [E P].
  split; [exact E|]. split; [exact P|].
  apply (bumped_height_spec (height o) sw sh Hsh Hsw).
Qed.

Lemma derive_width_is_rounded_ratio_witness :
  calc_aspect_ratio 52 100 50 (set_auto_height (set_auto_width (set_height main_options 20) 1) 0)
  = Ok (set_width (set_auto_height (set_auto_width (set_height main_options 20) 1) 0) 80).
Proof.
  destruct (derive_width_is_rounded_ratio
              (set_auto_height (set_auto_width (set_height main_options 20) 1) 0)
              100 50 52) as (H & _ & _).
  - split; [discriminate|reflexivity].
  - vm_compute. discriminate.
  - lia.
  - lia.
  - vm_compute. discriminate.
  - lia.
  - exact H.
Defined.

(** ** Both dimensions given *)




(** ** What the aspect calculation keeps *)

Lemma while_loop_inv {St} (I : St -> Prop) (cond : St -> bool)
    (body : St -> result St) fuel : forall s s',
  I s ->
  (forall s s', I s -> cond s = true -> body s = Ok s' -> I s') ->
  while_loop fuel cond body s = Ok s' -> I s' /\ cond s' = false.
Proof.
  induction fuel as [|fuel IH]; intros s s' Hi Hstep H; [discriminate|].
  cbn [while_loop] in H. destruct (cond s) eqn:Ec.
  - apply bind_Ok_inv in H as (s1 & Hb & H). eapply IH; [|exact Hstep|exact H].
    eapply Hstep; eassumption.
  - injection H as <-. auto.
Qed.

Lemma calc_aspect_ratio_frame fuel : forall jw jh o o',
  calc_aspect_ratio fuel jw jh o = Ok o' ->
  same_but_sizes o o' /\
  (auto_width o <> 0 -> auto_height o = 0 ->
   height o <= height o' /\ width o' <> 0) /\
  (auto_width o = 0 -> auto_height o <> 0 ->
   width o <= width o' /\ height o' <> 0) /\
  ((auto_width o = 0 <-> auto_height o = 0) -> o' = o).
Proof.
  induction fuel as [|fuel IH]; intros jw jh o o' H; [discriminate|].
  cbn [calc_aspect_ratio] in H.
  apply bind_Ok_inv in H as (o1 & H1 & H2).
  destruct (Z.eqb_spec (auto_width o) 0) as [Ew|Nw],
           (Z.eqb_spec (auto_height o) 0) as [Eh|Nh];
    cbn [negb andb] in H1.
  - (* both fixed *)
    injection H1 as <-. rewrite Ew, Eh in H2. cbn [Z.eqb negb andb] in H2.
    injection H2 as <-. unfold same_but_sizes. repeat split; try tauto; try lia.
  - (* derive the height *)
    injection H1 as <-. rewrite Ew in H2.
    destruct (Z.eqb_spec (auto_height o) 0) as [|_]; [contradiction|].
    cbn [Z.eqb negb andb] in H2.
    apply bind_Ok_inv in H2 as (h & _ & Hloop).
    apply (while_loop_inv
             (fun s => same_but_sizes o s /\ width o <= width s)) in Hloop
      as [[Hf Hwd] Hc].
    + split; [exact Hf|]. split; [intros; lia|]. split.
      * intros _ _. split; [exact Hwd|]. apply Z.eqb_neq. exact Hc.
      * intros [Hx _]. specialize (Hx Ew). contradiction.
    + split; [unfold same_but_sizes; repeat split|cbn; lia].
    + intros s s' [Hf Hwd] _ Hb. apply bind_Ok_inv in Hb as (w & Ew' & Hcall).
      apply incr_Ok in Ew'. apply IH in Hcall as (Hf' & _ & Hh' & _).
      destruct Hf as (F1 & F2 & F3 & F4 & F5 & F6 & F7).
      destruct Hf' as (G1 & G2 & G3 & G4 & G5 & G6 & G7).
      cbn [verbose auto_height auto_width invert flipx flipy ascii_palette width
           set_width] in *.
      destruct Hh' as [Hh' _]; [congruence|congruence|].
      split; [unfold same_but_sizes; repeat split; congruence|lia].
  - (* derive the width *)
    apply bind_Ok_inv in H1 as (w & _ & Hloop).
    apply (while_loop_inv
             (fun s => same_but_sizes o s /\ height o <= height s)) in Hloop
      as [[Hf Hht] Hc].
    + pose proof Hf as (F1 & F2 & F3 & _). rewrite F3 in H2.
      destruct (Z.eqb_spec (auto_width o) 0) as [|_]; [contradiction|].
      cbn [andb] in H2. injection H2 as <-.
      split; [exact Hf|]. split.
      * intros _ _. split; [exact Hht|]. apply Z.eqb_neq. exact Hc.
      * split; [intros; contradiction|].
        intros [_ Hx]. specialize (Hx Eh). contradiction.
    + split; [unfold same_but_sizes; repeat split|cbn; lia].
    + intros s s' [Hf Hht] _ Hb. apply bind_Ok_inv in Hb as (h & Eh' & Hcall).
      apply incr_Ok in Eh'. apply IH in Hcall as (Hf' & Hw' & _ & _).
      destruct Hf as (F1 & F2 & F3 & F4 & F5 & F6 & F7).
      destruct Hf' as (G1 & G2 & G3 & G4 & G5 & G6 & G7).
      cbn [verbose auto_height auto_width invert flipx flipy ascii_palette height
           set_height] in *.
      destruct Hw' as [Hw' _]; [congruence|congruence|].
      split; [unfold same_but_sizes; repeat split; congruence|lia].
  - (* both counters set *)
    injection H1 as <-.
    destruct (Z.eqb_spec (auto_width o) 0) as [|_]; [contradiction|].
    cbn [andb] in H2. injection H2 as <-.
    unfold same_but_sizes. repeat split; try tauto; try lia.
Qed.

(** The calculation tests the counters against zero only. *)
Lemma calc_aspect_ratio_counter fuel : forall jw jh o k,
  auto_height o <> 0 -> k <> 0 ->
  calc_aspect_ratio fuel jw jh (set_auto_height o k)
  = (o' ← calc_aspect_ratio fuel jw jh o; Ok (set_auto_height o' k)).
Proof.
  induction fuel as [|fuel IH]; intros jw jh o k Hh Hk; [reflexivity|].
  cbn [calc_aspect_ratio].
  cbn [auto_width auto_height width height set_auto_height].
  destruct (Z.eqb_spec (auto_height o) 0) as [|_]; [contradiction|].
  destruct (Z.eqb_spec k 0) as [|_]; [contradiction|].
  rewrite !andb_false_r. rewrite !bind_Ok.
  cbn [auto_width auto_height width height set_auto_height].
  destruct (Z.eqb_spec (auto_height o) 0) as [|_]; [contradiction|].
  destruct (Z.eqb_spec k 0) as [|_]; [contradiction|].
  destruct (auto_width o =? 0); cbn [negb andb]; [|reflexivity].
  destruct (ROUND _) as [h| | |]; try reflexivity. rewrite !bind_Ok.
  change (set_height (set_auto_height o k) h) with (set_auto_height (set_height o h) k).
  assert (auto_height (set_height o h) <> 0) as Hs by exact Hh.
  generalize dependent (set_height o h). clear Hh o.
  assert (forall n s, auto_height s <> 0 ->
    while_loop n (fun o => height o =? 0)
      (fun o => w ← incr (width o);
                calc_aspect_ratio fuel jw jh (set_width o w))
      (set_auto_height s k)
    = (s' ← while_loop n (fun o => height o =? 0)
              (fun o => w ← incr (width o);
                        calc_aspect_ratio fuel jw jh (set_width o w)) s;
       Ok (set_auto_height s' k))) as W.
  { induction n as [|n IHn]; intros s Hs; [reflexivity|].
    cbn [while_loop]. cbn [height width set_auto_height].
    destruct (height s =? 0); [|reflexivity].
    destruct (incr (width s)) as [w| | |]; try reflexivity. rewrite !bind_Ok.
    change (set_width (set_auto_height s k) w) with (set_auto_height (set_width s w) k).
    rewrite IH by (try assumption; exact Hs).
    destruct (calc_aspect_ratio fuel jw jh (set_width s w)) as [s1| | |] eqn:E1;
      try reflexivity.
    rewrite !bind_Ok. apply IHn.
    apply calc_aspect_ratio_frame in E1 as ((_ & F2 & _) & _).
    rewrite F2. exact Hs. }
  intros s Hs. apply W, Hs.
Qed.

(** ** Standard input *)

Lemma dash_only s :
  starts_with_dash s && second_char_is_nul s = true <-> s = "-".
Proof.
  rewrite starts_with_dash_eqb. destruct s as [|c s].
  - cbn. split; [discriminate|discriminate].
  - destruct (Ascii.eqb_spec c "-") as [->|Hc].
    + destruct s; cbn; split; congruence.
    + cbn. split; [discriminate|congruence].
Qed.

(** X10. What [calc_aspect_ratio] keeps, whenever it returns: it changes
    [width] and [height] only.  In derive-width mode the given height
    never shrinks and the width it leaves is not 0; in derive-height mode
    the given width never shrinks and the height it leaves is not 0; when
    both counters are zero or both are non-zero nothing changes. *)
Theorem aspect_calculation_changes_sizes_only (fuel : nat) (jw jh : Z)
    (o o' : options)
    (Hcalc : calc_aspect_ratio fuel jw jh o = Ok o') :
  same_but_sizes o o' /\
  (auto_width o <> 0 -> auto_height o = 0 ->
   height o <= height o' /\ width o' <> 0) /\
  (auto_width o = 0 -> auto_height o <> 0 ->
   width o <= width o' /\ height o' <> 0) /\
  ((auto_width o = 0 <-> auto_height o = 0) -> o' = o).
Proof. exact (calc_aspect_ratio_frame fuel jw jh o o' Hcalc). Qed.

Lemma aspect_calculation_changes_sizes_only_witness :
  same_but_sizes main_options (set_height (set_width main_options 8) 1).
Proof.
  apply (aspect_calculation_changes_sizes_only 12 8 1 (set_width main_options 2)
           (set_height (set_width main_options 8) 1)).
  vm_compute. reflexivity.
Defined.

(** X11. The usage text's "the default running mode is 'jtoa
    --width=78'": without a sizing option [parse_options] leaves width 78
    in derive-height mode, [--width=78] does the same with the counter
    [auto_height] at 2 instead of 1, and [calc_aspect_ratio] gives the
    same result for every non-zero value of that counter. *)
Theorem default_mode_is_width_78 (args args' : list string) (o o' : options)
    (msgs msgs' : list string)
    (Hnone : sizing_args args = [])
    (Hwidth : sizing_args args' = [AWidth 78])
    (Hparse : parse_options args main_options = Ok (-1, o, msgs))
    (Hparse' : parse_options args' main_options = Ok (-1, o', msgs')) :
  sizing_state o = (0, 1, 78, 0) /\
  sizing_state o' = (0, 2, 78, 0) /\
  forall fuel jw jh k, k <> 0 ->
    calc_aspect_ratio fuel jw jh (set_auto_height o k)
    = (r ← calc_aspect_ratio fuel jw jh o; Ok (set_auto_height r k)).
Proof.
  apply parse_options_success in Hparse as (f & o1 & Hl & Ho & _).
  apply parse_options_success in Hparse' as (f' & o1' & Hl' & Ho' & _).
  apply parse_loop_sizing in Hl as [Hs _]. apply parse_loop_sizing in Hl' as [Hs' _].
  rewrite Hnone in Hs. rewrite Hwidth in Hs'. cbn in Hs, Hs'.
  unfold sizing_state in Hs, Hs'.
  injection Hs as A1 A2 A3 A4. injection Hs' as B1 B2 B3 B4.
  change (1 + 1) with 2 in B2.
  repeat first [ rewrite A1 in Ho | rewrite A2 in Ho
               | progress cbn [Z.eqb Pos.eqb andb] in Ho ].
  repeat first [ rewrite B1 in Ho' | rewrite B2 in Ho'
               | progress cbn [Z.eqb Pos.eqb andb] in Ho' ].
  subst o o'.
  split; [unfold sizing_state; congruence|].
  split; [unfold sizing_state; congruence|].
  intros fuel jw jh k Hk. apply calc_aspect_ratio_counter; [lia|exact Hk].
Qed.

Lemma default_mode_is_width_78_witness :
  sizing_state main_options = (0, 1, 78, 0) /\
  sizing_state (set_auto_height (set_width main_options 78) 2) = (0, 2, 78, 0).
Proof.
  destruct (default_mode_is_width_78 ["a.jpg"] ["--width=78"; "a.jpg"]
              main_options (set_auto_height (set_width main_options 78) 2) [] [])
    as (H1 & H2 & _).
  - reflexivity.
  - vm_compute. reflexivity.
  - vm_compute. reflexivity.
  - vm_compute. reflexivity.
  - split; assumption.
Defined.

(** X12. The argument [-] is read from standard input and never opened as
    a file: the file loop gives the same result in two environments that
    differ only in what [fopen] would answer for the name [-]. *)
Theorem dash_is_never_opened (fuel : nat) (e e' : env) (args : list string)
    (w : world)
    (Hstdin : stdin e = stdin e')
    (Hfopen : forall s, s <> "-" -> fopen e s = fopen e' s) :
  main_loop fuel e args w = main_loop fuel e' args w.
Proof.
  revert w. induction args as [|s args IH]; intros w; [reflexivity|].
  cbn [main_loop].
  destruct (starts_with_dash s && negb (second_char_is_nul s)); [apply IH|].
  destruct (starts_with_dash s && second_char_is_nul s) eqn:Ed.
  - rewrite <- Hstdin.
    destruct (decompress fuel _ _) as [[r w1]| | |] eqn:E; try reflexivity.
    rewrite !bind_Ok. cbv beta iota.
    apply decompress_returns_0 in E as ->. cbn [Z.eqb]. apply IH.
  - assert (s <> "-") as Hs by (intros ->; discriminate Ed).
    rewrite <- (Hfopen s Hs). destruct (fopen e s) as [fp|]; [|reflexivity].
    destruct (decompress fuel fp _) as [[r w1]| | |]; try reflexivity.
    rewrite !bind_Ok. cbv beta iota. destruct (negb (r =? 0)); [reflexivity|apply IH].
Qed.

Lemma dash_is_never_opened_witness :
  main_loop 2 one_file ["-"; "a.jpg"] (first_file sized_1x2)
  = main_loop 2 {| fopen := fun s => if String.eqb s "-" then Some Corrupt
                                     else fopen one_file s;
                   stdin := Corrupt |}
      ["-"; "a.jpg"] (first_file sized_1x2).
Proof.
  apply dash_is_never_opened.
  - reflexivity.
  - intros s Hs. cbn [fopen]. destruct (String.eqb_spec s "-"); [contradiction|reflexivity].
Defined.

(** ** Numbers on the command line *)

Lemma list_ascii_of_string_app a b :
  list_ascii_of_string (a ++ b)
  = (list_ascii_of_string a ++ list_ascii_of_string b)%list.
Proof.
  induction a as [|c a IH]; [reflexivity|].
  change (String c a ++ b) with (String c (a ++ b)).
  cbn [list_ascii_of_string List.app]. rewrite IH. reflexivity.
Qed.

Lemma digit_pretty_N_char x :
  (x < 10)%N -> digit (pretty_N_char x) = Some (Z.of_N x).
Proof.
  intros H.
  assert (x = 0 \/ x = 1 \/ x = 2 \/ x = 3 \/ x = 4 \/ x = 5 \/ x = 6 \/ x = 7
          \/ x = 8 \/ x = 9)%N as Hx by lia.
  repeat (destruct Hx as [->|Hx]; [reflexivity|]). subst x. reflexivity.
Qed.

Lemma digit_not_sign c d (s : list ascii) :
  digit c = Some d ->
  is_space c = false /\
  match c :: s with
  | "-"%char :: s' => (true, s')
  | "+"%char :: s' => (false, s')
  | _ => (false, c :: s)
  end = (false, c :: s).
Proof.
  intros H. destruct c as [[] [] [] [] [] [] [] []]; try discriminate H;
    split; reflexivity.
Qed.

Lemma pretty_N_go_app x : forall s t,
  pretty_N_go x s ++ t = pretty_N_go x (s ++ t).
Proof.
  induction (N.lt_wf_0 x) as [x _ IH]. intros s t.
  destruct (N.eq_dec x 0%N) as [->|Hx].
  - rewrite !pretty_N_go_0. reflexivity.
  - rewrite (pretty_N_go_step x s), (pretty_N_go_step x (s ++ t)) by lia.
    rewrite IH by (apply N.div_lt; lia). reflexivity.
Qed.

Lemma scan_digits_pretty_N_go x : forall s,
  scan_digits 0 (list_ascii_of_string (pretty_N_go x s))
  = scan_digits (Z.of_N x) (list_ascii_of_string s).
Proof.
  induction (N.lt_wf_0 x) as [x _ IH]. intros s.
  destruct (N.eq_dec x 0%N) as [->|Hx].
  - rewrite pretty_N_go_0. reflexivity.
  - rewrite pretty_N_go_step by lia. rewrite IH by (apply N.div_lt; lia).
    cbn [list_ascii_of_string scan_digits].
    rewrite digit_pretty_N_char by (apply N.mod_lt; lia).
    f_equal. pose proof (N.div_mod x 10%N ltac:(lia)). lia.
Qed.

Lemma pretty_N_go_head x : forall s,
  (0 < x)%N ->
  exists c rest d,
    list_ascii_of_string (pretty_N_go x s) = c :: rest /\ digit c = Some d.
Proof.
  induction (N.lt_wf_0 x) as [x _ IH]. intros s Hx.
  rewrite pretty_N_go_step by lia.
  destruct (N.eq_dec (x `div` 10)%N 0%N) as [E|E].
  - rewrite E, pretty_N_go_0. cbn [list_ascii_of_string].
    eexists _, _, _. split; [reflexivity|].
    apply digit_pretty_N_char, N.mod_lt. lia.
  - apply IH; [apply N.div_lt; lia|apply N.neq_0_lt_0, E].
Qed.

Lemma scan_digits_stop acc junk :
  no_leading_digit junk = true ->
  scan_digits acc (list_ascii_of_string junk) = (acc, list_ascii_of_string junk).
Proof.
  destruct junk as [|c junk]; [reflexivity|]. cbn.
  destruct (digit c); [discriminate|reflexivity].
Qed.

Lemma scan_int_natural x junk :
  Z.of_N x <= INT_MAX -> no_leading_digit junk = true ->
  scan_int (list_ascii_of_string (pretty x ++ junk))
  = Ok (Some (Z.of_N x, list_ascii_of_string junk)).
Proof.
  intros Hmax Hj. unfold pretty, pretty_N.
  destruct (decide (x = 0)%N) as [->|Hx].
  - change ("0" ++ junk) with (String "0" junk).
    cbn [list_ascii_of_string]. unfold scan_int.
    cbn [skip_spaces is_space].
    change (is_space "0") with false. cbv iota.
    change (digit "0") with (Some 0). cbv iota.
    cbn [scan_digits]. change (digit "0") with (Some 0). cbv iota.
    rewrite scan_digits_stop by exact Hj. reflexivity.
  - rewrite pretty_N_go_app. change (EmptyString ++ junk) with junk.
    destruct (pretty_N_go_head x junk ltac:(lia)) as (c & rest & d & E & Hd).
    pose proof (scan_digits_pretty_N_go x junk) as Hs.
    rewrite (scan_digits_stop (Z.of_N x) junk Hj) in Hs.
    rewrite E in Hs |- *.
    destruct (digit_not_sign c d rest Hd) as [Hsp Hsign].
    unfold scan_int. cbn [skip_spaces]. rewrite Hsp, Hsign, Hd, Hs.
    unfold INT_MIN, INT_MAX in *.
    destruct (Z.leb_spec (-2147483648) (Z.of_N x)); [|lia].
    destruct (Z.leb_spec (Z.of_N x) 2147483647); [|lia]. reflexivity.
Qed.

Lemma scan_int_decimal n junk :
  INT_MIN <= n <= INT_MAX -> no_leading_digit junk = true ->
  scan_int (list_ascii_of_string (pretty n ++ junk))
  = Ok (Some (n, list_ascii_of_string junk)).
Proof.
  intros Hn Hj. destruct n as [|p|p].
  - change (pretty 0) with (pretty 0%N). apply (scan_int_natural 0%N); [|exact Hj].
    unfold INT_MAX. cbn. lia.
  - change (pretty (Zpos p)) with (pretty (Npos p)).
    apply (scan_int_natural (Npos p)); [|exact Hj]. cbn. lia.
  - change (pretty (Zneg p) ++ junk) with (String "-" (pretty (Npos p) ++ junk)).
    cbn [list_ascii_of_string]. unfold pretty, pretty_N.
    destruct (decide (Npos p = 0)%N) as [|_]; [discriminate|].
    rewrite pretty_N_go_app. change (EmptyString ++ junk) with junk.
    destruct (pretty_N_go_head (Npos p) junk ltac:(lia)) as (c & rest & d & E & Hd).
    pose proof (scan_digits_pretty_N_go (Npos p) junk) as Hs.
    rewrite (scan_digits_stop (Z.of_N (Npos p)) junk Hj) in Hs.
    rewrite E in Hs |- *.
    unfold scan_int. cbn [skip_spaces]. change (is_space "-") with false. cbv iota.
    rewrite Hd, Hs. cbn [Z.of_N]. change (- Z.pos p) with (Z.neg p).
    unfold INT_MIN, INT_MAX in *.
    destruct (Z.leb_spec (-2147483648) (Zneg p)); [|lia].
    destruct (Z.leb_spec (Zneg p) 2147483647); [|lia]. reflexivity.
Qed.

Lemma classify_width t n rest :
  scan_int (list_ascii_of_string t) = Ok (Some (n, rest)) ->
  classify ("--width=" ++ t) = Ok (AWidth n).
Proof.
  intros H.
  change ("--width=" ++ t)
    with (String "-" (String "-" (String "w" (String "i" (String "d"
            (String "t" (String "h" (String "=" t)))))))).
  unfold classify, scan_one.
  cbn [starts_with_dash negb String.eqb Ascii.eqb Bool.eqb orb andb
       list_ascii_of_string strip_prefix].
  rewrite H. reflexivity.
Qed.

Lemma classify_height t n rest :
  scan_int (list_ascii_of_string t) = Ok (Some (n, rest)) ->
  classify ("--height=" ++ t) = Ok (AHeight n).
Proof.
  intros H.
  change ("--height=" ++ t)
    with (String "-" (String "-" (String "h" (String "e" (String "i"
            (String "g" (String "h" (String "t" (String "=" t))))))))).
  unfold classify, scan_one.
  cbn [starts_with_dash negb String.eqb Ascii.eqb Bool.eqb orb andb
       list_ascii_of_string strip_prefix].
  rewrite H. reflexivity.
Qed.

(** X13. A number option is read by [sscanf] alone: [--width=] or
    [--height=] followed by the decimal form of an [int] -- the form
    [print_info] prints -- is that option with that value, and whatever
    follows the digits is ignored ([--width=40px] is [--width=40]). *)
Theorem number_options_ignore_trailing_text (n : Z) (junk : string)
    (Hn : F32.INT_MIN <= n <= F32.INT_MAX)
    (Hjunk : no_leading_digit junk = true) :
  classify ("--width=" ++ pretty n ++ junk) = Ok (AWidth n) /\
  classify ("--height=" ++ pretty n ++ junk) = Ok (AHeight n).
Proof.
  pose proof (scan_int_decimal n junk Hn Hjunk) as H.
  split; [eapply classify_width, H|eapply classify_height, H].
Qed.

Lemma number_options_ignore_trailing_text_witness :
  classify "--width=40px" = Ok (AWidth 40) /\
  classify "--height=-7 rows" = Ok (AHeight (-7)).
Proof.
  split.
  - apply (number_options_ignore_trailing_text 40 "px"); [vm_compute|reflexivity].
    split; discriminate.
  - apply (number_options_ignore_trailing_text (-7) " rows"); [vm_compute|reflexivity].
    split; discriminate.
Defined.

(** ** Intensity of a pixel *)

(** Sums of integers below [2^24] are computed exactly. *)
Lemma add_exact a b :
  0 <= a -> 0 <= b -> a + b < 2 ^ 24 ->
  add (Fin false (a * one_u)) (Fin false (b * one_u)) = Fin false ((a + b) * one_u).
Proof.
  intros Ha Hb Hab. pose proof one_u_pos as P. cbn [add signed andb].
  destruct (Z.eqb_spec (a * one_u + b * one_u) 0) as [E|N].
  - assert (a = 0 /\ b = 0) as [-> ->] by nia. reflexivity.
  - destruct (Z.ltb_spec (a * one_u + b * one_u) 0); [nia|].
    rewrite Z.abs_eq by nia.
    replace (a * one_u + b * one_u) with ((a + b) * 2 ^ 149) by (unfold one_u; ring).
    rewrite F32Agree.round_valid;
      [reflexivity|apply representable_scaled; lia|apply top_u_big; lia].
Qed.

Lemma sum_app l1 l2 :
  fold_right Z.add 0 (l1 ++ l2)%list = fold_right Z.add 0 l1 + fold_right Z.add 0 l2.
Proof. induction l1 as [|a l1 IH]; cbn; [reflexivity|rewrite IH; lia]. Qed.

Lemma samples_sum_0 scanline off : samples_sum scanline off 0 = 0.
Proof. reflexivity. Qed.

Lemma samples_sum_step scanline off k s :
  0 <= off -> 0 <= k -> scanline !! Z.to_nat (off + k) = Some s ->
  samples_sum scanline off (k + 1) = samples_sum scanline off k + s.
Proof.
  intros Ho Hk Hs. unfold samples_sum.
  replace (Z.to_nat (k + 1)) with (S (Z.to_nat k)) by lia.
  rewrite (take_S_r _ _ s).
  - rewrite sum_app. cbn. lia.
  - rewrite lookup_drop. replace (Z.to_nat off + Z.to_nat k)%nat with (Z.to_nat (off + k)) by lia.
    exact Hs.
Qed.

Lemma samples_sum_bounds scanline off k :
  eight_bit scanline -> 0 <= k ->
  0 <= samples_sum scanline off k <= 255 * k.
Proof.
  intros H8 Hk. unfold samples_sum.
  assert (forall l : list Z, (forall j s, l !! j = Some s -> 0 <= s <= 255) ->
          0 <= fold_right Z.add 0 l <= 255 * Z.of_nat (length l)) as B.
  { induction l as [|a l IH]; intros Hl; [cbn; lia|].
    pose proof (Hl 0%nat a eq_refl). 
    specialize (IH (fun j s E => Hl (S j) s E)). cbn [fold_right length]. lia. }
  set (l := take _ _).
  assert (Z.of_nat (length l) <= k) by (unfold l; rewrite length_take; lia).
  specialize (B l). destruct B as [B1 B2]; [|lia].
  intros j s E. unfold l in E. apply lookup_take_Some in E as [E _].
  rewrite lookup_drop in E. eapply H8, E.
Qed.

Lemma intensity_value scanline off c :
  eight_bit scanline -> 1 <= c -> 255 * c < 2 ^ 24 ->
  0 <= off -> off + c <= Z.of_nat (length scanline) ->
  intensity scanline off c
  = Ok (div (of_Z (samples_sum scanline off c)) (of_Z (255 * c))).
Proof.
  intros H8 Hc Hb Ho Hl. unfold intensity.
  assert (forall k, 0 <= k < c -> exists s,
            scanline !! Z.to_nat (off + k) = Some s /\ 0 <= s <= 255) as Hs.
  { intros k Hk. destruct (lookup_lt_is_Some_2 scanline (Z.to_nat (off + k))) as [s E];
      [lia|]. exists s. split; [exact E|]. eapply H8, E. }
  assert (forall k, 0 <= k < c -> exists s,
            sample scanline (off + k) = Ok (Fin false (s * one_u)) /\
            scanline !! Z.to_nat (off + k) = Some s /\ 0 <= s <= 255) as Hsample.
  { intros k Hk. destruct (Hs k Hk) as (s & E & B). exists s. split; [|auto].
    unfold sample. rewrite (get_Some _ _ s) by (try assumption; lia).
    rewrite bind_Ok. rewrite of_Z_exact by lia. reflexivity. }
  destruct (Hsample 0 ltac:(lia)) as (s0 & E0 & L0 & B0).
  rewrite Z.add_0_r in E0. rewrite E0, bind_Ok.
  destruct (for_loop_inv
              (fun k v => v = Fin false (samples_sum scanline off k * one_u))
              (Z.to_nat (c - 1)) 1
              (fun c0 v => s ← sample scanline (off + c0); Ok (add v s))
              (Fin false (s0 * one_u))) as (v & Ev & Iv).
  - pose proof (samples_sum_step scanline off 0 s0 Ho ltac:(lia) L0) as E1.
    change (0 + 1) with 1 in E1. rewrite E1, samples_sum_0. reflexivity.
  - intros k v Hk ->. destruct (Hsample k ltac:(lia)) as (s & E & L & B).
    rewrite E, bind_Ok.
    pose proof (samples_sum_bounds scanline off k H8 ltac:(lia)).
    eexists. split; [reflexivity|].
    rewrite add_exact by lia. rewrite (samples_sum_step scanline off k s) by (try assumption; lia).
    reflexivity.
  - rewrite Ev, bind_Ok. replace (1 + Z.of_nat (Z.to_nat (c - 1))) with c in Iv by lia.
    rewrite Iv. pose proof (samples_sum_bounds scanline off c H8 ltac:(lia)).
    rewrite !of_Z_exact by lia. unfold c255.
    rewrite (mul_exact _ _ (255 * c * one_u)).
    + reflexivity.
    + unfold one_u. apply representable_scaled; lia.
    + ring.
    + unfold one_u. apply top_u_big; lia.
Qed.

(** A quotient of a sum by its greatest possible value. *)
Lemma div_unit_interval s d :
  0 <= s <= d -> 1 <= d -> d < 2 ^ 24 ->
  exists u, div (of_Z s) (of_Z d) = Fin false u /\ 0 <= u <= one_u /\
            (s = 0 -> u = 0) /\ (s = d -> u = one_u).
Proof.
  intros Hs Hd Hb. pose proof one_u_pos as P.
  rewrite !of_Z_exact by lia. cbn [div xorb].
  destruct (Z.eqb_spec (d * one_u) 0); [nia|].
  assert (representable one_u) as R1
    by (replace one_u with (1 * 2 ^ 149) by reflexivity; apply representable_scaled; lia).
  assert (round_mag (s * one_u * one_u) (d * one_u) <= one_u) as U.
  { apply round_mag_le; [nia|nia|exact R1|nia]. }
  rewrite round_Fin
    by (eapply Z.le_lt_trans; [exact U|]; rewrite top_u_eq; nia).
  eexists. split; [reflexivity|]. split; [|split].
  - split; [apply round_mag_nonneg; nia|exact U].
  - intros ->. cbn [Z.mul]. apply (round_mag_exact 0 (d * one_u)); [|nia].
    apply representable_small; lia.
  - intros ->. replace (d * one_u * one_u) with (one_u * (d * one_u)) by ring.
    apply round_mag_exact; [exact R1|nia].
Qed.

(** X14. The intensity of a pixel is the mean of its [c] samples on the
    scale of 255, rounded once: the sum of the samples and the divisor
    [255 * c] are computed exactly in single precision.  The value lies
    between 0 and 1, is 0 for an all-black and exactly 1 for an all-white
    pixel. *)
Theorem intensity_is_rounded_mean (scanline : list Z) (off c : Z)
    (H8 : eight_bit scanline)
    (Hc : 1 <= c) (Hbig : 255 * c < 2 ^ 24)
    (Hoff : 0 <= off) (Hin : off + c <= Z.of_nat (length scanline)) :
  let total := samples_sum scanline off c in
  exists u,
    intensity scanline off c = Ok (F32.Fin false u) /\
    F32.Fin false u = F32.div (F32.of_Z total) (F32.of_Z (255 * c)) /\
    0 <= total <= 255 * c /\
    0 <= u <= F32.one_u /\
    (total = 0 -> u = 0) /\
    (total = 255 * c -> u = F32.one_u).
Proof.
  intros total.
  pose proof (samples_sum_bounds scanline off c H8 ltac:(lia)) as B. fold total in B.
  destruct (div_unit_interval total (255 * c) B ltac:(lia) Hbig) as (u & E & Hu & H0 & H1).
  exists u. rewrite intensity_value by assumption. fold total. rewrite E.
  repeat split; try tauto; lia.
Qed.

Lemma intensity_is_rounded_mean_witness :
  exists u, intensity [10; 20; 30; 255; 255; 255] 3 3 = Ok (F32.Fin false u) /\
            u = F32.one_u.
Proof.
  destruct (intensity_is_rounded_mean [10; 20; 30; 255; 255; 255] 3 3)
    as (u & E & _ & _ & _ & _ & H1).
  - intros j s Hj. repeat (destruct j as [|j]; [injection Hj as <-; lia|]). discriminate.
  - lia.
  - lia.
  - lia.
  - cbn. lia.
  - exists u. split; [exact E|]. apply H1. reflexivity.
Defined.

(** ** The printed lines *)

Lemma palette_char_rev p chars pos :
  strlen p = chars + 1 ->
  palette_char (rev_line p) (chars - pos) = palette_char p pos.
Proof.
  intros Hl. unfold palette_char, rev_line.
  rewrite list_ascii_of_string_of_list_ascii.
  unfold strlen in Hl. rewrite <- length_list_ascii_of_string in Hl.
  set (l := list_ascii_of_string p) in *. unfold get.
  destruct (Z.ltb_spec pos 0) as [Hn|Hn].
  - destruct (Z.ltb_spec (chars - pos) 0); [reflexivity|].
    rewrite (lookup_ge_None_2 (rev l)); [reflexivity|]. rewrite length_rev. lia.
  - destruct (Z.ltb_spec (chars - pos) 0) as [Hm|Hm].
    + rewrite (lookup_ge_None_2 l); [reflexivity|lia].
    + rewrite rev_reverse, reverse_lookup by lia. f_equal. f_equal. lia.
Qed.

Lemma print_cell_invert o i chars row x :
  strlen (ascii_palette o) = chars + 1 -> invert o <> 0 ->
  print_cell (set_ascii_palette (set_invert o 0) (rev_line (ascii_palette o)))
    i chars row x
  = print_cell o i chars row x.
Proof.
  intros Hl Hi. unfold print_cell.
  destruct (get (Image.pixel i) _) as [v| | |]; try reflexivity. rewrite !bind_Ok.
  destruct (ROUND _) as [pos| | |]; try reflexivity. rewrite !bind_Ok.
  cbn [invert ascii_palette set_ascii_palette set_invert Z.eqb].
  destruct (Z.eqb_spec (invert o) 0); [contradiction|].
  apply palette_char_rev, Hl.
Qed.

Lemma collect_total {A} (f : Z -> result A) n : forall x,
  (forall k, x <= k < x + Z.of_nat n -> exists a, f k = Ok a) ->
  exists ls, collect f n x = Ok ls.
Proof.
  induction n as [|n IH]; intros x H; [exists []; reflexivity|].
  destruct (H x ltac:(lia)) as [a Ea].
  destruct (IH (x + 1)) as [ls El]; [intros k Hk; apply H; lia|].
  exists (a :: ls). cbn [collect]. rewrite Ea, bind_Ok, El. reflexivity.
Qed.

Lemma palette_char_In p idx c :
  palette_char p idx = Ok c -> In c (list_ascii_of_string p).
Proof.
  unfold palette_char. intros H. apply get_Ok in H as [_ H].
  apply list_elem_of_In. eapply list_elem_of_lookup_2, H.
Qed.

Lemma print_image_shape o i chars lines :
  print_image o i chars = Ok lines ->
  length lines = Z.to_nat (Image.height i) /\
  forall line, In line lines ->
    String.length line = Z.to_nat (Image.width i) /\
    forall c, In c (list_ascii_of_string line) ->
              In c (list_ascii_of_string (ascii_palette o)).
Proof.
  intros Hprint.
  rewrite print_image_lines in Hprint.
  apply bind_Ok_inv in Hprint as (ls & Hc & H). injection H as <-.
  apply collect_Ok_iff in Hc as [Hlen Hrows].
  split; [rewrite length_map; exact Hlen|].
  intros line Hin. apply in_map_iff in Hin as (cs & <- & Hin).
  apply list_elem_of_In, list_elem_of_lookup_1 in Hin as [k Hk].
  apply Hrows in Hk. unfold line_of in Hk.
  apply bind_Ok_inv in Hk as (cs0 & Hcs & H). injection H as <-.
  apply collect_Ok_iff in Hcs as [Hw Hcells].
  assert (forall c, In c cs0 -> In c (list_ascii_of_string (ascii_palette o))) as Hpal.
  { intros c Hc. apply list_elem_of_In, list_elem_of_lookup_1 in Hc as [j Hj].
    apply Hcells in Hj. unfold print_cell in Hj.
    apply bind_Ok_inv in Hj as (v & _ & Hj). apply bind_Ok_inv in Hj as (pos & _ & Hj).
    eapply palette_char_In, Hj. }
  rewrite <- length_list_ascii_of_string, list_ascii_of_string_of_list_ascii.
  destruct (flipx o =? 0).
  - split; [exact Hw|exact Hpal].
  - split; [rewrite length_rev; exact Hw|].
    intros c Hc. apply Hpal. apply in_rev. exact Hc.
Qed.

(** X15. Inverting is reversing the palette: when the palette has
    [chars + 1] characters, as in the call from [decompress], the lines
    printed with [invert] set are the lines printed with [invert] unset
    and the palette read from right to left. *)
Theorem invert_is_palette_reversal (o : options) (i : Image.t) (chars : Z)
    (lines : list string)
    (Hlen : strlen (ascii_palette o) = chars + 1)
    (Hinv : invert o <> 0) :
  print_image o i chars = Ok lines <->
  print_image (set_ascii_palette (set_invert o 0) (rev_line (ascii_palette o)))
    i chars = Ok lines.
Proof.
  assert (print_image (set_ascii_palette (set_invert o 0) (rev_line (ascii_palette o)))
            i chars = print_image o i chars) as E.
  { rewrite !print_image_lines. f_equal. apply collect_ext. intros y _.
    unfold line_of. cbn [flipx flipy set_ascii_palette set_invert].
    f_equal. apply collect_ext. intros x _. apply print_cell_invert; assumption. }
  rewrite E. tauto.
Qed.

Lemma invert_is_palette_reversal_witness :
  print_image (set_ascii_palette main_options "MWNXK0Okxdolc:;,'...   ") checker 22
  = Ok [" l"; "M "].
Proof.
  apply (invert_is_palette_reversal (set_invert main_options 1) checker 22 [" l"; "M "]).
  - reflexivity.
  - discriminate.
  - vm_compute. reflexivity.
Defined.

(** ** The row a source row is mapped to *)

Lemma row_units_mono h H n n' :
  1 <= h -> 2 <= H -> 1 <= n <= n' ->
  row_units h H n <= row_units h H n'.
Proof.
  intros Hh HH Hn. unfold row_units. pose proof one_u_pos as P.
  assert (0 < 2 ^ 148) as PP by (apply Z.pow_pos_nonneg; lia).
  set (r := round_mag ((h - 1) * one_u * one_u) ((H - 1) * one_u)).
  assert (0 <= r) as Hr by (apply round_mag_nonneg; nia).
  assert (r * ((n - 1) * one_u) <= r * ((n' - 1) * one_u)) as M1.
  { apply Z.mul_le_mono_nonneg_l; [exact Hr|]. apply Z.mul_le_mono_nonneg_r; lia. }
  assert (0 <= r * ((n - 1) * one_u)) as N1.
  { apply Z.mul_nonneg_nonneg; [exact Hr|]. apply Z.mul_nonneg_nonneg; lia. }
  set (a := r * ((n - 1) * one_u)) in *. set (a' := r * ((n' - 1) * one_u)) in *.
  assert (round_mag a one_u <= round_mag a' one_u) as M2.
  { apply round_mag_mono; try lia. apply Z.mul_le_mono_nonneg_r; lia. }
  assert (0 <= round_mag a one_u) by (apply round_mag_nonneg; lia).
  apply round_mag_mono; lia.
Qed.

Lemma row_units_first h H : row_units h H 1 = 2 ^ 148.
Proof.
  unfold row_units. replace (1 - 1) with 0 by lia.
  rewrite Z.mul_0_l, Z.mul_0_r.
  replace (round_mag 0 one_u) with 0
    by (symmetry; apply (round_mag_exact 0 one_u);
        [apply representable_small; lia|apply one_u_pos]).
  rewrite Z.add_0_r.
  pose proof (round_mag_exact (2 ^ 148) 1) as E. rewrite Z.mul_1_r in E.
  apply E; [|lia]. replace (2 ^ 148) with (1 * 2 ^ 148) by lia.
  apply representable_scaled; lia.
Qed.

Lemma row_units_last h H :
  1 <= h <= 2 ^ 22 -> 2 <= H <= 2 ^ 22 ->
  (h - 1) * one_u <= row_units h H H < h * one_u.
Proof.
  intros Hh HH. unfold row_units. pose proof one_u_pos as P.
  assert (0 < 2 ^ 147) as PQ by (apply Z.pow_pos_nonneg; lia).
  assert (one_u = 4 * 2 ^ 147) as E1 by reflexivity.
  assert (2 ^ 148 = 2 * 2 ^ 147) as E2 by reflexivity.
  set (Q := 2 ^ 147) in *.
  set (a := h - 1) in *. set (d := H - 1) in *.
  replace h with (a + 1) by (unfold a; lia).
  assert (0 <= a <= 2 ^ 22 - 1) as Ha by (unfold a; lia).
  assert (1 <= d <= 2 ^ 22) as Hd by (unfold d; lia).
  set (r := round_mag (a * one_u * one_u) (d * one_u)).
  assert (0 <= r) as Hr by (apply round_mag_nonneg; nia).
  set (p := round_mag (r * (d * one_u)) one_u).
  destruct (Z.eq_dec a 0) as [A0|A1].
  - (* a grid of one row *)
    assert (r = 0) as ->.
    { unfold r. rewrite A0. cbn [Z.mul].
      apply (round_mag_exact 0 (d * one_u)); [apply representable_small; lia|nia]. }
    assert (p = 0) as ->.
    { unfold p. rewrite Z.mul_0_l.
      apply (round_mag_exact 0 one_u); [apply representable_small; lia|lia]. }
    rewrite Z.add_0_r.
    assert (round_mag (2 ^ 148) 1 = 2 ^ 148) as ->.
    { pose proof (round_mag_exact (2 ^ 148) 1) as E. rewrite Z.mul_1_r in E.
      apply E; [|lia]. replace (2 ^ 148) with (1 * 2 ^ 148) by lia.
      apply representable_scaled; lia. }
    rewrite A0. lia.
  - assert (2 ^ 47 <= Q) as Qbig by (unfold Q; apply Z.pow_le_mono_r; lia).
    pose proof (round_mag_error (a * one_u * one_u) (d * one_u) ltac:(nia)) as Er.
    fold r in Er.
    assert (2 ^ 23 * (d * one_u) <= a * one_u * one_u) as N1.
    { assert (2 ^ 23 * d <= a * one_u) by nia.
      replace (2 ^ 23 * (d * one_u)) with (2 ^ 23 * d * one_u) by ring.
      apply Z.mul_le_mono_nonneg_r; lia. }
    specialize (Er N1).
    set (E := 2 ^ 24) in *.
    assert (0 < E) as PE by (unfold E; lia).
    (* cancel one factor [one_u] *)
    assert ((E - 1) * (a * one_u) <= E * (r * d) <= (E + 1) * (a * one_u)) as Erd.
    { split; apply (Z.mul_le_mono_pos_r _ _ one_u P); lia. }
    set (rd := r * d) in *.
    assert (r * (d * one_u) = rd * one_u) as Ep by (unfold rd; ring).
    assert ((2 * a - 1) * (2 * Q) <= p <= (4 * a + 1) * Q) as [Lp Up].
    { unfold p. rewrite Ep. split.
      - apply round_mag_ge; [lia| |].
        + replace ((2 * a - 1) * (2 * Q)) with ((2 * a - 1) * 2 ^ 148)
            by (unfold Q; change (2 ^ 148) with (2 * 2 ^ 147); ring).
          apply representable_scaled; lia.
        + apply Z.mul_le_mono_nonneg_r; [lia|].
          apply (Z.mul_le_mono_pos_l _ _ E PE).
          eapply Z.le_trans; [|apply Erd]. rewrite E1. unfold E in *. nia.
      - apply round_mag_le; [nia|lia| |].
        + unfold Q. apply representable_scaled; lia.
        + apply Z.mul_le_mono_nonneg_r; [lia|].
          apply (Z.mul_le_mono_pos_l _ _ E PE).
          eapply Z.le_trans; [apply Erd|]. rewrite E1. unfold E in *. nia. }
    split.
    + apply round_mag_ge; [lia| |].
      * replace (a * one_u) with (a * 2 ^ 149) by reflexivity.
        apply representable_scaled; lia.
      * rewrite E1, E2. lia.
    + eapply Z.le_lt_trans; [apply (round_mag_le _ _ ((4 * a + 3) * Q))|].
      * lia.
      * lia.
      * unfold Q. apply representable_scaled; lia.
      * rewrite E2. lia.
      * rewrite E1. lia.
Qed.

Lemma dest_row_eq h H n :
  1 <= h <= 2 ^ 22 -> 2 <= H <= 2 ^ 22 -> 1 <= n <= H ->
  dest_row h H n = Ok (row_units h H n / one_u).
Proof.
  intros Hh HH Hn. pose proof one_u_pos as P.
  pose proof (row_units_mono h H n H ltac:(lia) ltac:(lia) ltac:(lia)) as M.
  pose proof (row_units_last h H Hh HH) as [_ U].
  unfold dest_row, udec.
  rewrite (Z.mod_small (H - 1)), (Z.mod_small (n - 1)) by lia.
  rewrite !of_Z_exact by lia. cbn [div xorb].
  destruct (Z.eqb_spec ((H - 1) * one_u) 0); [nia|].
  set (r := round_mag ((h - 1) * one_u * one_u) ((H - 1) * one_u)).
  assert (0 <= r) as Hr by (apply round_mag_nonneg; nia).
  assert (r <= (h - 1) * one_u) as Ur.
  { apply round_mag_le; [nia|nia| |].
    - replace ((h - 1) * one_u) with ((h - 1) * 2 ^ 149) by reflexivity.
      apply representable_scaled; lia.
    - assert ((h - 1) * one_u * one_u * 1 <= (h - 1) * one_u * one_u * (H - 1)); [|lia].
      apply Z.mul_le_mono_nonneg_l; nia. }
  assert ((h - 1) * one_u < top_u) as T1.
  { replace ((h - 1) * one_u) with ((h - 1) * 2 ^ 149) by reflexivity.
    apply top_u_big; lia. }
  rewrite round_Fin by (fold r; lia). fold r. cbn [mul xorb].
  set (p := round_mag (r * ((n - 1) * one_u)) one_u).
  assert (0 <= p) as Hp.
  { apply round_mag_nonneg; [|lia]. apply Z.mul_nonneg_nonneg; nia. }
  assert (row_units h H n = round_mag (2 ^ 148 + p) 1) as Et by reflexivity.
  assert (0 < 2 ^ 148) as PP by (apply Z.pow_pos_nonneg; lia).
  assert (p <= row_units h H n) as Up.
  { rewrite Et. apply round_mag_ge; [lia|apply round_mag_representable; [|lia]|lia].
    apply Z.mul_nonneg_nonneg; nia. }
  assert (h * one_u < top_u) as T2.
  { replace (h * one_u) with (h * 2 ^ 149) by reflexivity. apply top_u_big; lia. }
  rewrite round_Fin by (fold p; lia). fold p.
  rewrite ROUND_nonneg; [rewrite <- Et; reflexivity|exact Hp|].
  rewrite <- Et. unfold INT_MAX.
  assert (row_units h H n / one_u < h); [|lia].
  apply Z.div_lt_upper_bound; lia.
Qed.

Lemma dest_row_facts h H :
  1 <= h <= 2 ^ 22 -> 2 <= H <= 2 ^ 22 ->
  dest_row h H 1 = Ok 0 /\ dest_row h H H = Ok (h - 1) /\
  forall n n', 1 <= n <= n' -> n' <= H ->
    exists y y', dest_row h H n = Ok y /\ dest_row h H n' = Ok y' /\
                 0 <= y <= y' /\ y' <= h - 1.
Proof.
  intros Hh HH. pose proof one_u_pos as P.
  pose proof (row_units_last h H Hh HH) as [L U].
  assert (row_units h H 1 / one_u = 0) as E1.
  { rewrite row_units_first. apply Z.div_small. rewrite one_u_eq.
    assert (0 < 2 ^ 148) by (apply Z.pow_pos_nonneg; lia). lia. }
  assert (row_units h H H / one_u = h - 1) as EH.
  { apply div_between; [exact P|]. lia. }
  split; [|split].
  - rewrite dest_row_eq by lia. rewrite E1. reflexivity.
  - rewrite dest_row_eq by lia. rewrite EH. reflexivity.
  - intros n n' Hn Hn'. rewrite !dest_row_eq by lia.
    eexists _, _. split; [reflexivity|]. split; [reflexivity|].
    pose proof (row_units_mono h H 1 n ltac:(lia) ltac:(lia) ltac:(lia)) as M1.
    pose proof (row_units_mono h H n n' ltac:(lia) ltac:(lia) ltac:(lia)) as M2.
    pose proof (row_units_mono h H n' H ltac:(lia) ltac:(lia) ltac:(lia)) as M3.
    rewrite <- E1, <- EH.
    repeat split; apply Z.div_le_mono; lia.
Qed.

(** ** Adding a source row to the grid *)

Lemma add_bounded u v n :
  0 <= u <= n * one_u -> 0 <= v <= one_u -> 0 <= n -> n + 1 < 2 ^ 24 ->
  exists u', add (Fin false u) (Fin false v) = Fin false u' /\
             0 <= u' <= (n + 1) * one_u.
Proof.
  intros Hu Hv Hn Hb. pose proof one_u_pos as P. cbn [add signed andb].
  destruct (Z.eqb_spec (u + v) 0) as [E|N].
  - exists 0. split; [reflexivity|nia].
  - destruct (Z.ltb_spec (u + v) 0); [lia|]. rewrite Z.abs_eq by lia.
    assert (round_mag (u + v) 1 <= (n + 1) * one_u) as U.
    { apply round_mag_le; [lia|lia| |lia].
      replace ((n + 1) * one_u) with ((n + 1) * 2 ^ 149) by reflexivity.
      apply representable_scaled; lia. }
    assert ((n + 1) * one_u < top_u) as T.
    { replace ((n + 1) * one_u) with ((n + 1) * 2 ^ 149) by reflexivity.
      apply top_u_big; lia. }
    rewrite round_Fin by lia. eexists. split; [reflexivity|].
    split; [apply round_mag_nonneg; lia|exact U].
Qed.

Lemma row_of_cell w r k :
  0 < w -> (r * w <= k < r * w + w <-> k / w = r).
Proof.
  intros Hw. split.
  - intros H. apply div_between; lia.
  - intros <-. pose proof (Z.mul_div_le k w Hw). pose proof (Z.mul_succ_div_gt k w Hw). lia.
Qed.

Lemma intensity_unit scanline off c :
  eight_bit scanline -> 1 <= c -> 255 * c < 2 ^ 24 ->
  0 <= off -> off + c <= Z.of_nat (length scanline) ->
  exists v, intensity scanline off c = Ok (Fin false v) /\ 0 <= v <= one_u.
Proof.
  intros H8 Hc Hb Ho Hl.
  pose proof (samples_sum_bounds scanline off c H8 ltac:(lia)) as B.
  destruct (div_unit_interval _ (255 * c) B ltac:(lia) Hb) as (u & E & Hu & _).
  exists u. rewrite intensity_value by assumption. rewrite E. auto.
Qed.

Section AddRow.
Variables (jpg : jpeg) (w h : Z) (scanline : list Z).
Variable P : Z -> F32.t -> Prop.
Hypothesis Hw : 1 <= w.
Hypothesis Hfit : w * h <= INT_MAX.
Hypothesis Hadd : row_adds P jpg scanline.

(** The cells of grid row [r] receive the intensities of the source
    row. *)
Lemma add_row_cells (i : Image.t) (r n : Z) :
  grid_of jpg w h i -> cells_satisfy P i -> 0 <= r < h ->
  Image.yadds i !! Z.to_nat r = Some n -> 0 <= n -> n + 1 < 2 ^ 24 ->
  exists p,
    for_loop (Z.to_nat (Image.width i)) 0
      (fun x p =>
         off ← get (Image.lookup_resx i) x;
         v ← intensity scanline off (out_color_components jpg);
         old ← get p (r * Image.width i + x);
         set p (r * Image.width i + x) (add old v))
      (Image.pixel i) = Ok p /\
    length p = length (Image.pixel i) /\
    forall k : nat, (k < length p)%nat ->
      exists v n',
        p !! k = Some v /\
        Image.yadds i !! Z.to_nat (Z.of_nat k / w) = Some n' /\
        P (if Z.of_nat k / w =? r then n' + 1 else n') v.
Proof.
  intros (Gw & Gh & Gp & Gy & Gl & Gr & Go) Hs Hr Hn Hn0 Hnb.
  rewrite Gw.
  destruct (for_loop_inv
    (fun x p =>
       length p = length (Image.pixel i) /\
       forall k : nat, (k < length p)%nat ->
         exists v n',
           p !! k = Some v /\
           Image.yadds i !! Z.to_nat (Z.of_nat k / w) = Some n' /\
           P (if (r * w <=? Z.of_nat k) && (Z.of_nat k <? r * w + x)
              then n' + 1 else n') v)
    (Z.to_nat w) 0
    (fun x p =>
       off ← get (Image.lookup_resx i) x;
       v ← intensity scanline off (out_color_components jpg);
       old ← get p (r * w + x);
       set p (r * w + x) (add old v))
    (Image.pixel i)) as (p & Ep & Hlen & Hcells).
  - split; [reflexivity|]. intros k Hk. destruct (Hs k Hk) as (v & n' & E1 & E2 & B).
    rewrite Gw in E2. exists v, n'. split; [exact E1|]. split; [exact E2|].
    destruct (Z.leb_spec (r * w) (Z.of_nat k)), (Z.ltb_spec (Z.of_nat k) (r * w + 0));
      cbn [andb]; try exact B; lia.
  - intros x p Hx [Hlen Hcells].
    assert (x < w) as Hxw by lia. assert (0 <= x) as Hx0 by lia. clear Hx.
    destruct (lookup_lt_is_Some_2 (Image.lookup_resx i) (Z.to_nat x)) as [off Eoff]; [lia|].
    rewrite (get_Some _ _ off) by assumption. rewrite bind_Ok.
    destruct (Go _ _ Eoff) as [O1 O2].
    set (k0 := Z.to_nat (r * w + x)).
    assert (0 <= r * w + x < w * h) as Hk0 by nia.
    assert ((k0 < length p)%nat) as Hk0l by (unfold k0; lia).
    destruct (Hcells k0 Hk0l) as (v & n' & E1 & E2 & B).
    assert (Z.of_nat k0 = r * w + x) as Ek0 by (unfold k0; lia).
    rewrite Ek0 in E2, B.
    assert ((r * w + x) / w = r) as Er by (apply row_of_cell; lia).
    rewrite Er in E2. rewrite E2 in Hn. injection Hn as ->.
    destruct (Z.ltb_spec (r * w + x) (r * w + x)); [lia|].
    rewrite andb_false_r in B.
    destruct (Hadd off n v O1 O2 B Hn0 Hnb) as (t & Et & Bt).
    rewrite Et, bind_Ok.
    rewrite (get_Some _ _ v) by (try assumption; lia). rewrite bind_Ok.
    rewrite set_Ok_iff by lia. fold k0.
    eexists. split; [reflexivity|]. split; [rewrite length_insert; exact Hlen|].
    intros k Hk. rewrite length_insert in Hk.
    destruct (Nat.eq_dec k k0) as [->|Nk].
    + exists (add v t), n. rewrite list_lookup_insert_eq by assumption.
      rewrite Ek0, Er. split; [reflexivity|]. split; [exact E2|].
      destruct (Z.leb_spec (r * w) (r * w + x)); [|lia].
      destruct (Z.ltb_spec (r * w + x) (r * w + (x + 1))); [|lia].
      exact Bt.
    + destruct (Hcells k Hk) as (v1 & n1 & F1 & F2 & B1).
      exists v1, n1. rewrite list_lookup_insert_ne by congruence.
      split; [exact F1|]. split; [exact F2|].
      assert (Z.of_nat k <> r * w + x) by lia.
      destruct (Z.leb_spec (r * w) (Z.of_nat k)),
               (Z.ltb_spec (Z.of_nat k) (r * w + x)),
               (Z.ltb_spec (Z.of_nat k) (r * w + (x + 1))); cbn [andb] in *;
        try exact B1; lia.
  - exists p. split; [exact Ep|]. split; [exact Hlen|].
    intros k Hk. destruct (Hcells k Hk) as (v & n' & E1 & E2 & B).
    exists v, n'. split; [exact E1|]. split; [exact E2|].
    rewrite Z2Nat.id, Z.add_0_l in B by lia.
    pose proof (row_of_cell w r (Z.of_nat k) ltac:(lia)) as Hrc.
    destruct (Z.eqb_spec (Z.of_nat k / w) r) as [Eq|Ne].
    + destruct (Z.leb_spec (r * w) (Z.of_nat k)), (Z.ltb_spec (Z.of_nat k) (r * w + w));
        cbn [andb] in B; try exact B; lia.
    + destruct (Z.leb_spec (r * w) (Z.of_nat k)), (Z.ltb_spec (Z.of_nat k) (r * w + w));
        cbn [andb] in B; try exact B. exfalso. apply Ne, Hrc. lia.
Qed.

(** One source row, added to the grid rows from the cursor to its own
    row. *)
Lemma process_scanline_step (i : Image.t) (m lasty y cov : Z) :
  grid_of jpg w h i -> cells_satisfy P i -> counts_within i (m - 1) cov ->
  1 <= m < 2 ^ 24 ->
  dest_row h (output_height jpg) m = Ok y ->
  0 <= lasty <= y -> y <= h - 1 -> lasty <= cov ->
  exists i',
    process_scanline m jpg scanline i lasty = Ok (i', y) /\
    grid_of jpg w h i' /\ cells_satisfy P i' /\
    counts_within i' m (Z.max cov (y + 1)).
Proof.
  intros Hg Hs Hcnt Hm Hy Hl Hyh Hcov.
  unfold process_scanline.
  assert (Image.resize_y i
          = div (of_Z (h - 1)) (of_Z (udec (output_height jpg)))) as Er
    by apply Hg.
  rewrite Er. fold (dest_row h (output_height jpg) m). rewrite Hy, bind_Ok.
  match goal with
  | |- context [for_loop ?cnt ?x0 ?b0 ?s0] =>
      destruct (for_loop_inv
        (fun rho i' =>
           grid_of jpg w h i' /\ cells_satisfy P i' /\
           forall (q : nat) (n : Z), Image.yadds i' !! q = Some n ->
             0 <= n <= m /\ (rho <= Z.of_nat q -> n <= m - 1) /\
             (Z.of_nat q < cov \/ lasty <= Z.of_nat q < rho -> 1 <= n))
        cnt x0 b0 s0) as (i' & Ei & Hg' & Hs' & Hc')
  end.
  - split; [exact Hg|]. split; [exact Hs|]. intros q n Hq.
    destruct (Hcnt q n Hq) as [B1 B2]. repeat split; try lia.
  - intros rho i1 Hrho (Hg1 & Hs1 & Hc1). cbv beta zeta.
    assert (lasty <= rho <= y) as Hr by lia. clear Hrho.
    pose proof Hg1 as (Gw & Gh & Gp & Gy & Gl & Gr & Go).
    destruct (lookup_lt_is_Some_2 (Image.yadds i1) (Z.to_nat rho)) as [n En]; [lia|].
    destruct (Hc1 _ _ En) as (N1 & N2 & N3). specialize (N2 ltac:(lia)).
    destruct (add_row_cells i1 rho n Hg1 Hs1 ltac:(lia) En ltac:(lia) ltac:(lia))
      as (p & Ep & Lp & Hp).
    rewrite int_mul_Ok by (rewrite Gw; unfold INT_MIN, INT_MAX in *; nia).
    rewrite bind_Ok, Ep, bind_Ok.
    rewrite (get_Some _ _ n) by (try assumption; lia). rewrite bind_Ok.
    unfold incr. destruct (Z.ltb_spec n INT_MAX); [|unfold INT_MAX in *; lia].
    rewrite bind_Ok, set_Ok_iff by lia. rewrite bind_Ok.
    eexists. split; [reflexivity|]. split; [|split].
    + repeat split; cbn [Image.width Image.height Image.pixel Image.yadds
                         Image.resize_y Image.lookup_resx Image.set_yadds
                         Image.set_pixel]; try assumption.
      * rewrite Lp. exact Gp.
      * rewrite length_insert. exact Gy.
      * eapply Go; eassumption.
      * eapply Go; eassumption.
    + intros k Hk.
      cbn [Image.width Image.height Image.pixel Image.yadds Image.set_yadds
           Image.set_pixel] in *.
      destruct (Hp k Hk) as (v & n' & E1 & E2 & B). rewrite Gw.
      destruct (Z.eqb_spec (Z.of_nat k / w) rho) as [Eq|Ne].
      * exists v, (n + 1). split; [exact E1|]. rewrite Eq in *.
        rewrite list_lookup_insert_eq by lia.
        rewrite E2 in En. injection En as ->. auto.
      * exists v, n'. split; [exact E1|].
        rewrite list_lookup_insert_ne; [auto|].
        assert (0 <= Z.of_nat k / w) by (apply Z.div_pos; lia). lia.
    + intros q n0 Hq.
      cbn [Image.yadds Image.set_yadds Image.set_pixel] in Hq.
      destruct (Nat.eq_dec q (Z.to_nat rho)) as [->|Nq].
      * rewrite list_lookup_insert_eq in Hq by lia. injection Hq as <-.
        repeat split; try lia.
      * rewrite list_lookup_insert_ne in Hq by congruence.
        destruct (Hc1 _ _ Hq) as (M1 & M2 & M3).
        repeat split; try lia.
  - exists i'. split; [rewrite Ei; reflexivity|]. split; [exact Hg'|].
    split; [exact Hs'|].
    intros q n Hq. destruct (Hc' _ _ Hq) as (M1 & M2 & M3).
    split; [exact M1|]. intros Hlt. apply M3. lia.
Qed.

End AddRow.

(** Adding 8-bit rows keeps the sums within their counts. *)
Lemma row_adds_bounded jpg scanline :
  source_row jpg scanline ->
  1 <= out_color_components jpg -> 255 * out_color_components jpg < 2 ^ 24 ->
  row_adds bounded_sum jpg scanline.
Proof.
  intros [Rl R8] Hc Hcb off n v O1 O2 (u & -> & Bu) Hn Hnb.
  destruct (intensity_unit scanline off (out_color_components jpg))
    as (t & Et & Bt); try assumption; [lia|].
  exists (Fin false t). split; [exact Et|].
  destruct (add_bounded u t n Bu Bt Hn Hnb) as (u' & Ea & Bu').
  exists u'. auto.
Qed.

(** ** The rows of one image *)

Lemma fresh_grid_spec o jpg :
  1 <= width o <= 2 ^ 22 -> 0 <= height o ->
  width o * height o <= INT_MAX ->
  1 <= output_width jpg <= 2 ^ 22 -> 1 <= out_color_components jpg ->
  output_width jpg * out_color_components jpg <= INT_MAX ->
  exists i,
    fresh_grid o jpg = Ok i /\ grid_of jpg (width o) (height o) i /\
    (forall P : Z -> F32.t -> Prop, P 0 zero -> cells_satisfy P i) /\
    counts_within i 0 0.
Proof.
  intros Hw Hh Hfit Hsw Hc Hrow. unfold fresh_grid, malloc_image.
  rewrite int_mul_Ok by (unfold INT_MIN; nia). rewrite bind_Ok.
  destruct (Z.ltb_spec (width o * height o) 0); [nia|].
  destruct (Z.ltb_spec (height o) 0); [lia|].
  destruct (Z.ltb_spec (width o) 0); [lia|]. rewrite bind_Ok.
  set (g := clear _).
  destruct (init_image_lookup g jpg) as (i & Ei & Wi & Li & Hlook);
    [exact Hw|exact Hsw|exact Hc|exact Hrow|unfold g; cbn; apply length_replicate|].
  cbn [Image.width g clear Image.set_yadds Image.set_pixel] in Wi, Li, Hlook.
  pose proof (init_image_keeps _ _ _ Ei) as (_ & Hi & Pi & Yi).
  pose proof (init_image_resize_y _ _ _ Ei) as Ri.
  cbn [Image.width Image.height Image.pixel Image.yadds g clear Image.set_yadds
       Image.set_pixel] in Hi, Pi, Yi, Ri.
  rewrite length_replicate in Pi. rewrite length_replicate in Yi.
  exists i. split; [exact Ei|]. split; [|split].
  - unfold grid_of. split; [exact Wi|]. split; [exact Hi|].
    split; [rewrite Pi, length_replicate; lia|].
    split; [rewrite Yi, length_replicate; lia|].
    split; [lia|]. split; [exact Ri|].
    intros x off Hx. pose proof (lookup_lt_Some _ _ _ Hx) as Hlt.
    pose proof (Hlook (Z.of_nat x) ltac:(lia)) as E. rewrite Nat2Z.id, Hx in E.
    destruct (column_spec (output_width jpg) (width o) (Z.of_nat x))
      as (n & En & Bn & _); [lia|lia|lia|].
    rewrite En in E. injection E as ->. nia.
  - intros P HP k Hk. rewrite Pi, length_replicate in Hk. rewrite Pi, Yi, Wi.
    exists zero, 0. split; [apply lookup_replicate_2; exact Hk|].
    split; [|exact HP]. apply lookup_replicate_2.
    assert (Z.of_nat k / width o < height o); [|lia].
    apply Z.div_lt_upper_bound; lia.
  - intros r n Hr. rewrite Yi in Hr. apply lookup_replicate in Hr as [-> _]. lia.
Qed.

Lemma bounded_sum_0 : bounded_sum 0 zero.
Proof. exists 0. split; [reflexivity|lia]. Qed.

Lemma well_formed_adds jpg :
  well_formed jpg ->
  forall (n : nat) row, rows jpg !! n = Some row -> row_adds bounded_sum jpg row.
Proof.
  intros (_ & _ & Wc & Wcb & _ & _ & Wrows) n row Hr.
  apply row_adds_bounded; [eapply Wrows, Hr|exact Wc|exact Wcb].
Qed.

(** With the cursor beyond its row, a source row leaves the grid as it
    is; the cursor falls back to the row. *)
Lemma process_scanline_skip jpg scanline i m cursor y :
  Image.resize_y i
  = div (of_Z (Image.height i - 1)) (of_Z (udec (output_height jpg))) ->
  dest_row (Image.height i) (output_height jpg) m = Ok y ->
  y < cursor ->
  process_scanline m jpg scanline i cursor = Ok (i, y).
Proof.
  intros Er Hy Hlt. unfold process_scanline. rewrite Er.
  fold (dest_row (Image.height i) (output_height jpg) m). rewrite Hy, bind_Ok.
  replace (Z.to_nat (y - cursor + 1)) with 0%nat by lia. reflexivity.
Qed.

Lemma scan_rows_covers jpg w h i cursor (P : Z -> F32.t -> Prop) :
  well_formed jpg -> 1 <= w -> 1 <= h <= 2 ^ 22 -> w * h <= INT_MAX ->
  0 <= cursor ->
  (forall (n : nat) row, rows jpg !! n = Some row -> row_adds P jpg row) ->
  grid_of jpg w h i -> cells_satisfy P i -> counts_within i 0 0 ->
  exists i',
    scan_rows jpg i cursor = Ok (i', h - 1) /\ grid_of jpg w h i' /\
    cells_satisfy P i' /\ counts_within i' (output_height jpg) h.
Proof.
  intros (Wsw & WH & Wc & Wcb & Wfit & Wl & Wrows) Hw Hh Hfit Hcur Hadd Hg Hs Hc.
  set (H := output_height jpg) in *.
  destruct (dest_row_facts h H Hh WH) as (D1 & DH & Dmono).
  unfold scan_rows. fold H.
  match goal with
  | |- context [for_loop ?cnt ?x0 ?b0 ?s0] =>
      destruct (for_loop_inv
        (fun n st =>
           grid_of jpg w h (fst st) /\ cells_satisfy P (fst st) /\
           exists cov, counts_within (fst st) n cov /\
             (n = 0 -> snd st = cursor /\ cov = 0) /\
             (1 <= n -> dest_row h H n = Ok (snd st) /\
                        (cov = snd st + 1 \/ n = 1 /\ cov = 0 /\ snd st = 0)))
        cnt x0 b0 s0) as ([i' l] & Ei & Hg' & Hs' & cov & Hc' & _ & Hl)
  end.
  - cbn [fst snd]. split; [exact Hg|]. split; [exact Hs|]. exists 0.
    split; [exact Hc|]. split; [auto|lia].
  - intros n [i1 l1] Hn (Hg1 & Hs1 & cov & Hc1 & H0 & H1). cbn [fst snd] in *.
    destruct (lookup_lt_is_Some_2 (rows jpg) (Z.to_nat n)) as [scanline Es]; [lia|].
    rewrite Es. pose proof (Hadd _ _ Es) as Hrow.
    destruct (Z.eq_dec n 0) as [->|Nz].
    + (* the first source row *)
      destruct (H0 eq_refl) as [-> ->]. change (0 + 1) with 1.
      destruct (Z.eq_dec cursor 0) as [->|Nc].
      * destruct (process_scanline_step jpg w h scanline P Hw Hfit Hrow i1 1 0 0 0)
          as (i2 & E2 & Hg2 & Hs2 & Hc2); try assumption; try lia.
        exists (i2, 0). split; [exact E2|]. cbn [fst snd].
        split; [exact Hg2|]. split; [exact Hs2|]. exists 1.
        split; [exact Hc2|]. split; [lia|]. intros _. split; [exact D1|]. lia.
      * pose proof Hg1 as (_ & Gh & _ & _ & _ & Gr & _).
        rewrite (process_scanline_skip jpg scanline i1 1 cursor 0);
          [|rewrite Gh; exact Gr|rewrite Gh; exact D1|lia].
        exists (i1, 0). split; [reflexivity|]. cbn [fst snd].
        split; [exact Hg1|]. split; [exact Hs1|]. exists 0. split.
        { intros r k Hr. destruct (Hc1 r k Hr). lia. }
        split; [lia|]. intros _. split; [exact D1|]. right. lia.
    + destruct (H1 ltac:(lia)) as [E1 Hcov].
      destruct (Dmono n (n + 1) ltac:(lia) ltac:(lia)) as (y & y' & F1 & F2 & F3 & F4).
      rewrite E1 in F1. injection F1 as ->.
      destruct (process_scanline_step jpg w h scanline P Hw Hfit Hrow i1 (n + 1) y y' cov)
        as (i2 & E2 & Hg2 & Hs2 & Hc2); try assumption; try lia.
      { replace (n + 1 - 1) with n by lia. exact Hc1. }
      exists (i2, y'). split; [exact E2|]. cbn [fst snd].
      split; [exact Hg2|]. split; [exact Hs2|]. exists (y' + 1).
      replace (Z.max cov (y' + 1)) with (y' + 1) in Hc2 by lia.
      split; [exact Hc2|]. split; [lia|]. intros _. auto.
  - cbn [fst snd] in *. rewrite Z.add_0_l, Z2Nat.id in Hc', Hl by lia.
    destruct (Hl ltac:(lia)) as [El Hcov]. rewrite DH in El. injection El as <-.
    exists i'. split; [exact Ei|]. split; [exact Hg'|]. split; [exact Hs'|].
    replace cov with h in Hc' by lia. exact Hc'.
Qed.

(** ** Normalising and printing the grid *)

Lemma div_count_unit u n :
  0 <= u <= n * one_u -> 1 <= n < 2 ^ 24 ->
  exists u', div (Fin false u) (of_Z n) = Fin false u' /\ 0 <= u' <= one_u.
Proof.
  intros Hu Hn. pose proof one_u_pos as P. rewrite of_Z_exact by lia.
  cbn [div xorb]. destruct (Z.eqb_spec (n * one_u) 0); [nia|].
  assert (representable one_u) as R1
    by (replace one_u with (1 * 2 ^ 149) by reflexivity; apply representable_scaled; lia).
  assert (round_mag (u * one_u) (n * one_u) <= one_u) as U.
  { apply round_mag_le; [nia|nia|exact R1|].
    replace (one_u * (n * one_u)) with (n * one_u * one_u) by ring.
    apply Z.mul_le_mono_nonneg_r; lia. }
  rewrite round_Fin by (eapply Z.le_lt_trans; [exact U|]; rewrite top_u_eq; nia).
  eexists. split; [reflexivity|]. split; [apply round_mag_nonneg; nia|exact U].
Qed.

Lemma normalize_unit_cells i :
  grid_ok i -> sums_bounded i ->
  (forall (r : nat) (n : Z), Image.yadds i !! r = Some n -> 1 <= n < 2 ^ 24) ->
  exists p, normalize i = Ok (Image.set_pixel i p) /\
            length p = length (Image.pixel i) /\
            unit_cells (Image.set_pixel i p).
Proof.
  intros Hg Hs Hc. pose proof Hg as (G1 & G2 & G3 & G4).
  destruct (normalize_pixels i Hg) as (p & Ep & Lp & Hp).
  exists p. split; [exact Ep|]. split; [exact Lp|].
  unfold unit_cells. cbn [Image.width Image.height Image.pixel Image.set_pixel].
  rewrite Lp. split; [exact G3|].
  intros k Hk. rewrite Hp.
  destruct (Z.ltb_spec (Z.of_nat k) (Image.width i * Image.height i)); [|lia].
  unfold normalized_cell. destruct (Hs k Hk) as (v & n & E1 & E2 & u & -> & B).
  rewrite E1, E2. pose proof (Hc _ _ E2) as Hn.
  destruct (Z.eqb_spec n 0); [lia|].
  destruct (div_count_unit u n B Hn) as (u' & E & B').
  exists u'. rewrite E. auto.
Qed.

Lemma normalize_unit jpg w h m i :
  1 <= w -> 1 <= h -> m < 2 ^ 24 ->
  grid_of jpg w h i -> sums_bounded i -> counts_within i m h ->
  exists i', normalize i = Ok i' /\ grid_of jpg w h i' /\ unit_cells i'.
Proof.
  intros Hw Hh Hm Hg Hs Hc.
  pose proof Hg as (Gw & Gh & Gp & Gy & Gl & Gr & Go).
  destruct (normalize_unit_cells i) as (p & Ep & Lp & Hp).
  - unfold grid_ok. rewrite Gw, Gh. repeat split; try lia.
  - exact Hs.
  - intros r n Hr. destruct (Hc _ _ Hr) as [N1 N2].
    pose proof (lookup_lt_Some _ _ _ Hr). specialize (N2 ltac:(lia)). lia.
  - exists (Image.set_pixel i p). split; [exact Ep|]. split; [|exact Hp].
    unfold grid_of. cbn [Image.width Image.height Image.pixel Image.yadds
                         Image.resize_y Image.lookup_resx Image.set_pixel].
    rewrite Lp. repeat split; try assumption; eapply Go; eassumption.
Qed.

Lemma print_image_total o i :
  1 <= Image.width i -> 1 <= Image.height i -> unit_cells i ->
  2 <= strlen (ascii_palette o) <= 2 ^ 23 ->
  exists lines, print_image o i (strlen (ascii_palette o) - 1) = Ok lines.
Proof.
  intros Hw Hh [Hlen Hcells] Hp. set (chars := strlen (ascii_palette o) - 1).
  rewrite print_image_lines.
  destruct (collect_total (line_of o i chars) (Z.to_nat (Image.height i)) 0)
    as [ls Els].
  - intros y Hy. unfold line_of.
    set (row := if flipy o =? 0 then y else Image.height i - y - 1).
    assert (0 <= row < Image.height i) as Hrow
      by (unfold row; destruct (flipy o =? 0); lia).
    destruct (collect_total (print_cell o i chars row) (Z.to_nat (Image.width i)) 0)
      as [cs Ecs].
    + intros x Hx. unfold print_cell.
      assert (0 <= row * Image.width i + x < Image.width i * Image.height i) as Hk by nia.
      destruct (Hcells (Z.to_nat (row * Image.width i + x)) ltac:(lia)) as (u & Eu & Bu).
      rewrite (get_Some _ _ (Fin false u)) by (try assumption; lia). rewrite bind_Ok.
      destruct (quantize_bounds chars u ltac:(unfold chars; lia) Bu)
        as (pos & Epos & Bpos & _).
      rewrite Epos, bind_Ok.
      apply palette_char_Some. unfold chars in *. destruct (invert o =? 0); lia.
    + rewrite Ecs, bind_Ok. eexists. reflexivity.
  - rewrite Els, bind_Ok. eexists. reflexivity.
Qed.

(** ** One image, from the header to the printed lines *)

Lemma decompress_renders fuel jpg w o :
  well_formed jpg ->
  calc_aspect_ratio fuel (output_width jpg) (output_height jpg) (opts w) = Ok o ->
  1 <= width o <= 2 ^ 22 -> 1 <= height o <= 2 ^ 22 ->
  width o * height o <= INT_MAX ->
  2 <= strlen (ascii_palette o) <= 2 ^ 23 ->
  0 <= lasty w ->
  exists lines,
    decompress fuel (Decodable jpg) w
    = Ok (0, {| opts := o; lasty := height o - 1; stdin_used := stdin_used w;
                stdout := app (stdout w) lines;
                stderr := if negb (verbose o =? 0)
                          then app (stderr w) (print_info jpg o)
                          else stderr w |}) /\
    length lines = Z.to_nat (height o) /\
    forall line, In line lines ->
      String.length line = Z.to_nat (width o) /\
      forall c, In c (list_ascii_of_string line) ->
                In c (list_ascii_of_string (ascii_palette o)).
Proof.
  intros Hjpg Hcalc Hw Hh Hfit Hpal Hcursor.
  pose proof Hjpg as (Wsw & WH & Wc & _ & Wfit & _).
  destruct (fresh_grid_spec o jpg Hw ltac:(lia) Hfit Wsw Wc Wfit)
    as (g & Eg & Hg & Hs & Hc).
  destruct (scan_rows_covers jpg (width o) (height o) g (lasty w) bounded_sum
              Hjpg ltac:(lia) Hh Hfit Hcursor (well_formed_adds jpg Hjpg) Hg
              (Hs _ bounded_sum_0) Hc) as (i & Ei & Hg' & Hs' & Hc').
  destruct (normalize_unit jpg (width o) (height o) (output_height jpg) i
              ltac:(lia) ltac:(lia) ltac:(lia) Hg' Hs' Hc') as (i' & En & Hg'' & Hu).
  pose proof Hg'' as (Gw & Gh & _).
  destruct (print_image_total o i' ltac:(lia) ltac:(lia) Hu Hpal) as [lines El].
  pose proof (print_image_shape _ _ _ _ El) as [L1 L2]. rewrite Gw in L2. rewrite Gh in L1.
  exists lines. split; [|split; [exact L1|exact L2]].
  unfold decompress. rewrite Hcalc, bind_Ok.
  unfold fresh_grid in Eg. apply bind_Ok_inv in Eg as (im & Em & Eg).
  rewrite Em, bind_Ok. cbv zeta. rewrite Eg, bind_Ok, Ei, bind_Ok.
  cbv beta iota. rewrite En, bind_Ok, El, bind_Ok. reflexivity.
Qed.

(** X17. Source rows are mapped to grid rows in order and onto the whole
    grid: for a source of [H >= 2] rows and a grid of [h] rows (both at
    most [2^22]), the row index [process_scanline] computes for the first
    source row is 0, for the last one [h - 1], and in between it never
    decreases and stays inside the grid. *)
Theorem source_rows_map_in_order (h H : Z)
    (Hh : 1 <= h <= 2 ^ 22) (HH : 2 <= H <= 2 ^ 22) :
  dest_row h H 1 = Ok 0 /\
  dest_row h H H = Ok (h - 1) /\
  (forall n n', 1 <= n <= n' -> n' <= H ->
     exists y y', dest_row h H n = Ok y /\ dest_row h H n' = Ok y' /\
                  0 <= y <= y' /\ y' <= h - 1) /\
  (forall jpg scanline i cursor n i' y,
     Image.resize_y i = F32.div (F32.of_Z (h - 1)) (F32.of_Z (udec H)) ->
     process_scanline n jpg scanline i cursor = Ok (i', y) ->
     dest_row h H n = Ok y).
Proof.
  destruct (dest_row_facts h H Hh HH) as (D1 & D2 & D3).
  split; [exact D1|]. split; [exact D2|]. split; [exact D3|].
  intros jpg scanline i cursor n i' y Er Hp. unfold process_scanline in Hp.
  apply bind_Ok_inv in Hp as (y0 & Ey & Hp).
  apply bind_Ok_inv in Hp as (i0 & _ & Hp). injection Hp as _ <-.
  unfold dest_row. rewrite <- Er. exact Ey.
Qed.

Lemma source_rows_map_in_order_witness :
  dest_row 10 50 1 = Ok 0 /\ dest_row 10 50 50 = Ok 9.
Proof.
  destruct (source_rows_map_in_order 10 50 ltac:(lia) ltac:(lia)) as (D1 & D2 & _).
  split; assumption.
Defined.

(** X18. Every image fills its whole grid without leaving the arrays:
    for a well-formed source and a grid of [w] by [h] cells (both between
    1 and [2^22], the number of cells [w * h] fitting an [int]) set up by
    [malloc_image], [clear] and [init_image], the
    row loop of [decompress], entered with any cursor that is not
    negative, returns with the cursor at [h - 1]; every grid row has
    received at least one and at most [output_height] source rows, and
    every cell holds a finite sum that is at most its row's count. *)
Theorem every_grid_row_is_filled (o : options) (jpg : jpeg) (cursor : Z)
    (Hjpg : well_formed jpg)
    (Hw : 1 <= width o <= 2 ^ 22) (Hh : 1 <= height o <= 2 ^ 22)
    (Hcells : width o * height o <= F32.INT_MAX)
    (Hcursor : 0 <= cursor) :
  exists g i,
    fresh_grid o jpg = Ok g /\
    scan_rows jpg g cursor = Ok (i, height o - 1) /\
    Image.width i = width o /\ Image.height i = height o /\
    (forall r, 0 <= r < height o ->
       exists n, Image.yadds i !! Z.to_nat r = Some n /\
                 1 <= n <= output_height jpg) /\
    sums_bounded i.
Proof.
  pose proof Hjpg as (Wsw & WH & Wc & _ & Wfit & _).
  destruct (fresh_grid_spec o jpg Hw ltac:(lia) Hcells Wsw Wc Wfit)
    as (g & Eg & Hg & Hs & Hc).
  destruct (scan_rows_covers jpg (width o) (height o) g cursor bounded_sum
              Hjpg ltac:(lia) Hh Hcells Hcursor (well_formed_adds jpg Hjpg) Hg
              (Hs _ bounded_sum_0) Hc) as (i & Ei & Hg' & Hs' & Hc').
  exists g, i. split; [exact Eg|]. split; [exact Ei|].
  pose proof Hg' as (Gw & Gh & Gp & Gy & _).
  split; [exact Gw|]. split; [exact Gh|]. split; [|exact Hs'].
  intros r Hr.
  destruct (lookup_lt_is_Some_2 (Image.yadds i) (Z.to_nat r)) as [n En]; [lia|].
  exists n. split; [exact En|]. destruct (Hc' _ _ En) as [B1 B2].
  specialize (B2 ltac:(lia)). lia.
Qed.

Lemma every_grid_row_is_filled_witness :
  exists g i, fresh_grid sized_1x2 black_over_white = Ok g /\
              scan_rows black_over_white g 1 = Ok (i, 1).
Proof.
  destruct (every_grid_row_is_filled sized_1x2 black_over_white 1)
    as (g & i & Eg & Ei & _).
  - unfold well_formed, source_row, eight_bit, INT_MAX. cbn.
    repeat split; try lia;
      repeat (match goal with
              | H : _ !! ?n = Some _ |- _ =>
                  destruct n; cbn in H; [injection H as <-|]
              | H : [] !! _ = Some _ |- _ => discriminate H
              end; cbn; try lia).
  - cbn. lia.
  - cbn. lia.
  - vm_compute. discriminate.
  - lia.
  - exists g, i. split; [exact Eg|exact Ei].
Defined.

(** X19. One pass of [normalize] turns sums into intensities: on a grid
    whose cells hold finite sums of at most their row's count and whose
    counts are all at least 1 (and below [2^24]), [normalize] returns and
    leaves a value between 0 and 1 in every cell. *)
Theorem normalize_yields_intensities (i : Image.t)
    (Hgrid : grid_ok i) (Hsums : sums_bounded i)
    (Hcounts : forall (r : nat) (n : Z),
                 Image.yadds i !! r = Some n -> 1 <= n < 2 ^ 24) :
  exists p,
    normalize i = Ok (Image.set_pixel i p) /\
    length p = length (Image.pixel i) /\
    forall k : nat, (k < length p)%nat ->
      exists u, p !! k = Some (F32.Fin false u) /\ 0 <= u <= F32.one_u.
Proof.
  destruct (normalize_unit_cells i Hgrid Hsums Hcounts) as (p & Ep & Lp & _ & Hp).
  exists p. split; [exact Ep|]. split; [exact Lp|].
  cbn [Image.pixel Image.set_pixel] in Hp. exact Hp.
Qed.

Lemma normalize_yields_intensities_witness :
  exists p, normalize twice_hit = Ok (Image.set_pixel twice_hit p) /\
            length p = 1%nat.
Proof.
  destruct (normalize_yields_intensities twice_hit) as (p & Ep & Lp & _).
  - unfold grid_ok. cbn. lia.
  - intros k Hk. cbn in Hk. destruct k as [|k]; [|lia].
    exists two, 2. split; [reflexivity|]. split; [reflexivity|].
    exists (2 ^ 150). split; [reflexivity|]. vm_compute. split; discriminate.
  - intros r n Hr. destruct r as [|r]; cbn in Hr; [injection Hr as <-; lia|discriminate].
  - exists p. split; [exact Ep|exact Lp].
Defined.

(** X20. A grid of intensities can always be printed: when every cell
    holds a value between 0 and 1 and the palette has between 2 and
    [2^23] characters, [print_image], called as in [decompress], reads
    inside the grid, selects inside the palette and returns one line per
    grid row. *)
Theorem intensities_are_printable (o : options) (i : Image.t)
    (Hw : 1 <= Image.width i) (Hh : 1 <= Image.height i)
    (Hcells : unit_cells i)
    (Hpal : 2 <= strlen (ascii_palette o) <= 2 ^ 23) :
  exists lines,
    print_image o i (strlen (ascii_palette o) - 1) = Ok lines /\
    length lines = Z.to_nat (Image.height i).
Proof.
  destruct (print_image_total o i Hw Hh Hcells Hpal) as [lines E].
  exists lines. split; [exact E|]. apply (print_image_shape _ _ _ _ E).
Qed.

Lemma intensities_are_printable_witness :
  exists lines, print_image main_options checker 22 = Ok lines /\ length lines = 2%nat.
Proof.
  destruct (intensities_are_printable main_options checker) as (lines & E & L).
  - cbn. lia.
  - cbn. lia.
  - split; [reflexivity|]. intros k Hk. cbn in Hk.
    destruct k as [|[|[|[|k]]]]; try lia; cbn; eexists; (split; [reflexivity|]);
      vm_compute; split; discriminate.
  - vm_compute. split; discriminate.
  - exists lines. split; [exact E|exact L].
Defined.

(** X21. An image is rendered completely and within bounds: for a
    well-formed source, once [calc_aspect_ratio] has returned dimensions
    between 1 and [2^22] whose product fits an [int], and the palette
    has between 2 and [2^23] characters, [decompress], entered with a cursor that is not negative,
    returns 0 and appends to standard output exactly [height] lines of
    [width] palette characters; the cursor is left at [height - 1], and
    standard error grows by the lines of [print_info] exactly when
    [verbose] is set. *)
Theorem image_is_rendered (fuel : nat) (jpg : jpeg) (w : world) (o : options)
    (Hjpg : well_formed jpg)
    (Hcalc : calc_aspect_ratio fuel (output_width jpg) (output_height jpg)
               (opts w) = Ok o)
    (Hw : 1 <= width o <= 2 ^ 22) (Hh : 1 <= height o <= 2 ^ 22)
    (Hcells : width o * height o <= F32.INT_MAX)
    (Hpal : 2 <= strlen (ascii_palette o) <= 2 ^ 23)
    (Hcursor : 0 <= lasty w) :
  exists lines,
    decompress fuel (Decodable jpg) w
    = Ok (0, {| opts := o; lasty := height o - 1; stdin_used := stdin_used w;
                stdout := app (stdout w) lines;
                stderr := if negb (verbose o =? 0)
                          then app (stderr w) (print_info jpg o)
                          else stderr w |}) /\
    length lines = Z.to_nat (height o) /\
    forall line, In line lines ->
      String.length line = Z.to_nat (width o) /\
      forall c, In c (list_ascii_of_string line) ->
                In c (list_ascii_of_string (ascii_palette o)).
Proof.
  exact (decompress_renders fuel jpg w o Hjpg Hcalc Hw Hh Hcells Hpal Hcursor).
Qed.

Lemma image_is_rendered_witness :
  exists lines,
    decompress 2 (Decodable black_over_white) (first_file sized_1x2)
    = Ok (0, {| opts := sized_1x2; lasty := 1; stdin_used := false;
                stdout := lines; stderr := [] |}) /\
    length lines = 2%nat.
Proof.
  destruct (image_is_rendered 2 black_over_white (first_file sized_1x2) sized_1x2)
    as (lines & E & L & _).
  - unfold well_formed, source_row, eight_bit, INT_MAX. cbn.
    repeat split; try lia;
      repeat (match goal with
              | H : _ !! ?n = Some _ |- _ =>
                  destruct n; cbn in H; [injection H as <-|]
              | H : [] !! _ = Some _ |- _ => discriminate H
              end; cbn; try lia).
  - reflexivity.
  - cbn. lia.
  - cbn. lia.
  - vm_compute. discriminate.
  - vm_compute. split; discriminate.
  - cbn. lia.
  - exists lines. split; [exact E|exact L].
Defined.

(** X22. What a leftover cursor costs: when [process_scanline] is
    entered for the first row of a source with its cursor at 1 or more
    (left there by the image before), that row is added to no grid row
    at all -- the grid is returned as it was -- and the cursor falls back
    to 0. *)
Theorem leftover_cursor_drops_first_row (jpg : jpeg) (scanline : list Z)
    (i : Image.t) (cursor : Z)
    (Hh : 1 <= Image.height i <= 2 ^ 22)
    (HH : 2 <= output_height jpg <= 2 ^ 22)
    (Hry : Image.resize_y i
           = F32.div (F32.of_Z (Image.height i - 1))
                     (F32.of_Z (udec (output_height jpg))))
    (Hcursor : 1 <= cursor) :
  process_scanline 1 jpg scanline i cursor = Ok (i, 0).
Proof.
  destruct (dest_row_facts (Image.height i) (output_height jpg) Hh HH) as (D1 & _).
  apply process_scanline_skip; [exact Hry|exact D1|lia].
Qed.

Lemma leftover_cursor_drops_first_row_witness :
  exists g, fresh_grid sized_1x2 black_over_white = Ok g /\
            process_scanline 1 black_over_white [0] g 1 = Ok (g, 0).
Proof.
  eexists. split; [vm_compute; reflexivity|].
  apply leftover_cursor_drops_first_row.
  - vm_compute. split; discriminate.
  - vm_compute. split; discriminate.
  - vm_compute. reflexivity.
  - lia.
Defined.

(** X23. A batch with fixed dimensions is rendered file by file: when
    both dimensions are fixed (both counters zero or both non-zero) and
    in range, their product fitting an [int], and every argument names a file that opens and decodes to a
    well-formed image, the file loop runs to its end and standard output
    grows by [height] lines for each file. *)
Theorem batch_is_rendered (fuel : nat) (e : env) (args : list string)
    (w : world)
    (Hfiles : forall s, In s args ->
       starts_with_dash s = false /\
       exists jpg, fopen e s = Some (Decodable jpg) /\ well_formed jpg)
    (Hmode : auto_width (opts w) = 0 <-> auto_height (opts w) = 0)
    (Hw : 1 <= width (opts w) <= 2 ^ 22)
    (Hh : 1 <= height (opts w) <= 2 ^ 22)
    (Hcells : width (opts w) * height (opts w) <= F32.INT_MAX)
    (Hpal : 2 <= strlen (ascii_palette (opts w)) <= 2 ^ 23)
    (Hcursor : 0 <= lasty w) :
  exists w',
    main_loop (S fuel) e args w = Ok (inr w') /\
    opts w' = opts w /\
    length (stdout w')
    = (length (stdout w) + length args * Z.to_nat (height (opts w)))%nat.
Proof.
  revert w Hmode Hw Hh Hcells Hpal Hcursor.
  induction args as [|s args IH]; intros w Hmode Hw Hh Hcells Hpal Hcursor.
  - exists w. split; [reflexivity|]. split; [reflexivity|]. cbn. lia.
  - destruct (Hfiles s ltac:(left; reflexivity)) as (Hs & jpg & Ho & Hj).
    cbn [main_loop]. rewrite Hs. cbn [andb]. rewrite Ho.
    set (w0 := if negb (verbose (opts w) =? 0) then _ else w).
    assert (opts w0 = opts w /\ lasty w0 = lasty w /\ stdout w0 = stdout w)
      as (E1 & E2 & E3) by (unfold w0; destruct (negb _); auto).
    destruct (decompress_renders (S fuel) jpg w0 (opts w) Hj) as (lines & Ed & Ll & _);
      try assumption.
    { rewrite E1. apply calc_aspect_ratio_fixed, Hmode. }
    { rewrite E2. exact Hcursor. }
    rewrite Ed, bind_Ok. cbv beta iota. cbn [Z.eqb negb].
    match goal with
    | |- context [main_loop _ _ _ ?w1] =>
        destruct (IH (fun s' Hin => Hfiles s' (or_intror Hin)) w1)
          as (w' & Ew & Eo & El); try assumption; [cbn; lia|]
    end.
    exists w'. split; [exact Ew|]. split; [exact Eo|].
    rewrite El. cbn [stdout opts length]. rewrite E3, length_app, Ll. lia.
Qed.

Lemma batch_is_rendered_witness :
  exists w', main_loop 1 one_file ["a.jpg"; "a.jpg"] (first_file sized_1x2)
             = Ok (inr w') /\
             length (stdout w') = 4%nat.
Proof.
  destruct (batch_is_rendered 0 one_file ["a.jpg"; "a.jpg"] (first_file sized_1x2))
    as (w' & E & _ & L).
  - intros s Hs. assert (s = "a.jpg") as -> by (cbn in Hs; intuition congruence).
    split; [reflexivity|]. exists black_over_white. split; [reflexivity|].
    unfold well_formed, source_row, eight_bit, INT_MAX. cbn.
    repeat split; try lia;
      repeat (match goal with
              | H : _ !! ?n = Some _ |- _ =>
                  destruct n; cbn in H; [injection H as <-|]
              | H : [] !! _ = Some _ |- _ => discriminate H
              end; cbn; try lia).
  - cbn. tauto.
  - cbn. lia.
  - cbn. lia.
  - vm_compute. discriminate.
  - vm_compute. split; discriminate.
  - cbn. lia.
  - exists w'. split; [exact E|exact L].
Defined.

(** ** Both flips *)

Lemma print_image_flipy o i chars out f :
  flipy o = 0 -> f <> 0 -> print_image o i chars = Ok out ->
  print_image (set_flipy o f) i chars = Ok (rev out).
Proof.
  intros Hy Hf Hout. rewrite print_image_lines in Hout.
  apply bind_Ok_inv in Hout as (ls & Hls & [= <-]).
  set (h := Image.height i) in *. set (w := Image.width i) in *.
  rewrite print_image_lines. fold h.
  assert (collect (line_of (set_flipy o f) i chars) (Z.to_nat h) 0 = Ok (rev ls)) as ->.
  { rewrite (collect_ext _ (fun y => line_of o i chars (Z.of_nat (Z.to_nat h) - y - 1))).
    - apply collect_reversed. exact Hls.
    - intros y Hyr. unfold line_of. fold h w. cbn [flipy flipx set_flipy].
      rewrite Hy. destruct (Z.eqb_spec f 0) as [|_]; [contradiction|].
      cbn [Z.eqb]. rewrite Z2Nat.id by lia. reflexivity. }
  ok. rewrite map_rev. reflexivity.
Qed.

Lemma print_image_flipx o i chars out f :
  flipx o = 0 -> f <> 0 -> print_image o i chars = Ok out ->
  print_image (set_flipx o f) i chars = Ok (map rev_line out).
Proof.
  intros Hx Hf Hout. rewrite print_image_lines in Hout.
  apply bind_Ok_inv in Hout as (ls & Hls & [= <-]).
  set (h := Image.height i) in *. set (w := Image.width i) in *.
  rewrite print_image_lines. fold h.
  assert (collect (line_of (set_flipx o f) i chars) (Z.to_nat h) 0
          = Ok (map (@rev ascii) ls)) as ->.
  { apply (collect_map (line_of o i chars)); [|exact Hls].
    intros y a Ha. unfold line_of in *. fold h w in Ha |- *.
    cbn [flipy flipx set_flipx]. rewrite Hx in Ha.
    destruct (Z.eqb_spec f 0) as [|_]; [contradiction|].
    change (print_cell (set_flipx o f)) with (print_cell o).
    apply bind_Ok_inv in Ha as (cs & -> & [= <-]). reflexivity. }
  ok. rewrite !map_map. f_equal. apply map_ext. intros l.
  symmetry. apply rev_line_of_list.
Qed.

(** X24. The two flips commute, and together they turn the picture by
    half a turn: when the unflipped rendering prints the lines [out],
    rendering with both [flipx] and [flipy] set prints the lines of [out]
    in reverse order, each read from right to left, in whichever order the
    two options were set. *)
Theorem both_flips_turn_the_picture (o : options) (i : Image.t) (chars : Z)
    (out : list string) (fx fy : Z)
    (Hx : flipx o = 0) (Hy : flipy o = 0)
    (Hfx : fx <> 0) (Hfy : fy <> 0)
    (Hout : print_image o i chars = Ok out) :
  print_image (set_flipy (set_flipx o fx) fy) i chars
  = Ok (rev (map rev_line out)) /\
  print_image (set_flipx (set_flipy o fy) fx) i chars
  = Ok (rev (map rev_line out)).
Proof.
  split.
  - apply print_image_flipy; [exact Hy|exact Hfy|].
    apply print_image_flipx; assumption.
  - rewrite <- map_rev. apply print_image_flipx; [exact Hx|exact Hfx|].
    apply print_image_flipy; assumption.
Qed.

Lemma both_flips_turn_the_picture_witness :
  print_image (set_flipy (set_flipx main_options 1) 1) checker 22 = Ok ["M "; "lM"].
Proof.
  apply (both_flips_turn_the_picture main_options checker 22 ["Ml"; " M"] 1 1).
  - reflexivity.
  - reflexivity.
  - discriminate.
  - discriminate.
  - vm_compute. reflexivity.
Defined.

(** ** Black and white *)

Lemma samples_sum_uniform scanline s off c :
  (forall (j : nat) x, scanline !! j = Some x -> x = s) ->
  0 <= off -> 0 <= c -> off + c <= Z.of_nat (length scanline) ->
  samples_sum scanline off c = s * c.
Proof.
  intros Hu Ho Hc Hl.
  assert (forall n : nat, Z.of_nat n <= c ->
            samples_sum scanline off (Z.of_nat n) = s * Z.of_nat n) as H.
  { induction n as [|n IH]; intros Hn.
    - rewrite samples_sum_0. lia.
    - destruct (lookup_lt_is_Some_2 scanline (Z.to_nat (off + Z.of_nat n))) as [x Ex];
        [lia|].
      replace (Z.of_nat (S n)) with (Z.of_nat n + 1) by lia.
      rewrite (samples_sum_step scanline off (Z.of_nat n) x) by (try assumption; lia).
      rewrite IH by lia. rewrite (Hu _ _ Ex). lia. }
  specialize (H (Z.to_nat c)). rewrite Z2Nat.id in H by lia. apply H. lia.
Qed.

Lemma exact_sum_0 t : exact_sum t 0 zero.
Proof. reflexivity. Qed.

(** Rows of black or of white samples add up without rounding. *)
Lemma row_adds_exact jpg scanline s t :
  source_row jpg scanline ->
  (forall (j : nat) x, scanline !! j = Some x -> x = s) ->
  1 <= out_color_components jpg -> 255 * out_color_components jpg < 2 ^ 24 ->
  s = 0 /\ t = 0 \/ s = 255 /\ t = one_u ->
  row_adds (exact_sum t) jpg scanline.
Proof.
  intros [Rl R8] Hu Hc Hcb Hst off n v O1 O2 Hv Hn Hnb.
  unfold exact_sum in Hv. subst v.
  set (c := out_color_components jpg) in *.
  rewrite intensity_value by (try assumption; lia).
  rewrite (samples_sum_uniform scanline s off c Hu O1) by lia.
  eexists. split; [reflexivity|]. unfold exact_sum.
  destruct (div_unit_interval (s * c) (255 * c)) as (u & E & _ & H0 & H1);
    [destruct Hst as [[-> _]|[-> _]]; lia|lia|exact Hcb|].
  rewrite E. destruct Hst as [[-> ->]|[-> ->]].
  - rewrite (H0 ltac:(lia)), !Z.mul_0_r. reflexivity.
  - rewrite (H1 eq_refl).
    replace (Fin false one_u) with (Fin false (1 * one_u)) by (f_equal; lia).
    apply add_exact; lia.
Qed.

Lemma div_exact_count n t :
  1 <= n < 2 ^ 24 -> t = 0 \/ t = one_u ->
  div (Fin false (n * t)) (of_Z n) = Fin false t.
Proof.
  intros Hn Ht. pose proof one_u_pos as P. rewrite of_Z_exact by lia.
  cbn [div xorb]. destruct (Z.eqb_spec (n * one_u) 0); [nia|].
  destruct Ht as [-> | ->].
  - rewrite Z.mul_0_r, Z.mul_0_l. apply F32Agree.round_zero. nia.
  - replace (n * one_u * one_u) with (one_u * (n * one_u)) by ring.
    assert (representable one_u) as R1
      by (replace one_u with (1 * 2 ^ 149) by reflexivity;
          apply representable_scaled; lia).
    rewrite round_Fin; rewrite round_mag_exact by (try assumption; nia);
      [reflexivity|rewrite top_u_eq; nia].
Qed.

Lemma normalize_exact i t :
  grid_ok i -> cells_satisfy (exact_sum t) i -> t = 0 \/ t = one_u ->
  (forall (r : nat) (n : Z), Image.yadds i !! r = Some n -> 1 <= n < 2 ^ 24) ->
  exists p, normalize i = Ok (Image.set_pixel i p) /\
            length p = length (Image.pixel i) /\
            forall k : nat, (k < length p)%nat -> p !! k = Some (Fin false t).
Proof.
  intros Hg Hs Ht Hc. pose proof Hg as (G1 & G2 & G3 & G4).
  destruct (normalize_pixels i Hg) as (p & Ep & Lp & Hp).
  exists p. split; [exact Ep|]. split; [exact Lp|].
  intros k Hk. rewrite Lp in Hk. rewrite Hp.
  destruct (Z.ltb_spec (Z.of_nat k) (Image.width i * Image.height i)); [|lia].
  unfold normalized_cell. destruct (Hs k Hk) as (v & n & E1 & E2 & Ev).
  unfold exact_sum in Ev. subst v. rewrite E1, E2. pose proof (Hc _ _ E2) as Hn.
  destruct (Z.eqb_spec n 0); [lia|]. rewrite div_exact_count by assumption.
  reflexivity.
Qed.

(** White takes the last position of the scale, black the first. *)
Lemma quantize_extreme chars t :
  1 <= chars < 2 ^ 23 -> t = 0 \/ t = one_u ->
  ROUND (mul (of_Z chars) (Fin false t)) = Ok (if t =? 0 then 0 else chars).
Proof.
  intros Hc Ht. pose proof one_u_pos as P. destruct Ht as [-> | ->].
  - destruct (quantize_bounds chars 0 Hc ltac:(lia)) as (pos & E & _ & H0).
    rewrite E, (H0 eq_refl). reflexivity.
  - destruct (Z.eqb_spec one_u 0); [lia|].
    rewrite of_Z_exact by lia.
    rewrite (mul_exact _ _ (chars * one_u));
      [|unfold one_u; apply representable_scaled; lia|ring
       |unfold one_u; apply top_u_big; lia].
    assert (round_mag (2 ^ 148 + chars * one_u) 1 = (2 * chars + 1) * 2 ^ 148) as E.
    { replace (2 ^ 148 + chars * one_u) with ((2 * chars + 1) * 2 ^ 148 * 1)
        by (rewrite one_u_eq; ring).
      apply round_mag_exact; [apply representable_scaled; lia|lia]. }
    assert (0 < 2 ^ 148) as PP by (apply Z.pow_pos_nonneg; lia).
    assert ((2 * chars + 1) * 2 ^ 148 / one_u = chars) as Ed.
    { apply div_between; [exact P|]. rewrite one_u_eq. lia. }
    rewrite ROUND_nonneg; [rewrite E, Ed; reflexivity|lia|].
    rewrite E, Ed. unfold INT_MAX. lia.
Qed.

Lemma collect_const {A} (f : Z -> result A) (a : A) n : forall x,
  (forall k, x <= k < x + Z.of_nat n -> f k = Ok a) ->
  collect f n x = Ok (replicate n a).
Proof.
  induction n as [|n IH]; intros x H; [reflexivity|].
  cbn [collect replicate]. rewrite H by lia. rewrite bind_Ok.
  rewrite IH by (intros k Hk; apply H; lia). reflexivity.
Qed.

Lemma rev_replicate {A} n (a : A) : rev (replicate n a) = replicate n a.
Proof. rewrite rev_reverse. apply reverse_replicate. Qed.

Lemma map_replicate {A B} (f : A -> B) n (a : A) :
  map f (replicate n a) = replicate n (f a).
Proof. induction n as [|n IH]; cbn; [reflexivity|rewrite IH; reflexivity]. Qed.

(** A grid of one intensity is printed with one character. *)
Lemma print_image_uniform o i chars t pos c :
  0 <= Image.width i -> 0 <= Image.height i ->
  Z.of_nat (length (Image.pixel i)) = Image.width i * Image.height i ->
  (forall k : nat, (k < length (Image.pixel i))%nat ->
     Image.pixel i !! k = Some (Fin false t)) ->
  ROUND (mul (of_Z chars) (Fin false t)) = Ok pos ->
  palette_char (ascii_palette o) (if invert o =? 0 then chars - pos else pos) = Ok c ->
  print_image o i chars
  = Ok (replicate (Z.to_nat (Image.height i))
          (string_of_list_ascii (replicate (Z.to_nat (Image.width i)) c))).
Proof.
  intros Hw Hh Hlen Hcells Hpos Hc. rewrite print_image_lines.
  rewrite (collect_const _ (replicate (Z.to_nat (Image.width i)) c)).
  - rewrite bind_Ok, map_replicate. reflexivity.
  - intros y Hy. unfold line_of.
    set (row := if flipy o =? 0 then y else Image.height i - y - 1).
    assert (0 <= row < Image.height i) as Hrow
      by (unfold row; destruct (flipy o =? 0); lia).
    rewrite (collect_const _ c).
    + rewrite bind_Ok. destruct (flipx o =? 0); [reflexivity|].
      rewrite rev_replicate. reflexivity.
    + intros x Hx. unfold print_cell.
      assert (0 <= row * Image.width i + x < Image.width i * Image.height i) as Hk by nia.
      rewrite (get_Some _ _ (Fin false t)) by (try apply Hcells; lia).
      rewrite bind_Ok, Hpos, bind_Ok. exact Hc.
Qed.

(** X25. Black and white are rendered exactly: for a well-formed source
    whose samples are all 0 (or all 255), dimensions between 1 and
    [2^22] whose product fits an [int], and a palette of 2 to [2^23]
    characters, [decompress],
    entered with a cursor that is not negative, prints [height] lines
    that consist of [width] copies of one palette character -- without
    [invert] the last character of the palette for black and the first
    for white, with [invert] the other way round.  No cell is touched by
    rounding: the sums are whole multiples and the division by the count
    is exact. *)
Theorem black_and_white_are_exact (fuel : nat) (jpg : jpeg) (w : world)
    (o : options) (s : Z)
    (Hjpg : well_formed jpg)
    (Hs : s = 0 \/ s = 255)
    (Huniform : uniform jpg s)
    (Hcalc : calc_aspect_ratio fuel (output_width jpg) (output_height jpg)
               (opts w) = Ok o)
    (Hw : 1 <= width o <= 2 ^ 22) (Hh : 1 <= height o <= 2 ^ 22)
    (Hcells : width o * height o <= F32.INT_MAX)
    (Hpal : 2 <= strlen (ascii_palette o) <= 2 ^ 23)
    (Hcursor : 0 <= lasty w) :
  let chars := strlen (ascii_palette o) - 1 in
  let pos := if s =? 0 then 0 else chars in
  exists c,
    palette_char (ascii_palette o) (if invert o =? 0 then chars - pos else pos)
    = Ok c /\
    decompress fuel (Decodable jpg) w
    = Ok (0, {| opts := o; lasty := height o - 1; stdin_used := stdin_used w;
                stdout := app (stdout w)
                            (replicate (Z.to_nat (height o))
                               (string_of_list_ascii
                                  (replicate (Z.to_nat (width o)) c)));
                stderr := if negb (verbose o =? 0)
                          then app (stderr w) (print_info jpg o)
                          else stderr w |}).
Proof.
  intros chars pos.
  pose proof Hjpg as (Wsw & WH & Wc & Wcb & Wfit & Wl & Wrows).
  set (t := if s =? 0 then 0 else one_u).
  assert (s = 0 /\ t = 0 \/ s = 255 /\ t = one_u) as Hst
    by (unfold t; destruct Hs as [-> | ->]; [left|right]; split; reflexivity).
  assert (t = 0 \/ t = one_u) as Ht by (destruct Hst as [[_ ->]|[_ ->]]; auto).
  destruct (palette_char_Some (ascii_palette o)
              (if invert o =? 0 then chars - pos else pos)) as [c Hc].
  { unfold pos, chars. destruct (invert o =? 0), (s =? 0); lia. }
  exists c. split; [exact Hc|].
  destruct (fresh_grid_spec o jpg Hw ltac:(lia) Hcells Wsw Wc Wfit)
    as (g & Eg & Hg & Hcs & Hcn).
  destruct (scan_rows_covers jpg (width o) (height o) g (lasty w) (exact_sum t)
              Hjpg ltac:(lia) Hh Hcells Hcursor) as (i & Ei & Hg' & Hs' & Hc');
    [|exact Hg|apply Hcs, exact_sum_0|exact Hcn|].
  { intros n row Hr. apply (row_adds_exact jpg row s t); try assumption.
    - eapply Wrows, Hr.
    - intros j x Hx. eapply Huniform; eassumption. }
  pose proof Hg' as (Gw & Gh & Gp & Gy & _).
  destruct (normalize_exact i t) as (p & En & Lp & Hp); [|exact Hs'|exact Ht| |].
  { unfold grid_ok. rewrite Gw, Gh. repeat split; try lia. }
  { intros r n Hr. destruct (Hc' _ _ Hr) as [N1 N2].
    pose proof (lookup_lt_Some _ _ _ Hr). specialize (N2 ltac:(lia)). lia. }
  assert (ROUND (mul (of_Z chars) (Fin false t)) = Ok pos) as Hpos.
  { rewrite quantize_extreme by (try assumption; unfold chars; lia).
    unfold pos, t. destruct (Z.eqb_spec s 0) as [->|Ns]; [reflexivity|].
    destruct (Z.eqb_spec one_u 0) as [E0|_]; [discriminate E0|reflexivity]. }
  pose proof (print_image_uniform o (Image.set_pixel i p) chars t pos c) as Hprint.
  cbn [Image.width Image.height Image.pixel Image.set_pixel] in Hprint.
  rewrite Gw, Gh in Hprint.
  specialize (Hprint ltac:(lia) ltac:(lia) ltac:(rewrite Lp; exact Gp) Hp Hpos Hc).
  unfold decompress. rewrite Hcalc, bind_Ok.
  unfold fresh_grid in Eg. apply bind_Ok_inv in Eg as (im & Em & Eg).
  rewrite Em, bind_Ok. cbv zeta. rewrite Eg, bind_Ok, Ei, bind_Ok.
  cbv beta iota. rewrite En, bind_Ok. fold chars. rewrite Hprint, bind_Ok.
  reflexivity.
Qed.

Lemma black_and_white_are_exact_witness :
  decompress 2 (Decodable white_rows) (first_file sized_1x2)
  = Ok (0, {| opts := sized_1x2; lasty := 1; stdin_used := false;
              stdout := [" "; " "]; stderr := [] |}).
Proof.
  destruct (black_and_white_are_exact 2 white_rows (first_file sized_1x2) sized_1x2 255)
    as (c & Hc & E).
  - unfold well_formed, source_row, eight_bit, INT_MAX. cbn.
    repeat split; try lia;
      repeat (match goal with
              | H : _ !! ?n = Some _ |- _ =>
                  destruct n; cbn in H; [injection H as <-|]
              | H : [] !! _ = Some _ |- _ => discriminate H
              end; cbn; try lia).
  - right. reflexivity.
  - intros n j row x Hr Hx. cbn in Hr.
    repeat (match goal with
            | H : _ !! ?n = Some _ |- _ =>
                destruct n; cbn in H; [injection H as <-|]
            | H : [] !! _ = Some _ |- _ => discriminate H
            end; cbn; try reflexivity).
  - reflexivity.
  - cbn. lia.
  - cbn. lia.
  - vm_compute. discriminate.
  - vm_compute. split; discriminate.
  - cbn. lia.
  - vm_compute in Hc. injection Hc as <-. exact E.
Defined.
